(** * godoctor: the diff/patch engine of [doctor/diff.go]

    A shallow embedding of the greedy LCS/SES search ([Diff]), of the
    backtrace that turns the search history into edits
    ([constructEditSet]), of the hunk assembly ([createPatch]) and of the
    unified-diff writer ([Patch.Write]), followed by the properties the
    specification states about them.

    Conventions of the embedding:
    - a Go [int] is a [Z]; every value below is bounded by the size of a
      slice or of a string held in memory, so no operation wraps around;
    - a Go [string] is a [string] (a sequence of bytes), [len] is
      [String.length];
    - a Go slice is a [list], read and written by index with the run-time
      bounds check written out ([index], [store]); a slice has no spare
      capacity ([cap = len]);
    - a call that can [panic] returns a [result]: [Ret v] for a normal
      return, [Panics msg] for a panic. *)

From Stdlib Require Import ZArith Lia List String Ascii Bool DecimalString.
From stdpp Require Import base list gmap strings.

Local Open Scope Z_scope.

(** ** Panics *)

Inductive result (A : Type) : Type :=
| Ret (a : A)
| Panics (msg : string).
Arguments Ret {A} a.
Arguments Panics {A} msg.

Definition bind {A B : Type} (r : result A) (f : A → result B) : result B :=
  match r with
  | Ret a => f a
  | Panics msg => Panics msg
  end.

Notation "x <- r ;; k" := (bind r (fun x => k))
  (at level 100, r at next level, right associativity).

Definition index_out_of_range : string := "runtime error: index out of range".
Definition ses_too_long : string := "Length of SES longer than max (impossible)".
Definition not_implemented : string := "Not implemented".
Definition read_only : string := "Add cannot be called on Patch (read-only)".

(** ** Slices and strings *)

Definition len {A : Type} (l : list A) : Z := Z.of_nat (length l).
Definition strlen (s : string) : Z := Z.of_nat (String.length s).

(** [l[i]] *)
Definition index {A : Type} (l : list A) (i : Z) : result A :=
  if i <? 0 then Panics index_out_of_range
  else match l !! Z.to_nat i with
       | Some x => Ret x
       | None => Panics index_out_of_range
       end.

(** [l[i] = x] *)
Definition store {A : Type} (l : list A) (i : Z) (x : A) : result (list A) :=
  if (0 <=? i) && (i <? len l) then Ret (<[Z.to_nat i := x]> l)
  else Panics index_out_of_range.

(** [strings.Join(ss, "")] *)
Fixpoint Join (ss : list string) : string :=
  match ss with
  | [] => EmptyString
  | s :: ss' => String.append s (Join ss')
  end.

(** ** Edits and edit sets *)

Record OffsetLength : Type := mkOL { Offset : Z; Length : Z }.

Record edit : Type := mkEdit { ol : OffsetLength; replacement : string }.

Definition eOffset (e : edit) : Z := Offset (ol e).
Definition eLength (e : edit) : Z := Length (ol e).

(** [OffsetPastEnd]: the offset of the first byte after the edited region. *)
Definition OffsetPastEnd (e : edit) : Z := eOffset e + eLength e.

Global Instance OffsetLength_eq_dec : EqDecision OffsetLength.
Proof. solve_decision. Defined.
Global Instance edit_eq_dec : EqDecision edit.
Proof. solve_decision. Defined.

(** Modelled from the spec: the [editSet] type of the repository (its
    file is not among the sources).  The spec gives it as a mapping from
    file identity to a sequence of edits kept in ascending offset order. *)
Abbreviation editSet := (gmap string (list edit)).

(** Modelled from the spec: [NewEditSet], the empty edit set. *)
Definition NewEditSet : editSet := ∅.

(** The edits recorded for one file ([e.edits[filename]], [nil] when the
    key is absent). *)
Definition editsOf (es : editSet) (filename : string) : list edit :=
  default [] (es !! filename).

(** Modelled from the spec: the position at which [Add] places an edit.
    The spec fixes ascending offsets and says that [Diff], which finds its
    edits in reverse textual order, returns them in textual order: the new
    edit goes before the first edit whose offset is not smaller. *)
Fixpoint insertEdit (e : edit) (l : list edit) : list edit :=
  match l with
  | [] => [e]
  | e' :: l' =>
      if eOffset e' <? eOffset e then e' :: insertEdit e l'
      else e :: e' :: l'
  end.

(** Modelled from the spec: [editSet.Add]; on an edit set it always
    succeeds (the spec: it fails only on a rendered Patch). *)
Definition Add (es : editSet) (filename : string) (pos : OffsetLength)
    (repl : string) : editSet :=
  <[filename := insertEdit (mkEdit pos repl) (editsOf es filename)]> es.

(** Modelled from the spec: [editSet.ApplyTo] on an in-memory text.  The
    edits are applied in ascending offset order; an edit that starts
    before the end of the previous one, or that reaches past the end of
    the text, is an error ([None]). *)
Fixpoint applyEdits (l : list edit) (pos : Z) (s : string) : option string :=
  match l with
  | [] => Some (substring (Z.to_nat pos) (String.length s - Z.to_nat pos) s)
  | e :: l' =>
      if (eOffset e <? pos) || (eLength e <? 0) || (strlen s <? OffsetPastEnd e)
      then None
      else
        match applyEdits l' (OffsetPastEnd e) s with
        | Some rest =>
            Some (String.append
                    (substring (Z.to_nat pos) (Z.to_nat (eOffset e - pos)) s)
                    (String.append (replacement e) rest))
        | None => None
        end
  end.

Definition ApplyToString (es : editSet) (key : string) (s : string)
  : option string :=
  applyEdits (editsOf es key) 0 s.

(** ** The greedy LCS/SES search: [Diff] *)

Definition abs (n : Z) : Z := if n <? 0 then - n else n.

(** The choice of the predecessor diagonal:
    [if k == -d || k != d && abs(v[offset+k-1]) < abs(v[offset+k+1])],
    with Go's short-circuit evaluation.  Returns the start [x] and [vert]. *)
Definition choose (v : list Z) (offset d k : Z) : result (Z * bool) :=
  if k =? - d then
    r <- index v (offset + k + 1) ;; Ret (abs r, false)
  else if negb (k =? d) then
    l <- index v (offset + k - 1) ;;
    r <- index v (offset + k + 1) ;;
    if abs l <? abs r then Ret (abs r, false) else Ret (abs l + 1, true)
  else
    l <- index v (offset + k - 1) ;; Ret (abs l + 1, true).

(** [for x < n && y < m && a[x] == b[y] { x, y = x+1, y+1 }].  The counter
    is [n - x]: when it is exhausted [x >= n] and the loop has ended. *)
Fixpoint snake (cnt : nat) (a b : list string) (x y : Z) : result (Z * Z) :=
  match cnt with
  | O => Ret (x, y)
  | S cnt' =>
      if (x <? len a) && (y <? len b) then
        ax <- index a x ;;
        by' <- index b y ;;
        if String.eqb ax by' then snake cnt' a b (x + 1) (y + 1)
        else Ret (x, y)
      else Ret (x, y)
  end.

(** One pass of the inner loop body for diagonal [k]: the new frontier,
    and whether the end point was reached. *)
Definition kbody (a b : list string) (offset d k : Z) (v : list Z)
  : result (list Z * bool) :=
  c <- choose v offset d k ;;
  let '(x0, vert) := c in
  p <- snake (Z.to_nat (len a - x0)) a b x0 (x0 - k) ;;
  let '(x, y) := p in
  v' <- store v (offset + k) (if vert : bool then - x else x) ;;
  Ret (v', (len a <=? x) && (len b <=? y)).

(** [for k := -d; k <= d; k += 2]: [cnt] counts the diagonals left, [d+1]
    at the start.  The flag tells whether [Diff] returns from inside. *)
Fixpoint kloop (cnt : nat) (a b : list string) (offset d k : Z) (v : list Z)
  : result (list Z * bool) :=
  match cnt with
  | O => Ret (v, false)
  | S cnt' =>
      r <- kbody a b offset d k v ;;
      let '(v', found) := r in
      if found : bool then Ret (v', true)
      else kloop cnt' a b offset d (k + 2) v'
  end.

(** [for d := 0; d <= max; d++]: [cnt] counts the values of [d] left,
    [max+1] at the start; falling out of the loop is the final [panic].
    The result is the history [vs] handed to [constructEditSet]. *)
Fixpoint dloop (cnt : nat) (a b : list string) (offset d : Z) (v : list Z)
    (vs : list (list Z)) : result (list (list Z)) :=
  match cnt with
  | O => Panics ses_too_long
  | S cnt' =>
      r <- kloop (S (Z.to_nat d)) a b offset d (- d) v ;;
      let '(v', found) := r in
      if found : bool then Ret (vs ++ [v'])
      else dloop cnt' a b offset (d + 1) v' (vs ++ [v'])
  end.

(** The search of [Diff] for non-empty [a] and [b]. *)
Definition search (a b : list string) : result (list (list Z)) :=
  let max := len b + len a in
  let v := replicate (Z.to_nat (2 * max)) 0 in
  let offset := max in
  v <- store v (offset + 1) 0 ;;
  dloop (S (Z.to_nat max)) a b offset 0 v [].

(** [offsetOfString]: [for i := 0; i < index; i++ { result += len(ss[i]) }] *)
Fixpoint offsetOfString_loop (cnt : nat) (i : Z) (ss : list string) (acc : Z)
  : result Z :=
  match cnt with
  | O => Ret acc
  | S cnt' =>
      s <- index ss i ;;
      offsetOfString_loop cnt' (i + 1) ss (acc + strlen s)
  end.

Definition offsetOfString (idx : Z) (ss : list string) : result Z :=
  offsetOfString_loop (Z.to_nat idx) 0 ss 0.

(** [b[lo : lo+1]] *)
Definition slice1 {A : Type} (l : list A) (lo : Z) : result (list A) :=
  x <- index l lo ;; Ret [x].

(** The loop of [constructEditSet], [for len(vs) > 1], which takes the
    history from its end: [rvs] is [vs] reversed, its head is
    [vs[len(vs)-1]]. *)
Fixpoint backtrace (rvs : list (list Z)) (filename : string)
    (a b : list string) (offset k : Z) (res : editSet) : result editSet :=
  match rvs with
  | v :: ((v' :: _) as rest) =>
      v_k <- index v (offset + k) ;;
      let x := abs v_k in
      let y := x - k in
      let k' := if 0 <? v_k then k + 1 else k - 1 in
      next_v_k <- index v' (offset + k') ;;
      let next_x := abs next_v_k in
      let next_y := next_x - k' in
      if 0 <? v_k then
        let charsToCopy := y - next_y - 1 in
        let insertOffset := x - charsToCopy in
        o <- offsetOfString insertOffset a ;;
        let copyOffset := y - charsToCopy - 1 in
        replaceWith <- slice1 b copyOffset ;;
        backtrace rest filename a b offset k'
          (Add res filename (mkOL o 0) (Join replaceWith))
      else
        let charsToCopy := x - next_x - 1 in
        let deleteOffset := x - charsToCopy - 1 in
        o <- offsetOfString deleteOffset a ;;
        s <- index a deleteOffset ;;
        backtrace rest filename a b offset k'
          (Add res filename (mkOL o (strlen s)) EmptyString)
  | _ => Ret res
  end.

Definition constructEditSet (filename : string) (a b : list string)
    (vs : list (list Z)) : result editSet :=
  let n := len a in
  let m := len b in
  let max := m + n in
  backtrace (rev vs) filename a b max (n - m) NewEditSet.

Definition Diff (filename : string) (a b : list string) : result editSet :=
  let n := len a in
  let m := len b in
  if (n =? 0) && (m =? 0) then Ret NewEditSet
  else if n =? 0 then
    Ret (Add NewEditSet filename (mkOL 0 0) (Join b))
  else if m =? 0 then
    Ret (Add NewEditSet filename (mkOL 0 (strlen (Join a))) EmptyString)
  else
    vs <- search a b ;;
    constructEditSet filename a b vs.

(** A reference longest-common-subsequence length, independent of the
    search. *)
Fixpoint lcs (a b : list string) : nat :=
  match a with
  | [] => O
  | x :: a' =>
      (fix lcs_row (b : list string) : nat :=
         match b with
         | [] => O
         | y :: b' =>
             if String.eqb x y then S (lcs a' b')
             else Nat.max (lcs a' b) (lcs_row b')
         end) b
  end.


(** ** Hunks and patches *)

(** Number of leading/trailing context lines in a unified diff. *)
Definition num_ctx_lines : Z := 3.

(** A single hunk of a unified diff; [hunkText] is the buffer the source
    calls [hunk]. *)
Record hunk : Type := mkHunk {
  startOffset : Z;
  startLine : Z;
  numLines : Z;
  hunkText : string;
  edits : list edit
}.

Record Patch : Type := mkPatch {
  filename : string;
  hunks : list hunk
}.

(** Modelled from the spec: [edit.RelativeToOffset], the edit with its
    offset counted from [offset] (a hunk's start) instead of from the
    start of the file. *)
Definition RelativeToOffset (e : edit) (offset : Z) : edit :=
  mkEdit (mkOL (eOffset e - offset) (eLength e)) (replacement e).

(** [Patch.Edits] *)
Definition Patch_Edits (p : Patch) : editSet :=
  {[ filename p := foldl (fun acc h => acc ++ edits h) [] (hunks p) ]}.

(** [Patch.Add]: the patch is the receiver, left as it is, and the error
    returned. *)
Definition Patch_Add (p : Patch) (key : string) (pos : OffsetLength)
    (repl : string) : Patch * option string :=
  (p, Some read_only).

(** [Patch.ApplyTo], [Patch.ApplyToFile] and [Patch.ApplyToString]: the
    reader, the writer and the text have no part in what they do. *)
Definition Patch_ApplyTo (p : Patch) (key : string) (input : string)
  : result (string * option string) :=
  Panics not_implemented.

Definition Patch_ApplyToFile (p : Patch) (name : string)
  : result (string * option string) :=
  Panics not_implemented.

Definition Patch_ApplyToString (p : Patch) (key : string) (s : string)
  : result (string * option string) :=
  Panics not_implemented.

(** [Patch.add] *)
Definition Patch_add (p : Patch) (h : hunk) : Patch :=
  mkPatch (filename p) (hunks p ++ [h]).

(** [hunk.addLine] *)
Definition addLine (h : hunk) (line : string) : hunk :=
  mkHunk (startOffset h) (startLine h) (numLines h + 1)
         (String.append (hunkText h) line) (edits h).

(** [hunk.addEdit] *)
Definition addEdit (h : hunk) (e : edit) : hunk :=
  mkHunk (startOffset h) (startLine h) (numLines h) (hunkText h)
         (edits h ++ [RelativeToOffset e (startOffset h)]).

(** ** Reading lines *)

Definition newline : ascii := Ascii.ascii_of_nat 10.
Definition nl : string := String newline EmptyString.

(** [strings.SplitAfter(s, "\n")]: the pieces of [s], each but the last
    ending with the newline that closes it; the last one is what follows
    the last newline and may be empty. *)
Fixpoint SplitAfter (s : string) : list string :=
  match s with
  | EmptyString => [EmptyString]
  | String c s' =>
      if Ascii.eqb c newline then String c EmptyString :: SplitAfter s'
      else match SplitAfter s' with
           | [] => [String c EmptyString]
           | p :: ps => String c p :: ps
           end
  end.

(** A [lineRdr] without its [bufio.Reader]: the stream is the list of the
    pieces that [reader.ReadString('\n')] will return, and is threaded by
    the loop of [createPatch].  [err] is [true] for [io.EOF]. *)
Record lineRdr : Type := mkLineRdr {
  line : string;
  lineOffset : Z;
  lineNum : Z;
  err : bool;
  leadingCtxLines : list string
}.

Definition newLineRdr : lineRdr :=
  mkLineRdr EmptyString 0 0 false [].

(** [lineRdr.readLine], given what [reader.ReadString('\n')] returns. *)
Definition readLine (l : lineRdr) (read : string) (eof : bool) : lineRdr :=
  let ctx :=
    if 0 <? lineNum l then
      (if len (leadingCtxLines l) =? num_ctx_lines
       then drop 1 (leadingCtxLines l) else leadingCtxLines l) ++ [line l]
    else leadingCtxLines l in
  mkLineRdr read (lineOffset l + strlen (line l)) (lineNum l + 1) eof ctx.

Definition offsetPastEnd (l : lineRdr) : Z := lineOffset l + strlen (line l).

Definition editAddsToStart (l : lineRdr) (e : option edit) : bool :=
  match e with
  | None => false
  | Some e => (eOffset e =? lineOffset l) && (eLength e =? 0)
  end.

Definition currentLineIsAffectedBy (l : lineRdr) (e : option edit) : bool :=
  match e with
  | None => false
  | Some e => (eOffset e <? offsetPastEnd l) && (lineOffset l <=? OffsetPastEnd e)
  end.

Definition nextLineIsAffectedBy (l : lineRdr) (e : option edit) : bool :=
  match e with
  | None => false
  | Some e => offsetPastEnd l <=? OffsetPastEnd e
  end.

(** [startHunk] *)
Definition startHunk (lr : lineRdr) : hunk :=
  let h0 := mkHunk (lineOffset lr) (lineNum lr) 1 EmptyString [] in
  let h1 :=
    foldl (fun h ln =>
             mkHunk (startOffset h - strlen ln) (startLine h - 1)
                    (numLines h + 1) (String.append (hunkText h) ln) (edits h))
          h0 (leadingCtxLines lr) in
  mkHunk (startOffset h1) (startLine h1) (numLines h1)
         (String.append (hunkText h1) (line lr)) (edits h1).

(** An iterator over a slice of edits. *)
Record editIter : Type := mkEditIter {
  iterEdits : list edit;
  nextIndex : nat
}.

Definition newEditIter (e : editSet) (name : string) : editIter :=
  mkEditIter (editsOf e name) 0.

(** [editIter.edit]: [None] is the [nil] pointer. *)
Definition iterEdit (it : editIter) : option edit :=
  iterEdits it !! nextIndex it.

Definition moveToNextEdit (it : editIter) : editIter :=
  mkEditIter (iterEdits it) (S (nextIndex it)).

(** [addAllEditsOnCurLine]: the loop runs at most once per edit left in
    the iterator, which [cnt] counts. *)
Fixpoint addAllEdits_loop (cnt : nat) (h : hunk) (rd : lineRdr)
    (it : editIter) (lastEdit : option edit) : hunk * editIter * option edit :=
  match cnt with
  | O => (h, it, lastEdit)
  | S cnt' =>
      match iterEdit it with
      | Some e =>
          if currentLineIsAffectedBy rd (Some e) then
            if nextLineIsAffectedBy rd (Some e) then (h, it, lastEdit)
            else addAllEdits_loop cnt' (addEdit h e) rd (moveToNextEdit it)
                                  (Some e)
          else (h, it, lastEdit)
      | None => (h, it, lastEdit)
      end
  end.

Definition addAllEditsOnCurLine (h : hunk) (rd : lineRdr) (it : editIter)
  : hunk * editIter * option edit :=
  addAllEdits_loop (length (iterEdits it) - nextIndex it)%nat h rd it
                   (iterEdit it).

(** ** Hunk assembly: [createPatch] *)

Inductive hunkState : Type :=
| HUNK_NOT_STARTED
| ADDING_TO_HUNK
| EDIT_ADDED_TO_HUNK.

(** The local variables of [createPatch]; [cpHunk] is the pointer [hunk],
    [None] for [nil]. *)
Record cpState : Type := mkCp {
  cpResult : Patch;
  cpReader : lineRdr;
  cpIter : editIter;
  curState : hunkState;
  cpHunk : option hunk;
  trailingCtxLines : Z
}.

Definition nil_dereference : string :=
  "runtime error: invalid memory address or nil pointer dereference".

(** The three lines shared by the cases of the switch: attach the edits of
    the current line and choose the next state. *)
Definition attachEdits (st : cpState) (h : hunk) : cpState :=
  let '(h', it', last) := addAllEditsOnCurLine h (cpReader st) (cpIter st) in
  if nextLineIsAffectedBy (cpReader st) last then
    mkCp (cpResult st) (cpReader st) it' ADDING_TO_HUNK (Some h')
         (trailingCtxLines st)
  else
    mkCp (cpResult st) (cpReader st) it' EDIT_ADDED_TO_HUNK (Some h')
         (if editAddsToStart (cpReader st) last then 1 else 0).

(** The body of the loop, after [reader.readLine()] returned no error. *)
Definition cpBody (st : cpState) : result cpState :=
  match curState st with
  | HUNK_NOT_STARTED =>
      if currentLineIsAffectedBy (cpReader st) (iterEdit (cpIter st)) then
        Ret (attachEdits st (startHunk (cpReader st)))
      else
        Ret (mkCp (cpResult st) (cpReader st) (cpIter st) HUNK_NOT_STARTED
                  (cpHunk st) (trailingCtxLines st))
  | ADDING_TO_HUNK =>
      match cpHunk st with
      | None => Panics nil_dereference
      | Some h => Ret (attachEdits st (addLine h (line (cpReader st))))
      end
  | EDIT_ADDED_TO_HUNK =>
      match cpHunk st with
      | None => Panics nil_dereference
      | Some h =>
          let h := addLine h (line (cpReader st)) in
          if currentLineIsAffectedBy (cpReader st) (iterEdit (cpIter st)) then
            Ret (attachEdits st h)
          else
            let t := trailingCtxLines st + 1 in
            if t <? 2 * num_ctx_lines then
              Ret (mkCp (cpResult st) (cpReader st) (cpIter st)
                        EDIT_ADDED_TO_HUNK (Some h) t)
            else
              Ret (mkCp (Patch_add (cpResult st) h) (cpReader st) (cpIter st)
                        HUNK_NOT_STARTED None t)
      end
  end.

Definition setReader (st : cpState) (rd : lineRdr) : cpState :=
  mkCp (cpResult st) rd (cpIter st) (curState st) (cpHunk st)
       (trailingCtxLines st).

(** [for err = reader.readLine(); err == nil; err = reader.readLine()]
    over the pieces left in the stream: every piece but the last is read
    without error, the last one (and anything after) with [io.EOF]. *)
Fixpoint cpLoop (input : list string) (st : cpState) : result cpState :=
  match input with
  | [] => Ret (setReader st (readLine (cpReader st) EmptyString true))
  | p :: rest =>
      match rest with
      | [] => Ret (setReader st (readLine (cpReader st) p true))
      | _ :: _ =>
          st' <- cpBody (setReader st (readLine (cpReader st) p false)) ;;
          cpLoop rest st'
      end
  end.

(** What follows the loop: the open hunk is flushed. *)
Definition cpFlush (st : cpState) : result Patch :=
  match curState st with
  | HUNK_NOT_STARTED => Ret (cpResult st)
  | ADDING_TO_HUNK =>
      match cpHunk st with
      | None => Panics nil_dereference
      | Some h =>
          let h := if String.eqb (line (cpReader st)) EmptyString then h
                   else addLine h (line (cpReader st)) in
          let '(h', _, _) := addAllEditsOnCurLine h (cpReader st) (cpIter st) in
          Ret (Patch_add (cpResult st) h')
      end
  | EDIT_ADDED_TO_HUNK =>
      match cpHunk st with
      | None => Panics nil_dereference
      | Some h =>
          let h := if String.eqb (line (cpReader st)) EmptyString then h
                   else addLine h (line (cpReader st)) in
          Ret (Patch_add (cpResult st) h)
      end
  end.

(** [createPatch] on the text [input] of the reader [in]; the error it
    returns is always [nil] for a text held in memory. *)
Definition createPatch (e : editSet) (key : string) (input : string)
  : result Patch :=
  let result := mkPatch key [] in
  if bool_decide (size e = 0%nat) then Ret result
  else
    st <- cpLoop (SplitAfter input)
                 (mkCp result newLineRdr (newEditIter e key)
                       HUNK_NOT_STARTED None 0) ;;
    cpFlush st.

(** ** The unified-diff writer *)

(** [%d] *)
Definition fmt_d (z : Z) : string := NilZero.string_of_int (Z.to_int z).

(** The inner loop of the writer,
    [for sesIter.edit() != nil && sesIter.edit().Offset == offset];
    [cnt] counts the edits left in the iterator. *)
Fixpoint writeEditsAt (cnt : nat) (it : editIter) (offset : Z)
    (origLine : string) (deleted : bool) (out : string)
  : editIter * bool * string :=
  match cnt with
  | O => (it, deleted, out)
  | S cnt' =>
      match iterEdit it with
      | Some e =>
          if eOffset e =? offset then
            if 0 <? eLength e then
              writeEditsAt cnt' (moveToNextEdit it) offset origLine true
                (String.append out (String.append "-" origLine))
            else
              writeEditsAt cnt' (moveToNextEdit it) offset origLine deleted
                (String.append out (String.append "+" (replacement e)))
          else (it, deleted, out)
      | None => (it, deleted, out)
      end
  end.

(** The loop [for i, line := range origLines] of the writer. *)
Fixpoint writeLines (origLines : list string) (it : editIter) (offset : Z)
    (out : string) : string :=
  match origLines with
  | [] => out
  | ln :: rest =>
      let '(it', out') :=
        match iterEdit it with
        | None => (it, String.append out (String.append " " ln))
        | Some e =>
            if offset <? eOffset e then
              (it, String.append out (String.append " " ln))
            else
              let '(it', deleted, out') :=
                writeEditsAt (length (iterEdits it) - nextIndex it)%nat
                             it offset ln false out in
              if deleted then (it', out')
              else (it', String.append out' (String.append " " ln))
        end in
      writeLines rest it' (offset + strlen ln) out'
  end.

(** [writeUnifiedDiffHunk]: [None] is the error of [ApplyTo]; otherwise
    the adjustment of the line offset and the text written. *)
Definition writeUnifiedDiffHunk (h : hunk) (outputLineOffset : Z)
  : result (option (Z * string)) :=
  let es : editSet := {[ EmptyString := edits h ]} in
  let hunk := hunkText h in
  match ApplyToString es EmptyString hunk with
  | None => Ret None
  | Some newText =>
      let origLines := SplitAfter hunk in
      let newLines := SplitAfter newText in
      let header :=
        String.append "@@ -" (String.append (fmt_d (startLine h))
        (String.append "," (String.append (fmt_d (len origLines))
        (String.append " +"
        (String.append (fmt_d (startLine h + outputLineOffset))
        (String.append "," (String.append (fmt_d (len newLines))
        (String.append " @@" nl)))))))) in
      diff <- Diff EmptyString origLines newLines ;;
      let sesIter := newEditIter diff EmptyString in
      Ret (Some (len newLines - len origLines,
                 writeLines origLines sesIter 0 header))
  end.

(** The loop of [Patch.Write] over the hunks: the text written so far and
    whether an error stopped it. *)
Fixpoint writeHunks (hs : list hunk) (lineOffset : Z) (out : string)
  : result (string * bool) :=
  match hs with
  | [] => Ret (out, false)
  | h :: hs' =>
      r <- writeUnifiedDiffHunk h lineOffset ;;
      match r with
      | None => Ret (out, true)
      | Some (adjust, text) =>
          writeHunks hs' (lineOffset + adjust) (String.append out text)
      end
  end.

(** [Patch.Write]: the text written and whether an error is returned. *)
Definition Patch_Write (p : Patch) : result (string * bool) :=
  writeHunks (hunks p) 0
    (String.append "--- " (String.append (filename p)
    (String.append nl (String.append "+++ "
    (String.append (filename p) nl))))).

(** [Patch.String] *)
Definition Patch_String (p : Patch) : result string :=
  r <- Patch_Write p ;; Ret (fst r).

(** ** The concrete scenario of the specification *)

Definition foo : string := String.append "foo" nl.
Definition bar : string := String.append "bar" nl.
Definition baz : string := String.append "baz" nl.
Definition qux : string := String.append "qux" nl.

(** The lines of a text, joined. *)
Definition text (lines : list string) : string := Join lines.

(** The unified diff the specification gives for the scenario. *)
Definition scenario_expected : string :=
  text [String.append "--- f" nl; String.append "+++ f" nl;
        String.append "@@ -1,3 +1,3 @@" nl;
        String.append " foo" nl; String.append "-bar" nl;
        String.append "+qux" nl; String.append " baz" nl].

(** The unified diff [Patch.Write] produces for it. *)
Definition scenario_written : string :=
  text [String.append "--- f" nl; String.append "+++ f" nl;
        String.append "@@ -1,4 +1,4 @@" nl;
        String.append " foo" nl; String.append "-bar" nl;
        String.append "+qux" nl; String.append " baz" nl; " "%string].

(** ** The claims of the specification that the code does not meet, as
    the specification states them *)

(** The byte offset of the unit of index [i] in [join(ss)]. *)
Definition unitOffset (i : nat) (ss : list string) : Z :=
  strlen (Join (take i ss)).

(** Ascending offsets. *)
Definition ascending (l : list edit) : Prop :=
  ∀ (i j : nat) (e1 e2 : edit),
    (i < j)%nat → l !! i = Some e1 → l !! j = Some e2 → eOffset e1 ≤ eOffset e2.

(** An insertion of one whole unit of [b]. *)
Definition insertsUnit (b : list string) (e : edit) : Prop :=
  eLength e = 0 ∧ replacement e ∈ b.

(** A deletion of the size of one unit of [a]. *)
Definition deletesUnit (a : list string) (e : edit) : Prop :=
  replacement e = EmptyString ∧ ∃ s, s ∈ a ∧ eLength e = strlen s.

(** The offset of the edit is that of the start of a unit of [a]. *)
Definition atUnitStart (a : list string) (e : edit) : Prop :=
  ∃ i : nat, (i < length a)%nat ∧ eOffset e = unitOffset i a.

(** An edit that [constructEditSet] makes: the insertion of a unit of [b]
    at a unit boundary of [a] (the end of [join(a)] included), or the
    deletion of one unit of [a], from its start and of its size. *)
Definition unitEdit (a b : list string) (e : edit) : Prop :=
  (eLength e = 0 ∧ replacement e ∈ b
   ∧ ∃ i : nat, (i ≤ length a)%nat ∧ eOffset e = unitOffset i a)
  ∨ (replacement e = EmptyString
     ∧ ∃ (i : nat) (s : string),
         a !! i = Some s ∧ eOffset e = unitOffset i a ∧ eLength e = strlen s).

(** C2 as stated: for every pair of sequences. *)
Definition edit_count_is_ses_length : Prop :=
  ∀ (f : string) (a b : list string) (es : editSet),
    Diff f a b = Ret es →
    Z.of_nat (length (editsOf es f)) = len a + len b - 2 * Z.of_nat (lcs a b).

(** C5 as stated: the unsupported operations return an error value. *)
Definition unsupported_return_errors : Prop :=
  ∀ (p : Patch) (key s : string),
    (∃ out e, Patch_ApplyTo p key s = Ret (out, Some e))
    ∧ (∃ out e, Patch_ApplyToFile p key = Ret (out, Some e))
    ∧ (∃ out e, Patch_ApplyToString p key s = Ret (out, Some e)).

(** C8 as stated: for every pair of sequences. *)
Definition edits_are_unit_edits : Prop :=
  ∀ (f : string) (a b : list string) (es : editSet),
    Diff f a b = Ret es →
    Forall (fun e => (insertsUnit b e ∨ deletesUnit a e) ∧ atUnitStart a e)
           (editsOf es f)
    ∧ ascending (editsOf es f).

(** ** Invariants of the hunk assembly *)

(** The edits of a hunk are the edits [g] of the file, rebased. *)
Definition rebased (h : hunk) (g : list edit) : Prop :=
  edits h = map (fun x => RelativeToOffset x (startOffset h)) g.

(** What the loop of [createPatch] maintains, for the key [key] and the
    edits [E] of that key: the closed hunks and the open one hold, rebased
    and in order, the edits the iterator has passed; a hunk is open exactly
    when the state is not [HUNK_NOT_STARTED]. *)
Definition cpInv (key : string) (E : list edit) (st : cpState) : Prop :=
  filename (cpResult st) = key
  ∧ iterEdits (cpIter st) = E
  ∧ ∃ (groups : list (list edit)) (g : list edit),
      Forall2 rebased (hunks (cpResult st)) groups
      ∧ concat groups ++ g = take (nextIndex (cpIter st)) E
      ∧ match curState st, cpHunk st with
        | HUNK_NOT_STARTED, None => g = []
        | HUNK_NOT_STARTED, Some _ => False
        | _, Some h => rebased h g
        | _, None => False
        end.

(** ** The edit graph of two sequences *)

(** [gridreach a b i j x y]: the point [(x, y)] of the edit graph of [a]
    and [b] is reached from [(0, 0)] by a path of [i] deletions (moves to
    the right), [j] insertions (moves down) and any number of diagonal
    moves, each along a unit that [a] and [b] share at that point. *)
Inductive gridreach (a b : list string) : nat → nat → nat → nat → Prop :=
| gr_start : gridreach a b 0 0 0 0
| gr_diag (i j x y : nat) (u : string) :
    gridreach a b i j x y → a !! x = Some u → b !! y = Some u →
    gridreach a b i j (S x) (S y)
| gr_del (i j x y : nat) :
    gridreach a b i j x y → (x < length a)%nat →
    gridreach a b (S i) j (S x) y
| gr_ins (i j x y : nat) :
    gridreach a b i j x y → (y < length b)%nat →
    gridreach a b i (S j) x (S y).

(** The point [X] of the diagonal [i - j] is reached with [i] deletions
    and [j] insertions, along a common subsequence [t] of the prefixes
    passed ([x] may lie to the right of the grid, [y] below it). *)
Definition SoundAt (a b : list string) (i j : nat) (X : Z) : Prop :=
  ∃ t : list string,
    X = Z.of_nat (i + length t)
    ∧ t `sublist_of` take (i + length t) a
    ∧ t `sublist_of` take (j + length t) b.

(** No path of [i] deletions and [j] insertions goes further than [X]. *)
Definition CompleteAt (a b : list string) (i j : nat) (X : Z) : Prop :=
  ∀ x y : nat, gridreach a b i j x y → Z.of_nat x ≤ X.

(** The value [s] stored for the diagonal of index [i] (the diagonal
    [k = 2i - d]) at the iteration [d] is the furthest reaching point. *)
Definition Good (a b : list string) (d i : nat) (s : Z) : Prop :=
  SoundAt a b i (d - i) (abs s) ∧ CompleteAt a b i (d - i) (abs s).

(** The entry of the frontier [v] for the diagonal of index [i] at the
    iteration [d], with [offset = N]. *)
Definition entry (v : list Z) (N d i : nat) : Z :=
  v !!! (N + 2 * i - d)%nat.

(** The end test [x >= n && y >= m] on the entry stored at [idx]. *)
Definition atEnd (a b : list string) (N : nat) (idx : nat) (s : Z) : Prop :=
  len a ≤ abs s ∧ len b ≤ abs s - (Z.of_nat idx - Z.of_nat N).

(** No entry of the frontier passes the end test. *)
Definition NoEnd (a b : list string) (v : list Z) : Prop :=
  ∀ (idx : nat) (s : Z),
    v !! idx = Some s → ¬ atEnd a b (length a + length b) idx s.

(** What holds of the frontier [v] inside the iteration [d], before the
    diagonal of index [i] is processed. *)
Definition KInv (a b : list string) (d i : nat) (v : list Z) : Prop :=
  let N := (length a + length b)%nat in
  length v = (2 * N)%nat
  ∧ (∀ j : nat, (j < i)%nat → Good a b d j (entry v N d j))
  ∧ (∀ j : nat, (j < d)%nat → Good a b (d - 1) j (entry v N (d - 1) j))
  ∧ (d = 0%nat → v !! S N = Some 0)
  ∧ NoEnd a b v.

(** ** Lines of a text *)

(** The string holds no newline. *)
Fixpoint noNewline (s : string) : bool :=
  match s with
  | EmptyString => true
  | String c s' => negb (Ascii.eqb c newline) && noNewline s'
  end.

(** A whole line: some text without a newline, and the newline that
    closes it. *)
Fixpoint fullLine (l : string) : bool :=
  match l with
  | EmptyString => false
  | String c l' =>
      if Ascii.eqb c newline then String.eqb l' EmptyString else fullLine l'
  end.

(** The body of the loop of [createPatch] run over the lines [seg], each
    read without error. *)
Fixpoint cpRun (seg : list string) (st : cpState) : result cpState :=
  match seg with
  | [] => Ret st
  | p :: seg' =>
      st' <- cpBody (setReader st (readLine (cpReader st) p false)) ;;
      cpRun seg' st'
  end.

(** The hunk [h] is the run of [numLines h] whole pieces of [L] that
    starts with the piece of index [i]: its start line, its start offset
    and its text are those of that run. *)
Definition lineRun (L : list string) (h : hunk) (i : nat) : Prop :=
  startLine h = Z.of_nat i + 1
  ∧ startOffset h = strlen (Join (take i L))
  ∧ 1 ≤ numLines h
  ∧ (i + Z.to_nat (numLines h) ≤ length L)%nat
  ∧ hunkText h = Join (take (Z.to_nat (numLines h)) (drop i L)).

(** The reader has read the first [j] pieces of [L], the last of them
    being its current line, and keeps the (at most three) pieces before
    that one as leading context. *)
Definition readerAt (L : list string) (j : nat) (rd : lineRdr) : Prop :=
  lineNum rd = Z.of_nat j
  ∧ match j with
    | O => line rd = EmptyString
    | S j' => L !! j' = Some (line rd)
    end
  ∧ lineOffset rd = strlen (Join (take (j - 1) L))
  ∧ leadingCtxLines rd
    = drop (j - 1 - Nat.min 3 (j - 1)) (take (j - 1) L).

(** What the loop of [createPatch] maintains once the piece of index
    [j - 1] of [L] has been processed: the closed hunks are runs of lines
    of [L], and the open hunk, if any, is the run that ends with the
    current line. *)
Definition cpLines (L : list string) (j : nat) (st : cpState) : Prop :=
  readerAt L j (cpReader st)
  ∧ Forall (fun h => ∃ i, lineRun L h i) (hunks (cpResult st))
  ∧ match curState st, cpHunk st with
    | HUNK_NOT_STARTED, None => True
    | HUNK_NOT_STARTED, Some _ => False
    | _, Some h => ∃ i, lineRun L h i ∧ (i + Z.to_nat (numLines h))%nat = j
    | _, None => False
    end.

(** The reader after the lines [seg], each read without error. *)
Definition readLines (rd : lineRdr) (seg : list string) : lineRdr :=
  foldl (fun r p => readLine r p false) rd seg.

(** The edit [e] lies inside the line [l] that starts at the offset [o]:
    it starts in the line and ends before the end of the line. *)
Definition insideLine (o : Z) (l : string) (e : edit) : Prop :=
  o ≤ eOffset e ∧ 0 ≤ eLength e ∧ OffsetPastEnd e < o + strlen l.

(** No edit is pending before the offset [o]: the iterator is exhausted
    or its edit starts at [o] or later. *)
Definition nothingBefore (o : Z) (it : editIter) : Prop :=
  match iterEdit it with
  | None => True
  | Some e => o ≤ eOffset e
  end.

(** A text of seven lines and two edits: an insertion at the very start
    of the first line and a replacement inside the seventh. *)
Definition sample_gap : list string :=
  replicate 5 (String.append "x" nl).
Definition sample_first : string := String.append "ab" nl.
Definition sample_last : string := String.append "cd" nl.
Definition sample_insert : edit := mkEdit (mkOL 0 0) "Z".
Definition sample_replace : edit := mkEdit (mkOL 13 1) "Y".
Definition sample_edits : editSet :=
  {[ "f"%string := [sample_insert; sample_replace] ]}.

(** ** The history of the search *)

(** The run along a diagonal from [(x0, y0)] ends at [x]: the units
    passed are the same in [a] and [b], and the run cannot go on. *)
Definition Ran (a b : list string) (x0 y0 x : nat) : Prop :=
  ∃ us : list string,
    x = (x0 + length us)%nat
    ∧ take (x0 + length us) a = take x0 a ++ us
    ∧ take (y0 + length us) b = take y0 b ++ us
    ∧ (∀ u, a !! (x0 + length us)%nat = Some u →
            b !! (y0 + length us)%nat = Some u → False).

(** [Trace a b N d i rvs]: the reversed history [rvs] (its head is the
    frontier of the iteration [d]) records how the entry of the diagonal
    of index [i] was reached: at the iteration [0] by the run from
    [(0, 0)]; later from the entry of a neighbouring diagonal in the
    frontier before, by an insertion (the entry is stored as [x]) or by a
    deletion (the entry is stored as [-x]), and the run that follows. *)
Inductive Trace (a b : list string) (N : nat)
  : nat → nat → list (list Z) → Prop :=
| trace_start (v : list Z) (x : nat) :
    length v = (2 * N)%nat →
    entry v N 0 0 = Z.of_nat x →
    Ran a b 0 0 x →
    Trace a b N 0 0 [v]
| trace_ins (d i : nat) (v vprev : list Z) (rest : list (list Z))
    (x0 x : nat) :
    length v = (2 * N)%nat →
    Trace a b N d i (vprev :: rest) →
    (i ≤ d)%nat →
    Z.of_nat x0 = abs (entry vprev N d i) →
    (i ≤ x0)%nat →
    Ran a b x0 (x0 + (S d - i) - i) x →
    entry v N (S d) i = Z.of_nat x →
    Trace a b N (S d) i (v :: vprev :: rest)
| trace_del (d i : nat) (v vprev : list Z) (rest : list (list Z))
    (x0 x : nat) :
    length v = (2 * N)%nat →
    Trace a b N d i (vprev :: rest) →
    (i ≤ d)%nat →
    Z.of_nat x0 = abs (entry vprev N d i) + 1 →
    (S i ≤ x0)%nat →
    Ran a b x0 (x0 + (d - i) - S i) x →
    entry v N (S d) (S i) = - Z.of_nat x →
    Trace a b N (S d) (S i) (v :: vprev :: rest).

(** The reversed history [rprev] of the iterations before [d] traces
    every entry that the iteration [d] reads in the frontier [v]. *)
Definition PrevTraces (a b : list string) (N d : nat) (v : list Z)
    (rprev : list (list Z)) : Prop :=
  match d with
  | O => rprev = []
  | S d' =>
      ∃ (vprev : list Z) (rest : list (list Z)),
        rprev = vprev :: rest
        ∧ (∀ j : nat, (j ≤ d')%nat →
             Trace a b N d' j rprev ∧ entry vprev N d' j = entry v N d' j)
  end.

(** ** Edit scripts *)

(** One step of an edit script over units: a unit of [a] that is kept,
    a unit of [a] that is deleted, a unit of [b] that is inserted. *)
Inductive scriptOp : Type :=
| Keep (u : string)
| Del (u : string)
| Ins (u : string).

(** The units a script reads, those of the old sequence. *)
Fixpoint oldUnits (sc : list scriptOp) : list string :=
  match sc with
  | [] => []
  | Keep u :: sc' => u :: oldUnits sc'
  | Del u :: sc' => u :: oldUnits sc'
  | Ins _ :: sc' => oldUnits sc'
  end.

(** The units a script produces, those of the new sequence. *)
Fixpoint newUnits (sc : list scriptOp) : list string :=
  match sc with
  | [] => []
  | Keep u :: sc' => u :: newUnits sc'
  | Del _ :: sc' => newUnits sc'
  | Ins u :: sc' => u :: newUnits sc'
  end.

(** The units a script keeps. *)
Fixpoint keptUnits (sc : list scriptOp) : list string :=
  match sc with
  | [] => []
  | Keep u :: sc' => u :: keptUnits sc'
  | Del _ :: sc' => keptUnits sc'
  | Ins _ :: sc' => keptUnits sc'
  end.

(** The edits that stand for a script whose first step is at the byte
    offset [o] of the old text: a deletion covers the deleted unit, an
    insertion is an edit of length 0 before the next unit read. *)
Fixpoint scriptEdits (o : Z) (sc : list scriptOp) : list edit :=
  match sc with
  | [] => []
  | Keep u :: sc' => scriptEdits (o + strlen u) sc'
  | Del u :: sc' =>
      mkEdit (mkOL o (strlen u)) EmptyString :: scriptEdits (o + strlen u) sc'
  | Ins u :: sc' => mkEdit (mkOL o 0) u :: scriptEdits o sc'
  end.

(** The body of a unified diff for a script: a kept line after a space, a
    deleted line after [-], an inserted line after [+]. *)
Fixpoint render (sc : list scriptOp) : string :=
  match sc with
  | [] => EmptyString
  | Keep u :: sc' => String.append " " (String.append u (render sc'))
  | Del u :: sc' => String.append "-" (String.append u (render sc'))
  | Ins u :: sc' => String.append "+" (String.append u (render sc'))
  end.

(** A script the writer can follow by offsets: no deleted unit is empty,
    no kept unit but the last is empty, and a unit is read after every
    insertion. *)
Fixpoint followable (sc : list scriptOp) : Prop :=
  match sc with
  | [] => True
  | Keep u :: sc' => (sc' ≠ [] → 0 < strlen u) ∧ followable sc'
  | Del u :: sc' => 0 < strlen u ∧ followable sc'
  | Ins _ :: sc' => oldUnits sc' ≠ [] ∧ followable sc'
  end.

(** The header line of a hunk, [@@ -%d,%d +%d,%d @@]. *)
Definition hunkHeader (start oldN newStart newN : Z) : string :=
  String.append "@@ -" (String.append (fmt_d start)
  (String.append "," (String.append (fmt_d oldN)
  (String.append " +"
  (String.append (fmt_d newStart)
  (String.append "," (String.append (fmt_d newN)
  (String.append " @@" nl)))))))).

(** A hunk of three lines whose edit replaces the word of the second. *)
Definition sample_hunk : hunk :=
  mkHunk 0 1 3 (Join [foo; bar; baz]) [mkEdit (mkOL 4 3) "qux"].

(** * Properties *)

(** ** Evaluations at concrete inputs *)

(** C1 (round trip), at the input [a = ["x"]], [b = ["y"; "z"; "x"]]:
    [Diff] returns a deletion of ["x"] and an insertion of ["z"] only, so
    applying its edit set to [join(a)] does not give [join(b)]; the first
    insertion, stored as the frontier value [0], is read back by
    [constructEditSet] as a deletion. *)
Theorem Diff_roundtrip_fails :
  ∃ es : editSet,
    Diff "f" ["x"%string] ["y"; "z"; "x"]%string = Ret es
    ∧ editsOf es "f" = [mkEdit (mkOL 0 1) EmptyString; mkEdit (mkOL 0 0) "z"]
    ∧ ApplyToString es "f" (Join ["x"%string])
      ≠ Some (Join ["y"; "z"; "x"]%string).
Proof.
  eexists. split; [vm_compute; reflexivity|].
  split; [vm_compute; reflexivity|].
  vm_compute. discriminate.
Qed.

(** C3 (concrete scenario): [Diff] yields one deletion of ["bar\n"] and one
    insertion of ["qux\n"], as the claim says; the patch rendered against
    the name [f] has the header [@@ -1,4 +1,4 @@] and ends with a lone
    space, because [strings.SplitAfter] leaves an empty piece after the last
    newline; it is not the text of the claim. *)
Theorem scenario_rendering :
  ∃ (es : editSet) (p : Patch),
    Diff "f" [foo; bar; baz] [foo; qux; baz] = Ret es
    ∧ editsOf es "f" = [mkEdit (mkOL 4 4) EmptyString; mkEdit (mkOL 8 0) qux]
    ∧ createPatch es "f" (text [foo; bar; baz]) = Ret p
    ∧ Patch_String p = Ret scenario_written
    ∧ scenario_written ≠ scenario_expected.
Proof.
  eexists. eexists.
  split; [vm_compute; reflexivity|].
  split; [vm_compute; reflexivity|].
  split; [vm_compute; reflexivity|].
  split; [vm_compute; reflexivity|].
  vm_compute. discriminate.
Qed.

(** ** Patches are read-only and cannot be applied *)

(** C4 (read-only enforcement): on every patch and with every argument,
    [Add] returns the read-only error and leaves the patch as it was: the
    same hunks and the same rendered text. *)
Theorem Patch_Add_read_only (p : Patch) (key : string) (pos : OffsetLength)
    (repl : string) :
  snd (Patch_Add p key pos repl) = Some read_only
  ∧ fst (Patch_Add p key pos repl) = p
  ∧ hunks (fst (Patch_Add p key pos repl)) = hunks p
  ∧ Patch_String (fst (Patch_Add p key pos repl)) = Patch_String p.
Proof. unfold Patch_Add; simpl. auto. Qed.

(** The claim fails on every patch; the empty one is enough. *)
Lemma unsupported_return_errors_fails : ¬ unsupported_return_errors.
Proof.
  intros H.
  destruct (H (mkPatch EmptyString []) EmptyString EmptyString)
    as [(out & e & Hret) _].
  discriminate Hret.
Qed.

(** C5 (unsupported operations), as the code has it: on every patch
    [ApplyTo], [ApplyToFile] and [ApplyToString] panic with the message
    "Not implemented"; none of them returns, with or without an error. *)
Theorem Patch_apply_panics (p : Patch) (key s : string) :
  Patch_ApplyTo p key s = Panics not_implemented
  ∧ Patch_ApplyToFile p key = Panics not_implemented
  ∧ Patch_ApplyToString p key s = Panics not_implemented.
Proof. repeat split. Qed.

(** ** Degenerate inputs of [Diff] *)

Lemma editsOf_empty (f : string) : editsOf ∅ f = [].
Proof. unfold editsOf. rewrite lookup_empty. reflexivity. Qed.

Lemma editsOf_Add (es : editSet) (f : string) (pos : OffsetLength)
    (repl : string) :
  editsOf (Add es f pos repl) f = insertEdit (mkEdit pos repl) (editsOf es f).
Proof. unfold Add. unfold editsOf at 1. rewrite lookup_insert_eq. reflexivity. Qed.

(** C7 (degenerate inputs): with both sequences empty [Diff] returns the
    empty edit set; with only [a] empty, one insertion at offset 0 of
    length 0 whose replacement is [join(b)]; with only [b] empty, one
    deletion at offset 0 whose length is the size of [join(a)] and whose
    replacement is empty. *)
Theorem Diff_degenerate (f : string) :
  Diff f [] [] = Ret ∅
  ∧ (∀ (y : string) (b : list string),
       Diff f [] (y :: b)
       = Ret {[ f := [mkEdit (mkOL 0 0) (Join (y :: b))] ]})
  ∧ (∀ (x : string) (a : list string),
       Diff f (x :: a) []
       = Ret {[ f := [mkEdit (mkOL 0 (strlen (Join (x :: a)))) EmptyString] ]}).
Proof.
  split; [reflexivity|].
  split; intros u l; unfold Diff, Add, NewEditSet; simpl;
    rewrite editsOf_empty, insert_empty; reflexivity.
Qed.

(** ** Strings *)

Lemma append_cons (c : ascii) (s t : string) :
  String.append (String c s) t = String c (String.append s t).
Proof. reflexivity. Qed.

Lemma append_nil_l (s : string) : String.append EmptyString s = s.
Proof. reflexivity. Qed.

Lemma append_nil_r (s : string) : String.append s EmptyString = s.
Proof.
  induction s as [|c s IH]; [reflexivity|]. rewrite append_cons, IH.
  reflexivity.
Qed.

Lemma append_assoc (s1 s2 s3 : string) :
  String.append (String.append s1 s2) s3
  = String.append s1 (String.append s2 s3).
Proof.
  induction s1 as [|c s1 IH]; [reflexivity|]. rewrite !append_cons, IH.
  reflexivity.
Qed.

Lemma strlen_append (s1 s2 : string) :
  strlen (String.append s1 s2) = strlen s1 + strlen s2.
Proof.
  unfold strlen. induction s1 as [|c s1 IH].
  - rewrite append_nil_l. simpl. lia.
  - rewrite append_cons. simpl String.length. lia.
Qed.

Lemma strlen_nonneg (s : string) : 0 ≤ strlen s.
Proof. unfold strlen. lia. Qed.

Lemma Join_app (l1 l2 : list string) :
  Join (l1 ++ l2) = String.append (Join l1) (Join l2).
Proof.
  induction l1 as [|s l1 IH]; [reflexivity|].
  simpl app. cbn [Join]. rewrite IH, append_assoc. reflexivity.
Qed.

Lemma unitOffset_0 (ss : list string) : unitOffset 0 ss = 0.
Proof. unfold unitOffset. rewrite take_0. reflexivity. Qed.

Lemma unitOffset_S (ss : list string) (i : nat) (s : string) :
  ss !! i = Some s → unitOffset (S i) ss = unitOffset i ss + strlen s.
Proof.
  intros H. unfold unitOffset. rewrite (take_S_r _ _ _ H), Join_app.
  rewrite strlen_append. cbn [Join]. rewrite append_nil_r. reflexivity.
Qed.

Lemma unitOffset_mono (ss : list string) (i j : nat) :
  (i ≤ j)%nat → unitOffset i ss ≤ unitOffset j ss.
Proof.
  intros H. unfold unitOffset.
  rewrite <- (take_drop i (take j ss)), take_take.
  replace (i `min` j)%nat with i by lia.
  rewrite Join_app, strlen_append.
  pose proof (strlen_nonneg (Join (drop i (take j ss)))). lia.
Qed.

Lemma Join_singleton (s : string) : Join [s] = s.
Proof. cbn [Join]. apply append_nil_r. Qed.

Lemma Join_take_S (L : list string) (j : nat) (p : string) :
  L !! j = Some p →
  Join (take (S j) L) = String.append (Join (take j L)) p.
Proof.
  intros H. rewrite (take_S_r _ _ _ H), Join_app, Join_singleton.
  reflexivity.
Qed.

(** ** The edits of a patch *)

Lemma foldl_app_edits (hs : list hunk) (acc : list edit) :
  foldl (fun acc h => acc ++ edits h) acc hs = acc ++ concat (map edits hs).
Proof.
  revert acc. induction hs as [|h hs IH]; intros acc; simpl.
  - rewrite app_nil_r. reflexivity.
  - rewrite IH, <- app_assoc. reflexivity.
Qed.

Section Rebase.
Variable key : string.
Variable E : list edit.

Local Abbreviation cpInv := (cpInv key E).

Lemma addAllEdits_loop_rebased (cnt : nat) :
  ∀ (h : hunk) (rd : lineRdr) (it : editIter) (last : option edit)
    (pre g : list edit),
    iterEdits it = E →
    rebased h g →
    pre ++ g = take (nextIndex it) E →
    ∃ h' it' last' g',
      addAllEdits_loop cnt h rd it last = (h', it', last')
      ∧ iterEdits it' = E
      ∧ rebased h' g'
      ∧ pre ++ g' = take (nextIndex it') E.
Proof.
  induction cnt as [|cnt IH]; intros h rd it last pre g HE Hr Ht;
    cbn [addAllEdits_loop].
  - eauto 10.
  - destruct (iterEdit it) as [e|] eqn:He; [|eauto 10].
    destruct (currentLineIsAffectedBy rd (Some e)); [|eauto 10].
    destruct (nextLineIsAffectedBy rd (Some e)); [eauto 10|].
    apply (IH _ _ _ _ pre (g ++ [e])).
    + exact HE.
    + unfold rebased, addEdit in *; simpl. rewrite Hr, map_app. reflexivity.
    + simpl. unfold iterEdit in He. rewrite HE in He.
      rewrite (take_S_r _ _ _ He), app_assoc, Ht. reflexivity.
Qed.

Lemma attachEdits_inv (st : cpState) (h : hunk) (groups : list (list edit))
    (g : list edit) :
  filename (cpResult st) = key →
  iterEdits (cpIter st) = E →
  Forall2 rebased (hunks (cpResult st)) groups →
  concat groups ++ g = take (nextIndex (cpIter st)) E →
  rebased h g →
  cpInv (attachEdits st h).
Proof.
  intros Hf HE HF Ht Hr. unfold attachEdits, addAllEditsOnCurLine.
  destruct (addAllEdits_loop_rebased
              (length (iterEdits (cpIter st)) - nextIndex (cpIter st))%nat
              h (cpReader st) (cpIter st) (iterEdit (cpIter st))
              (concat groups) g HE Hr Ht)
    as (h' & it' & last' & g' & Heq & HE' & Hr' & Ht').
  rewrite Heq.
  destruct (nextLineIsAffectedBy (cpReader st) last');
    (split; [exact Hf|]; split; [exact HE'|];
     exists groups, g'; simpl; auto).
Qed.

Lemma rebased_addLine (h : hunk) (g : list edit) (ln : string) :
  rebased h g → rebased (addLine h ln) g.
Proof. unfold rebased, addLine; simpl. auto. Qed.

Lemma rebased_startHunk (rd : lineRdr) : rebased (startHunk rd) [].
Proof.
  unfold rebased, startHunk; simpl.
  assert (H : ∀ l h0, edits h0 = [] →
    edits (foldl (fun h ln => mkHunk (startOffset h - strlen ln)
               (startLine h - 1) (numLines h + 1)
               (String.append (hunkText h) ln) (edits h)) h0 l) = []).
  { induction l as [|x l IH]; intros h0 H0; simpl; [exact H0|].
    apply IH. exact H0. }
  apply H. reflexivity.
Qed.

Lemma cpBody_inv (st : cpState) :
  cpInv st → ∃ st', cpBody st = Ret st' ∧ cpInv st'.
Proof.
  intros (Hf & HE & groups & g & HF & Ht & Hs). unfold cpBody.
  destruct (curState st) eqn:Hc, (cpHunk st) as [h|] eqn:Hh;
    try contradiction.
  - destruct (currentLineIsAffectedBy _ _).
    + eexists; split; [reflexivity|]. subst g.
      eapply attachEdits_inv; eauto using rebased_startHunk.
    + eexists; split; [reflexivity|].
      split; [exact Hf|]. split; [exact HE|].
      exists groups, g. simpl. auto.
  - eexists; split; [reflexivity|].
    eapply attachEdits_inv; eauto using rebased_addLine.
  - destruct (currentLineIsAffectedBy _ _).
    + eexists; split; [reflexivity|].
      eapply attachEdits_inv; eauto using rebased_addLine.
    + destruct (_ <? _).
      * eexists; split; [reflexivity|].
        split; [exact Hf|]. split; [exact HE|].
        exists groups, g. simpl. split; [exact HF|]. split; [exact Ht|].
        apply rebased_addLine, Hs.
      * eexists; split; [reflexivity|].
        split; [exact Hf|]. split; [exact HE|].
        exists (groups ++ [g]), []. simpl.
        split; [apply Forall2_app; [exact HF|]; constructor;
                [apply rebased_addLine, Hs|constructor]|].
        split; [|reflexivity].
        rewrite concat_app; simpl. rewrite !app_nil_r. exact Ht.
Qed.

Lemma cpInv_setReader (st : cpState) (rd : lineRdr) :
  cpInv st → cpInv (setReader st rd).
Proof. intros H. exact H. Qed.

Lemma cpLoop_inv (input : list string) :
  ∀ st, cpInv st → ∃ st', cpLoop input st = Ret st' ∧ cpInv st'.
Proof.
  induction input as [|p rest IH]; intros st Hinv; simpl.
  - eexists; split; [reflexivity|]. apply cpInv_setReader, Hinv.
  - destruct rest as [|q rest].
    + eexists; split; [reflexivity|]. apply cpInv_setReader, Hinv.
    + destruct (cpBody_inv (setReader st (readLine (cpReader st) p false)))
        as (st1 & Hb & Hinv1); [apply cpInv_setReader, Hinv|].
      rewrite Hb. simpl. apply IH, Hinv1.
Qed.

Lemma cpFlush_inv (st : cpState) :
  cpInv st →
  ∃ (p : Patch) (groups : list (list edit)),
    cpFlush st = Ret p
    ∧ filename p = key
    ∧ Forall2 rebased (hunks p) groups
    ∧ concat groups `prefix_of` E.
Proof.
  intros (Hf & HE & groups & g & HF & Ht & Hs). unfold cpFlush.
  destruct (curState st) eqn:Hc, (cpHunk st) as [h|] eqn:Hh;
    try contradiction.
  - exists (cpResult st), groups. subst g. rewrite app_nil_r in Ht.
    split; [reflexivity|]. split; [exact Hf|]. split; [exact HF|].
    rewrite Ht. apply prefix_take.
  - set (h1 := if String.eqb _ _ then h else _).
    assert (Hr1 : rebased h1 g).
    { subst h1. destruct (String.eqb _ _); [exact Hs|].
      apply rebased_addLine, Hs. }
    unfold addAllEditsOnCurLine.
    destruct (addAllEdits_loop_rebased
                (length (iterEdits (cpIter st)) - nextIndex (cpIter st))%nat
                h1 (cpReader st) (cpIter st) (iterEdit (cpIter st))
                (concat groups) g HE Hr1 Ht)
      as (h' & it' & last' & g' & Heq & HE' & Hr' & Ht').
    rewrite Heq. exists (Patch_add (cpResult st) h'), (groups ++ [g']).
    split; [reflexivity|]. split; [exact Hf|].
    split; [simpl; apply Forall2_app; [exact HF|]; constructor;
            [exact Hr'|constructor]|].
    rewrite concat_app; simpl. rewrite app_nil_r, Ht'. apply prefix_take.
  - set (h1 := if String.eqb _ _ then h else _).
    assert (Hr1 : rebased h1 g).
    { subst h1. destruct (String.eqb _ _); [exact Hs|].
      apply rebased_addLine, Hs. }
    exists (Patch_add (cpResult st) h1), (groups ++ [g]).
    split; [reflexivity|]. split; [exact Hf|].
    split; [simpl; apply Forall2_app; [exact HF|]; constructor;
            [exact Hr1|constructor]|].
    rewrite concat_app; simpl. rewrite app_nil_r, Ht. apply prefix_take.
Qed.
End Rebase.

(** C10 (the edits of a patch): [createPatch] always returns a patch [p];
    [p.Edits()] maps the one key [filename] of the patch (the key given to
    [createPatch]) to the edit lists of its hunks, concatenated in hunk
    order; and the edits of each hunk are edits of the file, in their
    order, each with its offset counted from the start offset of its
    hunk. *)
Theorem Patch_Edits_rebased (e : editSet) (key input : string) :
  ∃ (p : Patch) (groups : list (list edit)),
    createPatch e key input = Ret p
    ∧ filename p = key
    ∧ Patch_Edits p = {[ key := concat (map edits (hunks p)) ]}
    ∧ Forall2 (fun h g =>
                 edits h = map (fun x => RelativeToOffset x (startOffset h)) g)
              (hunks p) groups
    ∧ concat groups `prefix_of` editsOf e key.
Proof.
  assert (HE : ∀ p : Patch, filename p = key →
            Patch_Edits p = {[ key := concat (map edits (hunks p)) ]}).
  { intros p Hp. unfold Patch_Edits. rewrite foldl_app_edits, Hp. reflexivity. }
  unfold createPatch. destruct (bool_decide _).
  - exists (mkPatch key []), [].
    split; [reflexivity|]. split; [reflexivity|]. split; [auto|].
    split; [constructor|]. apply (prefix_nil (editsOf e key)).
  - destruct (cpLoop_inv key (editsOf e key) (SplitAfter input)
                (mkCp (mkPatch key []) newLineRdr (newEditIter e key)
                      HUNK_NOT_STARTED None 0))
      as (st & Hl & Hinv).
    { split; [reflexivity|]. split; [reflexivity|].
      exists [], []. simpl. split; [constructor|]. auto. }
    rewrite Hl. simpl.
    destruct (cpFlush_inv key (editsOf e key) st Hinv)
      as (p & groups & Hp & Hf & HF & Hpre).
    exists p, groups. auto.
Qed.

(** ** The loop of [createPatch], line by line *)

Lemma cpLoop_run (seg rest : list string) :
  ∀ st, rest ≠ [] →
    cpLoop (seg ++ rest) st = (st' <- cpRun seg st ;; cpLoop rest st').
Proof.
  induction seg as [|p seg IH]; intros st Hrest; [reflexivity|].
  simpl app. cbn [cpLoop cpRun].
  destruct (seg ++ rest) as [|q l] eqn:E.
  { apply app_eq_nil in E as [_ ?]. contradiction. }
  destruct (cpBody _) as [st1|msg]; cbn [bind]; [|reflexivity].
  apply IH, Hrest.
Qed.

Lemma cpLoop_last (p : string) (st : cpState) :
  cpLoop [p] st = Ret (setReader st (readLine (cpReader st) p true)).
Proof. reflexivity. Qed.

Lemma cpRun_app (seg1 seg2 : list string) :
  ∀ st, cpRun (seg1 ++ seg2) st = (st' <- cpRun seg1 st ;; cpRun seg2 st').
Proof.
  induction seg1 as [|p seg1 IH]; intros st; [reflexivity|].
  simpl app. cbn [cpRun].
  destruct (cpBody _) as [st1|msg]; cbn [bind]; [apply IH|reflexivity].
Qed.

(** ** A file without edits *)

(** Without an edit for the key (the key is missing, or the edit set is
    empty) [createPatch] returns a patch without hunks. *)
Theorem createPatch_no_edits (e : editSet) (key input : string) :
  editsOf e key = [] → createPatch e key input = Ret (mkPatch key []).
Proof.
  intros HE. unfold createPatch. destruct (bool_decide _); [reflexivity|].
  unfold newEditIter. rewrite HE.
  assert (H : ∀ L rd, ∃ rd',
    cpLoop L (mkCp (mkPatch key []) rd (mkEditIter [] 0)
                   HUNK_NOT_STARTED None 0)
    = Ret (mkCp (mkPatch key []) rd' (mkEditIter [] 0)
                HUNK_NOT_STARTED None 0)).
  { induction L as [|p L IH]; intros rd; [eexists; reflexivity|].
    destruct L as [|q L]; [eexists; reflexivity|].
    cbn [cpLoop]. unfold cpBody, setReader. cbn. apply IH. }
  destruct (H (SplitAfter input) newLineRdr) as [rd' Hrd].
  rewrite Hrd. reflexivity.
Qed.

Lemma createPatch_no_edits_witness :
  createPatch ∅ "f" "some text" = Ret (mkPatch "f" []).
Proof. apply createPatch_no_edits. apply editsOf_empty. Defined.

(** ** Hunks are runs of lines *)

Lemma readerAt_new (L : list string) : readerAt L 0 newLineRdr.
Proof. repeat split. Qed.

Lemma drop_take_snoc (L : list string) (k j : nat) (p : string) :
  (k ≤ j)%nat → L !! j = Some p →
  drop k (take j L) ++ [p] = drop k (take (S j) L).
Proof.
  intros Hk Hp. pose proof (lookup_lt_Some _ _ _ Hp).
  rewrite (take_S_r _ _ _ Hp), drop_app_le; [reflexivity|].
  rewrite length_take. lia.
Qed.

Lemma readerAt_readLine (L : list string) (j : nat) (rd : lineRdr)
    (p : string) (eof : bool) :
  readerAt L j rd → L !! j = Some p → readerAt L (S j) (readLine rd p eof).
Proof.
  intros (Hn & Hl & Ho & Hc) Hp. pose proof (lookup_lt_Some _ _ _ Hp) as Hlt.
  unfold readLine. split; [simpl; lia|]. split; [exact Hp|].
  simpl lineOffset. simpl leadingCtxLines.
  replace (S j - 1)%nat with j by lia.
  destruct j as [|j'].
  - simpl in *. rewrite Hl, Ho, Hn, Hc. simpl. split; reflexivity.
  - replace (S j' - 1)%nat with j' in * by lia.
    split.
    + rewrite Ho, (Join_take_S _ _ _ Hl), strlen_append. reflexivity.
    + rewrite Hn. destruct (Z.ltb_spec 0 (Z.of_nat (S j'))); [|lia].
      pose proof (lookup_lt_Some _ _ _ Hl) as Hlt'.
      assert (Hlen : length (leadingCtxLines rd) = Nat.min 3 j').
      { rewrite Hc, length_drop, length_take. lia. }
      unfold len, num_ctx_lines. rewrite Hlen.
      destruct (Z.eqb_spec (Z.of_nat (3 `min` j')) 3) as [E|E].
      * rewrite Hc, drop_drop.
        replace (j' - 3 `min` j' + 1)%nat with (S j' - 3 `min` S j')%nat
          by lia.
        apply drop_take_snoc; [lia|exact Hl].
      * rewrite Hc.
        replace (j' - 3 `min` j')%nat with (S j' - 3 `min` S j')%nat by lia.
        apply drop_take_snoc; [lia|exact Hl].
Qed.

Lemma startHunk_fold (ctx : list string) :
  ∀ h0 : hunk,
    foldl (fun h ln =>
             mkHunk (startOffset h - strlen ln) (startLine h - 1)
                    (numLines h + 1) (String.append (hunkText h) ln) (edits h))
          h0 ctx
    = mkHunk (startOffset h0 - strlen (Join ctx)) (startLine h0 - len ctx)
             (numLines h0 + len ctx)
             (String.append (hunkText h0) (Join ctx)) (edits h0).
Proof.
  induction ctx as [|ln ctx IH]; intros h0.
  - cbn [foldl Join]. unfold len, strlen. simpl.
    rewrite append_nil_r, !Z.sub_0_r, Z.add_0_r. destruct h0; reflexivity.
  - cbn [foldl Join]. rewrite IH. cbn.
    rewrite strlen_append, append_assoc. unfold len. simpl length.
    f_equal; lia.
Qed.

Lemma lineRun_ext (L : list string) (h h' : hunk) (i : nat) :
  startOffset h' = startOffset h → startLine h' = startLine h →
  numLines h' = numLines h → hunkText h' = hunkText h →
  lineRun L h i → lineRun L h' i.
Proof. unfold lineRun. intros -> -> -> ->. auto. Qed.

Lemma startHunk_lineRun (L : list string) (j : nat) (rd : lineRdr) :
  readerAt L (S j) rd →
  lineRun L (startHunk rd) (j - Nat.min 3 j)
  ∧ (j - Nat.min 3 j + Z.to_nat (numLines (startHunk rd)))%nat = S j.
Proof.
  intros (Hn & Hl & Ho & Hc). replace (S j - 1)%nat with j in * by lia.
  pose proof (lookup_lt_Some _ _ _ Hl) as Hlt.
  assert (Hc3 : (Nat.min 3 j ≤ j)%nat) by lia.
  remember (Nat.min 3 j) as c eqn:Ec. clear Ec.
  set (i := (j - c)%nat) in *.
  assert (Hlen : length (leadingCtxLines rd) = c).
  { rewrite Hc, length_drop, length_take. lia. }
  unfold startHunk. rewrite startHunk_fold. cbn.
  unfold len. rewrite Hlen, Hn, Ho.
  assert (Hsplit : take j L = take i L ++ leadingCtxLines rd).
  { rewrite Hc. rewrite <- (take_drop i (take j L)) at 1.
    rewrite take_take. f_equal. f_equal. lia. }
  unfold lineRun. cbn.
  split; [split; [lia|]|lia].
  split; [rewrite Hsplit, Join_app, strlen_append; lia|].
  split; [lia|]. split; [lia|].
  replace (Z.to_nat (1 + Z.of_nat c)) with (S j - i)%nat by lia.
  rewrite take_drop_commute. replace (i + (S j - i))%nat with (S j) by lia.
  rewrite <- (drop_take_snoc L i j (line rd)) by (auto; lia).
  rewrite Join_app, Join_singleton, <- Hc. reflexivity.
Qed.

Lemma addLine_lineRun (L : list string) (h : hunk) (i j : nat) (p : string) :
  lineRun L h i → (i + Z.to_nat (numLines h))%nat = j → L !! j = Some p →
  lineRun L (addLine h p) i
  ∧ (i + Z.to_nat (numLines (addLine h p)))%nat = S j.
Proof.
  intros (Hsl & Hso & Hn & Hle & Ht) Hj Hp.
  pose proof (lookup_lt_Some _ _ _ Hp) as Hlt.
  unfold lineRun, addLine. cbn.
  split; [|lia].
  split; [exact Hsl|]. split; [exact Hso|]. split; [lia|]. split; [lia|].
  replace (Z.to_nat (numLines h + 1)) with (S (Z.to_nat (numLines h))) by lia.
  rewrite (Join_take_S _ _ p), Ht; [reflexivity|].
  rewrite lookup_drop, Hj. exact Hp.
Qed.

Lemma addAllEdits_loop_lines (cnt : nat) :
  ∀ (h : hunk) (rd : lineRdr) (it : editIter) (last : option edit),
    let h' := (addAllEdits_loop cnt h rd it last).1.1 in
    startOffset h' = startOffset h ∧ startLine h' = startLine h
    ∧ numLines h' = numLines h ∧ hunkText h' = hunkText h.
Proof.
  induction cnt as [|cnt IH]; intros h rd it last; cbn [addAllEdits_loop].
  - auto.
  - destruct (iterEdit it) as [e|]; [|simpl; auto].
    destruct (currentLineIsAffectedBy rd (Some e)); [|simpl; auto].
    destruct (nextLineIsAffectedBy rd (Some e)); [simpl; auto|].
    apply (IH (addEdit h e)).
Qed.

Lemma attachEdits_lines (L : list string) (j : nat) (st : cpState)
    (h : hunk) (i : nat) :
  readerAt L j (cpReader st) →
  Forall (fun h => ∃ i, lineRun L h i) (hunks (cpResult st)) →
  lineRun L h i → (i + Z.to_nat (numLines h))%nat = j →
  cpLines L j (attachEdits st h).
Proof.
  intros Hrd Hcl Hrun Hj. unfold attachEdits, addAllEditsOnCurLine.
  pose proof (addAllEdits_loop_lines
                (length (iterEdits (cpIter st)) - nextIndex (cpIter st))
                h (cpReader st) (cpIter st) (iterEdit (cpIter st)))
    as (H1 & H2 & H3 & H4).
  destruct (addAllEdits_loop _ _ _ _ _) as [[h' it'] last']. cbn in *.
  assert (Hrun' : lineRun L h' i) by (eapply lineRun_ext; eauto).
  destruct (nextLineIsAffectedBy _ _);
    (split; [exact Hrd|]; split; [exact Hcl|]; cbn;
     exists i; split; [exact Hrun'|]; rewrite H3; exact Hj).
Qed.

Lemma cpBody_lines (L : list string) (j : nat) (st : cpState) (p : string) :
  cpLines L j st → L !! j = Some p →
  ∃ st', cpBody (setReader st (readLine (cpReader st) p false)) = Ret st'
         ∧ cpLines L (S j) st'.
Proof.
  intros (Hrd & Hcl & Hop) Hp.
  pose proof (readerAt_readLine L j _ p false Hrd Hp) as Hrd'.
  unfold cpBody. cbn [setReader curState cpHunk cpReader cpIter cpResult
                      trailingCtxLines].
  destruct (curState st) eqn:Hc, (cpHunk st) as [h|] eqn:Hh;
    try contradiction.
  - destruct (currentLineIsAffectedBy _ _).
    + eexists. split; [reflexivity|].
      destruct (startHunk_lineRun L j _ Hrd') as [Hrun Hend].
      eapply attachEdits_lines; cbn; eauto.
    + eexists. split; [reflexivity|]. split; [exact Hrd'|].
      split; [exact Hcl|]. cbn. exact I.
  - destruct Hop as (i & Hrun & Hend).
    eexists. split; [reflexivity|].
    destruct (addLine_lineRun L h i j p Hrun Hend Hp) as [Hrun' Hend'].
    eapply attachEdits_lines; cbn; eauto.
  - destruct Hop as (i & Hrun & Hend).
    destruct (addLine_lineRun L h i j p Hrun Hend Hp) as [Hrun' Hend'].
    destruct (currentLineIsAffectedBy _ _).
    + eexists. split; [reflexivity|].
      eapply attachEdits_lines; cbn; eauto.
    + destruct (_ <? _).
      * eexists. split; [reflexivity|]. split; [exact Hrd'|].
        split; [exact Hcl|]. cbn. exists i. auto.
      * eexists. split; [reflexivity|]. split; [exact Hrd'|].
        split; [|cbn; exact I].
        cbn. apply Forall_app. split; [exact Hcl|].
        constructor; [exists i; exact Hrun'|constructor].
Qed.

Lemma cpLoop_lines (L : list string) (input : list string) :
  ∀ (done : list string) (st : cpState),
    L = done ++ input → input ≠ [] →
    cpLines L (length done) st →
    ∃ (st' : cpState) (plast : string),
      cpLoop input st
      = Ret (setReader st' (readLine (cpReader st') plast true))
      ∧ cpLines L (length L - 1) st'
      ∧ L !! (length L - 1)%nat = Some plast.
Proof.
  induction input as [|p rest IH]; intros done st HL Hne Hinv;
    [contradiction|].
  assert (Hp : L !! length done = Some p).
  { subst L. rewrite lookup_app_r by lia. rewrite Nat.sub_diag. reflexivity. }
  destruct rest as [|q rest].
  - exists st, p. rewrite cpLoop_last.
    assert (Hlen : (length L - 1)%nat = length done).
    { subst L. rewrite length_app. simpl. lia. }
    rewrite Hlen. auto.
  - cbn [cpLoop].
    destruct (cpBody_lines L (length done) st p Hinv Hp) as (st1 & Hb & H1).
    rewrite Hb. cbn [bind].
    apply (IH (done ++ [p])).
    + rewrite <- app_assoc. exact HL.
    + discriminate.
    + rewrite length_app. simpl. rewrite Nat.add_1_r. exact H1.
Qed.

Lemma SplitAfter_nonempty (s : string) : SplitAfter s ≠ [].
Proof.
  induction s as [|c s IH]; simpl; [discriminate|].
  destruct (Ascii.eqb c newline); [discriminate|].
  destruct (SplitAfter s); [contradiction|discriminate].
Qed.

(** [createPatch] always returns, and every hunk of the patch is a run of
    consecutive lines of the text (the pieces of [SplitAfter]): its start
    line is the number of the first line of the run, its start offset the
    offset of that line in the text, [numLines] the number of lines of the
    run and its text their concatenation. *)
Theorem createPatch_hunks_are_line_runs (e : editSet) (key input : string) :
  ∃ p : Patch,
    createPatch e key input = Ret p
    ∧ Forall (fun h => ∃ i : nat, lineRun (SplitAfter input) h i) (hunks p).
Proof.
  unfold createPatch. destruct (bool_decide _).
  { eexists. split; [reflexivity|]. constructor. }
  set (L := SplitAfter input).
  destruct (cpLoop_lines L L [] (mkCp (mkPatch key []) newLineRdr
              (newEditIter e key) HUNK_NOT_STARTED None 0))
    as (st & plast & Hl & (Hrd & Hcl & Hop) & Hlast).
  { reflexivity. }
  { apply SplitAfter_nonempty. }
  { split; [apply readerAt_new|]. split; [constructor|exact I]. }
  rewrite Hl. cbn [bind]. unfold cpFlush.
  cbn [setReader curState cpHunk cpReader cpIter cpResult].
  assert (Hfin : ∀ h i,
    lineRun L h i → (i + Z.to_nat (numLines h))%nat = (length L - 1)%nat →
    ∃ i', lineRun L (if String.eqb (line (readLine (cpReader st) plast true))
                                   EmptyString
                     then h else addLine h (line (readLine (cpReader st)
                                                     plast true))) i').
  { intros h i Hrun Hend. destruct (String.eqb _ _).
    - exists i. exact Hrun.
    - exists i. cbn [readLine line].
      eapply addLine_lineRun; eauto. }
  destruct (curState st) eqn:Hc, (cpHunk st) as [h|] eqn:Hh;
    try contradiction.
  - eexists. split; [reflexivity|]. exact Hcl.
  - destruct Hop as (i & Hrun & Hend).
    destruct (Hfin h i Hrun Hend) as (i' & Hrun').
    unfold addAllEditsOnCurLine.
    match goal with
    | |- context [addAllEdits_loop ?c ?h0 ?r ?it ?l] =>
        pose proof (addAllEdits_loop_lines c h0 r it l) as (H1 & H2 & H3 & H4);
        destruct (addAllEdits_loop c h0 r it l) as [[h' it'] last']
    end.
    cbn in H1, H2, H3, H4.
    eexists. split; [reflexivity|]. cbn.
    apply Forall_app. split; [exact Hcl|].
    constructor; [|constructor]. exists i'. eapply lineRun_ext; eauto.
  - destruct Hop as (i & Hrun & Hend).
    destruct (Hfin h i Hrun Hend) as (i' & Hrun').
    eexists. split; [reflexivity|]. cbn.
    apply Forall_app. split; [exact Hcl|].
    constructor; [exists i'; exact Hrun'|constructor].
Qed.

(** ** The reference LCS *)

Lemma lcs_nil_r (a : list string) : lcs a [] = 0%nat.
Proof. destruct a; reflexivity. Qed.

Lemma lcs_cons (x y : string) (a b : list string) :
  lcs (x :: a) (y :: b)
  = if String.eqb x y then S (lcs a b)
    else Nat.max (lcs a (y :: b)) (lcs (x :: a) b).
Proof. reflexivity. Qed.

Lemma lcs_le_l (a b : list string) : (lcs a b ≤ length a)%nat.
Proof.
  revert b. induction a as [|x a IHa]; intros b; [simpl; lia|].
  induction b as [|y b IHb]; [simpl; lia|].
  rewrite lcs_cons. destruct (String.eqb x y).
  - specialize (IHa b). simpl. lia.
  - specialize (IHa (y :: b)). simpl in *. lia.
Qed.

Lemma lcs_le_r (a b : list string) : (lcs a b ≤ length b)%nat.
Proof.
  revert b. induction a as [|x a IHa]; intros b; [simpl; lia|].
  induction b as [|y b IHb]; [simpl; lia|].
  rewrite lcs_cons. destruct (String.eqb x y).
  - specialize (IHa b). simpl. lia.
  - specialize (IHa (y :: b)). simpl in *. lia.
Qed.

Lemma sublist_tail (u : string) (t l : list string) :
  (u :: t) `sublist_of` l → t `sublist_of` l.
Proof. intros H. transitivity (u :: t); [|exact H]. apply sublist_cons. reflexivity. Qed.

(** Every common subsequence is at most as long as [lcs] says. *)
Lemma lcs_upper (a : list string) :
  ∀ (b t : list string),
    t `sublist_of` a → t `sublist_of` b → (length t ≤ lcs a b)%nat.
Proof.
  induction a as [|x a IHa]; intros b t Ha Hb.
  - apply sublist_nil_r in Ha. subst t. simpl. lia.
  - revert t Ha Hb. induction b as [|y b IHb]; intros t Ha Hb.
    + apply sublist_nil_r in Hb. subst t. simpl. lia.
    + destruct t as [|u t]; [simpl; lia|].
      rewrite lcs_cons.
      destruct (String.eqb x y) eqn:Exy.
      * assert (Hta : t `sublist_of` a).
        { apply sublist_cons_r in Ha as [Ha|(t' & Heq & Ha)].
          - eapply sublist_tail, Ha.
          - injection Heq as -> ->. exact Ha. }
        assert (Htb : t `sublist_of` b).
        { apply sublist_cons_r in Hb as [Hb|(t' & Heq & Hb)].
          - eapply sublist_tail, Hb.
          - injection Heq as -> ->. exact Hb. }
        specialize (IHa b t Hta Htb). simpl. lia.
      * apply sublist_cons_r in Ha as [Ha|(t' & Heq & Ha)].
        { specialize (IHa (y :: b) (u :: t) Ha Hb). lia. }
        injection Heq as -> ->.
        apply sublist_cons_r in Hb as [Hb|(t'' & Heq & Hb)].
        { assert (Hxa : (x :: t') `sublist_of` (x :: a))
            by (apply sublist_skip; exact Ha).
          specialize (IHb (x :: t') Hxa Hb). lia. }
        injection Heq as -> ->.
        rewrite String.eqb_refl in Exy. discriminate.
Qed.

(** ** Paths in the edit graph *)

Lemma gridreach_diagonal (a b : list string) (i j x y : nat) :
  gridreach a b i j x y → (x + j = y + i)%nat.
Proof. induction 1; lia. Qed.

Lemma gridreach_in_grid (a b : list string) (i j x y : nat) :
  gridreach a b i j x y → (x ≤ length a ∧ y ≤ length b)%nat.
Proof.
  induction 1 as [|i j x y u _ IH Ha Hb| |]; try lia.
  apply lookup_lt_Some in Ha, Hb. lia.
Qed.

Lemma gridreach_all_ins (a b : list string) (b2 : list string) :
  ∀ (b1 : list string) (i j x : nat),
    b = b1 ++ b2 →
    gridreach a b i j x (length b1) →
    gridreach a b i (j + length b2) x (length b1 + length b2).
Proof.
  induction b2 as [|y b2 IH]; intros b1 i j x Hb H; simpl.
  - rewrite !Nat.add_0_r. exact H.
  - replace (j + S (length b2))%nat with (S j + length b2)%nat by lia.
    replace (length b1 + S (length b2))%nat
      with (length (b1 ++ [y]) + length b2)%nat
      by (rewrite length_app; simpl; lia).
    apply IH.
    + rewrite <- app_assoc. exact Hb.
    + rewrite length_app; simpl. rewrite Nat.add_1_r.
      apply gr_ins; [exact H|]. subst b. rewrite length_app; simpl. lia.
Qed.

Lemma gridreach_all_del (a b : list string) (a2 : list string) :
  ∀ (a1 : list string) (i j y : nat),
    a = a1 ++ a2 →
    gridreach a b i j (length a1) y →
    gridreach a b (i + length a2) j (length a1 + length a2) y.
Proof.
  induction a2 as [|x a2 IH]; intros a1 i j y Ha H; simpl.
  - rewrite !Nat.add_0_r. exact H.
  - replace (i + S (length a2))%nat with (S i + length a2)%nat by lia.
    replace (length a1 + S (length a2))%nat
      with (length (a1 ++ [x]) + length a2)%nat
      by (rewrite length_app; simpl; lia).
    apply IH.
    + rewrite <- app_assoc. exact Ha.
    + rewrite length_app; simpl. rewrite Nat.add_1_r.
      apply gr_del; [exact H|]. subst a. rewrite length_app; simpl. lia.
Qed.

(** A path that follows the recursion of [lcs] from any point reached. *)
Lemma gridreach_lcs_from (a b : list string) (a2 : list string) :
  ∀ (b2 a1 b1 : list string) (i j : nat),
    a = a1 ++ a2 → b = b1 ++ b2 →
    gridreach a b i j (length a1) (length b1) →
    gridreach a b (i + (length a2 - lcs a2 b2)) (j + (length b2 - lcs a2 b2))
              (length a1 + length a2) (length b1 + length b2).
Proof.
  induction a2 as [|x a2 IHa]; intros b2 a1 b1 i j Ha Hb H.
  - simpl. rewrite !Nat.add_0_r, Nat.sub_0_r.
    apply gridreach_all_ins; assumption.
  - induction b2 as [|y b2 IHb] in b1, i, j, Hb, H |- *.
    + rewrite lcs_nil_r. simpl length. rewrite !Nat.add_0_r, Nat.sub_0_r.
      apply (gridreach_all_del a b (x :: a2) a1 i j (length b1)); assumption.
    + rewrite lcs_cons. destruct (String.eqb x y) eqn:Exy.
      * apply String.eqb_eq in Exy. subst y.
        pose proof (lcs_le_l a2 b2). pose proof (lcs_le_r a2 b2).
        replace (i + (length (x :: a2) - S (lcs a2 b2)))%nat
          with (i + (length a2 - lcs a2 b2))%nat by (simpl; lia).
        replace (j + (length (x :: b2) - S (lcs a2 b2)))%nat
          with (j + (length b2 - lcs a2 b2))%nat by (simpl; lia).
        replace (length a1 + length (x :: a2))%nat
          with (length (a1 ++ [x]) + length a2)%nat
          by (rewrite length_app; simpl; lia).
        replace (length b1 + length (x :: b2))%nat
          with (length (b1 ++ [x]) + length b2)%nat
          by (rewrite length_app; simpl; lia).
        apply IHa.
        -- rewrite <- app_assoc. exact Ha.
        -- rewrite <- app_assoc. exact Hb.
        -- rewrite !length_app; simpl. rewrite !Nat.add_1_r.
           apply gr_diag with (u := x); [exact H| |].
           ++ subst a. rewrite lookup_app_r by lia.
              rewrite Nat.sub_diag. reflexivity.
           ++ subst b. rewrite lookup_app_r by lia.
              rewrite Nat.sub_diag. reflexivity.
      * pose proof (lcs_le_l a2 (y :: b2)) as Hl1.
        pose proof (lcs_le_r a2 (y :: b2)) as Hr1.
        pose proof (lcs_le_l (x :: a2) b2) as Hl2.
        pose proof (lcs_le_r (x :: a2) b2) as Hr2.
        destruct (Nat.max_spec (lcs a2 (y :: b2)) (lcs (x :: a2) b2))
          as [[Hlt ->]|[Hge ->]].
        -- (* an insertion first *)
           replace (i + (length (x :: a2) - lcs (x :: a2) b2))%nat
             with (i + (length (x :: a2) - lcs (x :: a2) b2))%nat by lia.
           replace (j + (length (y :: b2) - lcs (x :: a2) b2))%nat
             with (S j + (length b2 - lcs (x :: a2) b2))%nat
             by (simpl in *; lia).
           replace (length b1 + length (y :: b2))%nat
             with (length (b1 ++ [y]) + length b2)%nat
             by (rewrite length_app; simpl; lia).
           apply IHb.
           ++ rewrite <- app_assoc. exact Hb.
           ++ rewrite length_app; simpl. rewrite Nat.add_1_r.
              apply gr_ins; [exact H|].
              subst b. rewrite length_app; simpl. lia.
        -- (* a deletion first *)
           replace (i + (length (x :: a2) - lcs a2 (y :: b2)))%nat
             with (S i + (length a2 - lcs a2 (y :: b2)))%nat
             by (simpl in *; lia).
           replace (length a1 + length (x :: a2))%nat
             with (length (a1 ++ [x]) + length a2)%nat
             by (rewrite length_app; simpl; lia).
           apply IHa.
           ++ rewrite <- app_assoc. exact Ha.
           ++ exact Hb.
           ++ rewrite length_app; simpl. rewrite Nat.add_1_r.
              apply gr_del; [exact H|].
              subst a. rewrite length_app; simpl. lia.
Qed.

(** The end of the grid is reached with [n - lcs] deletions and
    [m - lcs] insertions. *)
Lemma gridreach_lcs (a b : list string) :
  gridreach a b (length a - lcs a b) (length b - lcs a b)
            (length a) (length b).
Proof.
  apply (gridreach_lcs_from a b a b [] [] 0 0); try reflexivity.
  apply gr_start.
Qed.

(** ** Reading and writing slices *)

Lemma index_nat {A : Type} (l : list A) (i : nat) :
  index l (Z.of_nat i)
  = match l !! i with Some x => Ret x | None => Panics index_out_of_range end.
Proof.
  unfold index. destruct (Z.ltb_spec (Z.of_nat i) 0); [lia|].
  rewrite Nat2Z.id. reflexivity.
Qed.

Lemma index_Some {A : Type} (l : list A) (i : nat) (x : A) :
  l !! i = Some x → index l (Z.of_nat i) = Ret x.
Proof. intros H. rewrite index_nat, H. reflexivity. Qed.

Lemma store_nat {A : Type} (l : list A) (i : nat) (x : A) :
  (i < length l)%nat → store l (Z.of_nat i) x = Ret (<[i := x]> l).
Proof.
  intros H. unfold store, len.
  destruct (Z.leb_spec 0 (Z.of_nat i)); [|lia].
  destruct (Z.ltb_spec (Z.of_nat i) (Z.of_nat (length l))); [|lia].
  simpl. rewrite Nat2Z.id. reflexivity.
Qed.

Lemma abs_nonneg (s : Z) : 0 ≤ abs s.
Proof. unfold abs. destruct (Z.ltb_spec s 0); lia. Qed.

Lemma abs_of_nat (x : nat) : abs (Z.of_nat x) = Z.of_nat x.
Proof. unfold abs. destruct (Z.ltb_spec (Z.of_nat x) 0); lia. Qed.

Lemma abs_opp_of_nat (x : nat) : abs (- Z.of_nat x) = Z.of_nat x.
Proof. unfold abs. destruct (Z.ltb_spec (- Z.of_nat x) 0); lia. Qed.

(** ** The run along a diagonal *)

Lemma snake_spec (a b : list string) (cnt : nat) :
  ∀ x0 y0 : nat,
    cnt = (length a - x0)%nat →
    ∃ us : list string,
      snake cnt a b (Z.of_nat x0) (Z.of_nat y0)
      = Ret (Z.of_nat (x0 + length us), Z.of_nat (y0 + length us))
      ∧ take (x0 + length us) a = take x0 a ++ us
      ∧ take (y0 + length us) b = take y0 b ++ us
      ∧ (∀ u, a !! (x0 + length us)%nat = Some u →
              b !! (y0 + length us)%nat = Some u → False).
Proof.
  induction cnt as [|cnt IH]; intros x0 y0 Hcnt.
  - exists []. simpl. rewrite !Nat.add_0_r, !app_nil_r.
    repeat split. intros u Ha _. apply lookup_lt_Some in Ha. lia.
  - cbn [snake]. unfold len.
    destruct (Z.ltb_spec (Z.of_nat x0) (Z.of_nat (length a))) as [Hx|Hx];
      [|lia].
    destruct (Z.ltb_spec (Z.of_nat y0) (Z.of_nat (length b))) as [Hy|Hy].
    + destruct (lookup_lt_is_Some_2 a x0) as [ax Hax]; [lia|].
      destruct (lookup_lt_is_Some_2 b y0) as [bx Hbx]; [lia|].
      cbn [andb]. rewrite (index_Some _ _ _ Hax), (index_Some _ _ _ Hbx).
      cbn [bind]. destruct (String.eqb ax bx) eqn:E.
      * apply String.eqb_eq in E. subst bx.
        destruct (IH (S x0) (S y0)) as (us & Hs & Ha & Hb & Hstop); [lia|].
        exists (ax :: us).
        replace (Z.of_nat x0 + 1) with (Z.of_nat (S x0)) by lia.
        replace (Z.of_nat y0 + 1) with (Z.of_nat (S y0)) by lia.
        rewrite Hs. simpl length.
        replace (x0 + S (length us))%nat with (S x0 + length us)%nat by lia.
        replace (y0 + S (length us))%nat with (S y0 + length us)%nat by lia.
        split; [reflexivity|].
        split; [rewrite Ha, (take_S_r _ _ _ Hax), <- app_assoc; reflexivity|].
        split; [rewrite Hb, (take_S_r _ _ _ Hbx), <- app_assoc; reflexivity|].
        exact Hstop.
      * exists []. simpl. rewrite !Nat.add_0_r, !app_nil_r.
        repeat split. intros u Ha Hb.
        rewrite Hax in Ha. rewrite Hbx in Hb.
        injection Ha as ->. injection Hb as ->.
        rewrite String.eqb_refl in E. discriminate.
    + cbn [andb]. exists []. simpl. rewrite !Nat.add_0_r, !app_nil_r.
      repeat split. intros u _ Hb. apply lookup_lt_Some in Hb. lia.
Qed.

(** ** The furthest reaching point of a diagonal *)

(** The point reached on the diagonal before the run is sound when it
    comes from a sound neighbour by an insertion (from the diagonal above,
    same [x]) or by a deletion (from the diagonal below, [x + 1]). *)
Lemma sublist_take_le (l : list string) (p q : nat) :
  (p ≤ q)%nat → take p l `sublist_of` take q l.
Proof.
  intros H. replace (take p l) with (take p (take q l)).
  - apply sublist_take.
  - rewrite take_take. f_equal. lia.
Qed.

Lemma SoundAt_ins (a b : list string) (i j : nat) (X : Z) :
  SoundAt a b i j X → SoundAt a b i (S j) X.
Proof.
  intros (t & HX & Ha & Hb). exists t. split; [exact HX|]. split; [exact Ha|].
  transitivity (take (j + length t) b); [exact Hb|].
  apply sublist_take_le. lia.
Qed.

Lemma SoundAt_del (a b : list string) (i j : nat) (X : Z) :
  SoundAt a b i j X → SoundAt a b (S i) j (X + 1).
Proof.
  intros (t & HX & Ha & Hb). exists t. split; [lia|]. split; [|exact Hb].
  transitivity (take (i + length t) a); [exact Ha|].
  apply sublist_take_le. lia.
Qed.

Lemma SoundAt_run (a b : list string) (i j x0 : nat) (us : list string) :
  SoundAt a b i j (Z.of_nat x0) →
  take (x0 + length us) a = take x0 a ++ us →
  take (x0 + j - i + length us) b = take (x0 + j - i) b ++ us →
  SoundAt a b i j (Z.of_nat (x0 + length us)).
Proof.
  intros (t & HX & Ha & Hb) Hta Htb.
  assert (x0 = i + length t)%nat by lia. subst x0.
  exists (t ++ us). rewrite length_app.
  split; [lia|].
  replace (i + (length t + length us))%nat
    with (i + length t + length us)%nat by lia.
  replace (j + (length t + length us))%nat
    with (i + length t + j - i + length us)%nat by lia.
  rewrite Hta, Htb.
  replace (i + length t + j - i)%nat with (j + length t)%nat by lia.
  split; apply sublist_app; auto.
Qed.

(** Nothing goes further on the diagonal than the end of the run, when
    the start of the run is at least what the two neighbours allow. *)
Lemma CompleteAt_run (a b : list string) (i j : nat) (x : nat) :
  (∀ i', i = S i' → ∃ L, CompleteAt a b i' j L ∧ L + 1 ≤ Z.of_nat x) →
  (∀ j', j = S j' → ∃ R, CompleteAt a b i j' R ∧ R ≤ Z.of_nat x) →
  (∀ u, a !! x = Some u → b !! (x + j - i)%nat = Some u → False) →
  CompleteAt a b i j (Z.of_nat x).
Proof.
  intros Hdel Hins Hstop.
  assert (G : ∀ i0 j0 x' y', gridreach a b i0 j0 x' y' →
                i0 = i → j0 = j → Z.of_nat x' ≤ Z.of_nat x).
  { intros i0 j0 x' y' H.
    induction H as [|i1 j1 x1 y1 u H IH Ha Hb
                    |i1 j1 x1 y1 H IH Hlt
                    |i1 j1 x1 y1 H IH Hlt]; intros Hi Hj.
    - lia.
    - specialize (IH Hi Hj). subst i1 j1.
      pose proof (gridreach_diagonal _ _ _ _ _ _ H) as Hd.
      destruct (decide (x1 = x)) as [->|Hne]; [|lia].
      exfalso. apply (Hstop u Ha).
      replace (x + j - i)%nat with y1 by lia. exact Hb.
    - destruct (Hdel i1 (eq_sym Hi)) as (L & Hc & Hle). subst j1.
      specialize (Hc _ _ H). lia.
    - destruct (Hins j1 (eq_sym Hj)) as (R & Hc & Hle). subst i1.
      specialize (Hc _ _ H). lia. }
  intros x' y' H. exact (G _ _ _ _ H eq_refl eq_refl).
Qed.

Lemma index_total (v : list Z) (idx : nat) :
  (idx < length v)%nat → index v (Z.of_nat idx) = Ret (v !!! idx).
Proof.
  intros H. destruct (lookup_lt_is_Some_2 v idx H) as [s Hs].
  rewrite (index_Some _ _ _ Hs).
  rewrite (list_lookup_total_correct _ _ _ Hs). reflexivity.
Qed.

(** ** One diagonal of the search *)

Section Search.
Variables a b : list string.
Local Abbreviation N := (length a + length b)%nat.
Hypothesis Ha : a ≠ [].
Hypothesis Hb : b ≠ [].

Lemma N_ge_2 : (2 ≤ N)%nat.
Proof.
  destruct a; [congruence|]. destruct b; [congruence|].
  simpl. lia.
Qed.

(** The start of the run that [choose] returns is sound and at least
    what the two neighbouring diagonals allow. *)
Lemma choose_spec (d i : nat) (v : list Z) :
  KInv a b d i v → (i ≤ d)%nat → (d ≤ N)%nat → (2 * i < N + d)%nat →
  ∃ (x0 : nat) (vert : bool),
    choose v (Z.of_nat N) (Z.of_nat d) (2 * Z.of_nat i - Z.of_nat d)
    = Ret (Z.of_nat x0, vert)
    ∧ SoundAt a b i (d - i) (Z.of_nat x0)
    ∧ (∀ i', i = S i' →
         ∃ L, CompleteAt a b i' (d - i) L ∧ L + 1 ≤ Z.of_nat x0)
    ∧ (∀ j', (d - i)%nat = S j' →
         ∃ R, CompleteAt a b i j' R ∧ R ≤ Z.of_nat x0)
    ∧ ((d = 0%nat ∧ x0 = 0%nat ∧ vert = false)
       ∨ (∃ d', d = S d' ∧ (i ≤ d')%nat ∧ vert = false
                ∧ Z.of_nat x0 = abs (entry v N d' i))
       ∨ (∃ d' i', d = S d' ∧ i = S i' ∧ (i' ≤ d')%nat ∧ vert = true
                   ∧ Z.of_nat x0 = abs (entry v N d' i') + 1)).
Proof.
  intros (Hlen & Hcur & Hprev & Hinit & Hnoend) Hid HdN Hk.
  pose proof N_ge_2 as HN2. cbv zeta in Hlen, Hprev, Hcur.
  unfold choose.
  destruct (Z.eqb_spec (2 * Z.of_nat i - Z.of_nat d) (- Z.of_nat d))
    as [Hk0|Hk0].
  - (* k = -d *)
    assert (i = 0)%nat by lia. subst i.
    destruct d as [|d'].
    + (* the first iteration reads the initial entry *)
      specialize (Hinit eq_refl).
      replace (Z.of_nat N + (2 * Z.of_nat 0 - Z.of_nat 0) + 1)
        with (Z.of_nat (S N)) by lia.
      rewrite (index_Some _ _ _ Hinit). cbn [bind].
      exists 0%nat, false. split; [reflexivity|].
      split; [exists []; simpl; repeat split; constructor|].
      split; [intros ? ?; lia|]. split; [intros ? ?; lia|].
      left. auto.
    + specialize (Hprev 0%nat ltac:(lia)).
      replace (S d' - 1)%nat with d' in Hprev by lia.
      unfold entry in Hprev.
      replace (Z.of_nat N + (2 * Z.of_nat 0 - Z.of_nat (S d')) + 1)
        with (Z.of_nat (N + 2 * 0 - d')) by lia.
      rewrite index_total by lia. cbn [bind].
      destruct Hprev as [Hs Hc].
      set (r := v !!! (N + 2 * 0 - d')%nat) in *.
      exists (Z.to_nat (abs r)), false.
      pose proof (abs_nonneg r). rewrite Z2Nat.id by lia.
      split; [reflexivity|].
      rewrite Nat.sub_0_r in Hs, Hc. rewrite Nat.sub_0_r.
      split; [apply SoundAt_ins, Hs|].
      split; [intros ? ?; lia|].
      split.
      { intros j' Hj. exists (abs r). injection Hj as <-.
        split; [exact Hc|lia]. }
      right. left. exists d'. repeat split; try lia.
      all: try (unfold entry; lia).
  - destruct (Z.eqb_spec (2 * Z.of_nat i - Z.of_nat d) (Z.of_nat d))
      as [Hkd|Hkd]; cbn [negb].
    + (* k = d *)
      assert (i = d) by lia. subst i.
      destruct d as [|d']; [lia|].
      specialize (Hprev d' ltac:(lia)).
      replace (S d' - 1)%nat with d' in Hprev by lia.
      unfold entry in Hprev.
      replace (Z.of_nat N + (2 * Z.of_nat (S d') - Z.of_nat (S d')) - 1)
        with (Z.of_nat (N + 2 * d' - d')) by lia.
      rewrite index_total by lia. cbn [bind].
      destruct Hprev as [Hs Hc].
      set (l := v !!! (N + 2 * d' - d')%nat) in *.
      exists (S (Z.to_nat (abs l))), true.
      pose proof (abs_nonneg l).
      replace (Z.of_nat (S (Z.to_nat (abs l)))) with (abs l + 1) by lia.
      split; [reflexivity|].
      rewrite Nat.sub_diag in *.
      split; [apply SoundAt_del, Hs|].
      split.
      { intros i' Hi. injection Hi as <-. exists (abs l).
        split; [exact Hc|lia]. }
      split; [intros ? ?; lia|].
      right. right. exists d', d'. repeat split; try lia.
      all: try (unfold entry; lia).
    + (* an inner diagonal *)
      assert (0 < i < d)%nat as [Hi0 Hid'] by lia.
      destruct d as [|d']; [lia|].
      destruct i as [|i']; [lia|].
      pose proof (Hprev i' ltac:(lia)) as HL.
      pose proof (Hprev (S i') ltac:(lia)) as HR.
      replace (S d' - 1)%nat with d' in HL, HR by lia.
      unfold entry in HL, HR.
      replace (Z.of_nat N + (2 * Z.of_nat (S i') - Z.of_nat (S d')) - 1)
        with (Z.of_nat (N + 2 * i' - d')) by lia.
      replace (Z.of_nat N + (2 * Z.of_nat (S i') - Z.of_nat (S d')) + 1)
        with (Z.of_nat (N + 2 * S i' - d')) by lia.
      rewrite !index_total by lia. cbn [bind].
      set (l := v !!! (N + 2 * i' - d')%nat) in *.
      set (r := v !!! (N + 2 * S i' - d')%nat) in *.
      destruct HL as [HLs HLc]. destruct HR as [HRs HRc].
      pose proof (abs_nonneg l). pose proof (abs_nonneg r).
      replace (d' - i')%nat with (S d' - S i')%nat in HLs, HLc by lia.
      destruct (Z.ltb_spec (abs l) (abs r)) as [Hlr|Hlr].
      * exists (Z.to_nat (abs r)), false. rewrite Z2Nat.id by lia.
        split; [reflexivity|].
        replace (S d' - S i')%nat with (S (d' - S i'))%nat by lia.
        split; [apply SoundAt_ins, HRs|].
        split.
        -- intros i'' Hi. injection Hi as <-. exists (abs l).
           replace (S (d' - S i'))%nat with (S d' - S i')%nat by lia.
           split; [exact HLc|lia].
        -- split.
           ++ intros j' Hj. injection Hj as <-. exists (abs r).
              split; [exact HRc|lia].
           ++ right. left. exists d'. repeat split; try lia.
              all: try (unfold entry; lia).
      * exists (S (Z.to_nat (abs l))), true.
        replace (Z.of_nat (S (Z.to_nat (abs l)))) with (abs l + 1) by lia.
        split; [reflexivity|].
        split; [apply SoundAt_del, HLs|].
        split.
        -- intros i'' Hi. injection Hi as <-. exists (abs l).
           split; [exact HLc|lia].
        -- split.
           ++ intros j' Hj. exists (abs r).
              replace j' with (d' - S i')%nat by lia.
              split; [exact HRc|lia].
           ++ right. right. exists d', i'. repeat split; try lia.
              all: try (unfold entry; lia).
Qed.

(** The body of the inner loop stores a furthest reaching point,
    reports the end exactly when that point passes the end test, and
    extends the history by one step. *)
Lemma kbody_spec (d i : nat) (v : list Z) :
  KInv a b d i v → (i ≤ d)%nat → (d ≤ N)%nat → (2 * i < N + d)%nat →
  ∃ (s : Z) (found : bool),
    kbody a b (Z.of_nat N) (Z.of_nat d) (2 * Z.of_nat i - Z.of_nat d) v
    = Ret (<[(N + 2 * i - d)%nat := s]> v, found)
    ∧ Good a b d i s
    ∧ (found = true ↔ atEnd a b N (N + 2 * i - d) s)
    ∧ (∀ rprev, PrevTraces a b N d v rprev →
                Trace a b N d i (<[(N + 2 * i - d)%nat := s]> v :: rprev)).
Proof.
  intros Hinv Hid HdN Hk.
  destruct (choose_spec d i v Hinv Hid HdN Hk)
    as (x0 & vert & Hch & Hs & Hdel & Hins & Horigin).
  destruct Hinv as (Hlen & _).
  unfold kbody. rewrite Hch. cbn [bind].
  assert (Hx0 : (i ≤ x0)%nat) by (destruct Hs as (t & ? & _); lia).
  replace (Z.to_nat (len a - Z.of_nat x0)) with (length a - x0)%nat
    by (unfold len; lia).
  replace (Z.of_nat x0 - (2 * Z.of_nat i - Z.of_nat d))
    with (Z.of_nat (x0 + (d - i) - i)) by lia.
  destruct (snake_spec a b (length a - x0) x0 (x0 + (d - i) - i) eq_refl)
    as (us & Hsn & Hta & Htb & Hstop).
  rewrite Hsn. cbn [bind].
  replace (Z.of_nat N + (2 * Z.of_nat i - Z.of_nat d))
    with (Z.of_nat (N + 2 * i - d)) by lia.
  assert (Hran : Ran a b x0 (x0 + (d - i) - i) (x0 + length us)).
  { exists us. auto. }
  set (x := (x0 + length us)%nat) in *.
  set (s := if vert then - Z.of_nat x else Z.of_nat x).
  rewrite store_nat by lia. cbn [bind].
  assert (Habs : abs s = Z.of_nat x).
  { subst s. destruct vert; [apply abs_opp_of_nat|apply abs_of_nat]. }
  exists s. eexists. split; [reflexivity|].
  split; [|split].
  - unfold Good. rewrite Habs. split.
    + apply SoundAt_run; assumption.
    + apply CompleteAt_run.
      * intros i' Hi. destruct (Hdel i' Hi) as (L & Hc & Hle).
        exists L. split; [exact Hc|]. subst x. lia.
      * intros j' Hj. destruct (Hins j' Hj) as (R & Hc & Hle).
        exists R. split; [exact Hc|]. subst x. lia.
      * intros u Hau Hbu. apply (Hstop u Hau).
        replace (x0 + (d - i) - i + length us)%nat
          with (x + (d - i) - i)%nat by (subst x; lia).
        exact Hbu.
  - unfold atEnd. rewrite Habs. unfold len.
    rewrite andb_true_iff, !Z.leb_le. subst x. lia.
  - intros rprev Hprev.
    assert (Hl' : length (<[(N + 2 * i - d)%nat := s]> v) = (2 * N)%nat).
    { rewrite length_insert. exact Hlen. }
    assert (He' : entry (<[(N + 2 * i - d)%nat := s]> v) N d i = s).
    { unfold entry. apply list_lookup_total_insert_eq. lia. }
    destruct Horigin as [(-> & -> & ->)
                        |[(d' & -> & Hid' & -> & Hx)
                         |(d' & i' & -> & -> & Hid' & -> & Hx)]].
    + assert (i = 0)%nat by lia. subst i. cbn in Hprev. subst rprev.
      eapply trace_start; [exact Hl'|exact He'|]. exact Hran.
    + destruct Hprev as (vprev & rest & -> & Hall).
      destruct (Hall i Hid') as [Htr Heq].
      eapply (trace_ins a b N d' i _ vprev rest x0 x);
        [exact Hl'|exact Htr|exact Hid'| |exact Hx0|exact Hran|exact He'].
      rewrite Heq. exact Hx.
    + destruct Hprev as (vprev & rest & -> & Hall).
      destruct (Hall i' Hid') as [Htr Heq].
      eapply (trace_del a b N d' i' _ vprev rest x0 x);
        [exact Hl'|exact Htr|exact Hid'| |exact Hx0| |exact He'].
      * rewrite Heq. exact Hx.
      * replace (x0 + (d' - i') - S i')%nat
          with (x0 + (S d' - S i') - S i')%nat by lia.
        exact Hran.
Qed.

Lemma KInv_step (d i : nat) (v : list Z) (s : Z) :
  KInv a b d i v → (i ≤ d)%nat → (d ≤ N)%nat → (2 * i < N + d)%nat →
  Good a b d i s → ¬ atEnd a b N (N + 2 * i - d) s →
  KInv a b d (S i) (<[(N + 2 * i - d)%nat := s]> v).
Proof.
  intros (Hlen & Hcur & Hprev & Hinit & Hnoend) Hid HdN Hk Hg Hne.
  cbv zeta in *.
  split; [rewrite length_insert; exact Hlen|].
  split.
  { intros j Hj. unfold entry.
    destruct (decide (j = i)) as [->|Hji].
    - rewrite list_lookup_total_insert_eq by lia. exact Hg.
    - rewrite list_lookup_total_insert_ne by lia.
      apply Hcur. lia. }
  split.
  { intros j Hj. unfold entry.
    rewrite list_lookup_total_insert_ne by lia. apply Hprev, Hj. }
  split.
  { intros ->. rewrite list_lookup_insert_ne by lia. apply Hinit.
    reflexivity. }
  intros idx s' Hl.
  destruct (decide (idx = (N + 2 * i - d)%nat)) as [->|Hne'].
  - rewrite list_lookup_insert_eq in Hl by lia. injection Hl as <-.
    exact Hne.
  - rewrite list_lookup_insert_ne in Hl by auto. eapply Hnoend, Hl.
Qed.

Lemma KInv_next (d : nat) (v : list Z) :
  KInv a b d (S d) v → KInv a b (S d) 0 v.
Proof.
  intros (Hlen & Hcur & Hprev & Hinit & Hnoend).
  split; [exact Hlen|]. split; [intros j Hj; lia|].
  split; [|split; [intros H; lia|exact Hnoend]].
  intros j Hj. replace (S d - 1)%nat with d by lia. apply Hcur. lia.
Qed.

(** ** Where the search ends *)

(** A furthest reaching point that passes the end test needs at least
    [n + m - 2 lcs] moves, and with exactly that many it is the end
    point of the grid. *)
Lemma end_bound (d i : nat) (s : Z) :
  (i ≤ d)%nat → (d ≤ N)%nat →
  Good a b d i s → atEnd a b N (N + 2 * i - d) s →
  (N ≤ d + 2 * lcs a b)%nat
  ∧ ((d + 2 * lcs a b = N)%nat →
     (i + lcs a b = length a)%nat ∧ abs s = len a).
Proof.
  intros Hid HdN [(t & HX & Hta & Htb) _] [Hea Heb]. unfold len in *.
  rewrite take_ge in Hta by lia. rewrite take_ge in Htb by lia.
  pose proof (lcs_upper a b t Hta Htb). lia.
Qed.

(** With [n + m - 2 lcs] moves the diagonal of the end point passes the
    end test. *)
Lemma end_reached (d i : nat) (s : Z) :
  (d + 2 * lcs a b = N)%nat → (i + lcs a b = length a)%nat →
  Good a b d i s → atEnd a b N (N + 2 * i - d) s.
Proof.
  intros Hd Hi [_ Hc].
  pose proof (gridreach_lcs a b) as Hp.
  replace (length a - lcs a b)%nat with i in Hp by lia.
  replace (length b - lcs a b)%nat with (d - i)%nat in Hp by lia.
  specialize (Hc _ _ Hp). unfold atEnd, len. lia.
Qed.

Lemma Trace_ext (d j : nat) (v v' : list Z) (rest : list (list Z)) :
  Trace a b N d j (v :: rest) →
  length v' = (2 * N)%nat → entry v' N d j = entry v N d j →
  Trace a b N d j (v' :: rest).
Proof.
  intros H Hl He. inversion H; subst.
  - eapply trace_start; eauto. congruence.
  - eapply trace_ins; eauto. congruence.
  - eapply trace_del; eauto. congruence.
Qed.

Lemma kloop_spec (d : nat) (rprev : list (list Z)) (cnt : nat) :
  ∀ (i : nat) (v : list Z),
    (cnt + i = S d)%nat →
    KInv a b d i v →
    PrevTraces a b N d v rprev →
    (∀ j, (j < i)%nat → Trace a b N d j (v :: rprev)) →
    (d + 2 * lcs a b ≤ N)%nat →
    ((d + 2 * lcs a b = N)%nat → (i + lcs a b ≤ length a)%nat) →
    ∃ (v' : list Z) (found : bool),
      kloop cnt a b (Z.of_nat N) (Z.of_nat d)
            (2 * Z.of_nat i - Z.of_nat d) v = Ret (v', found)
      ∧ if found
        then ∃ (i' : nat) (s : Z),
               (i' ≤ d)%nat ∧ v' !! (N + 2 * i' - d)%nat = Some s
               ∧ Good a b d i' s ∧ atEnd a b N (N + 2 * i' - d) s
               ∧ Trace a b N d i' (v' :: rprev)
        else KInv a b d (S d) v' ∧ (d + 2 * lcs a b < N)%nat
             ∧ ∀ j, (j ≤ d)%nat → Trace a b N d j (v' :: rprev).
Proof.
  induction cnt as [|cnt IH]; intros i v Hcnt Hinv Hprev Htr HdD HiE.
  - exists v, false. split; [reflexivity|].
    assert (i = S d) by lia. subst i. split; [exact Hinv|].
    split.
    + pose proof (lcs_le_r a b).
      destruct (decide (d + 2 * lcs a b = N)%nat) as [HD|HD]; [|lia].
      specialize (HiE HD). lia.
    + intros j Hj. apply Htr. lia.
  - assert (Hid : (i ≤ d)%nat) by lia.
    assert (HdN : (d ≤ N)%nat) by lia.
    assert (Hk : (2 * i < N + d)%nat).
    { pose proof (lcs_le_l a b). pose proof (lcs_le_r a b).
      destruct b; [congruence|]. simpl length in *. lia. }
    destruct (kbody_spec d i v Hinv Hid HdN Hk)
      as (s & found & Hkb & Hg & Hf & Hnew).
    cbn [kloop]. rewrite Hkb. cbn [bind].
    pose proof Hinv as (Hlen & _). cbv zeta in Hlen.
    specialize (Hnew rprev Hprev).
    destruct found.
    + eexists _, true. split; [reflexivity|].
      exists i, s. split; [exact Hid|].
      split; [apply list_lookup_insert_eq; lia|].
      split; [exact Hg|]. split; [apply Hf; reflexivity|exact Hnew].
    + assert (Hne : ¬ atEnd a b N (N + 2 * i - d) s).
      { intros H. apply Hf in H. discriminate. }
      replace (2 * Z.of_nat i - Z.of_nat d + 2)
        with (2 * Z.of_nat (S i) - Z.of_nat d) by lia.
      apply IH.
      * lia.
      * apply KInv_step; assumption.
      * destruct d as [|d']; [exact Hprev|].
        destruct Hprev as (vprev & rest & -> & Hall).
        exists vprev, rest. split; [reflexivity|].
        intros j Hj. destruct (Hall j Hj) as [Ht He].
        split; [exact Ht|]. rewrite He. unfold entry.
        symmetry. apply list_lookup_total_insert_ne. lia.
      * intros j Hj. destruct (decide (j = i)) as [->|Hji]; [exact Hnew|].
        apply (Trace_ext d j v); [apply Htr; lia| |].
        -- rewrite length_insert. exact Hlen.
        -- unfold entry. apply list_lookup_total_insert_ne. lia.
      * exact HdD.
      * intros HD. specialize (HiE HD).
        destruct (decide (i + lcs a b = length a)%nat) as [Hi|Hi]; [|lia].
        exfalso. apply Hne. apply end_reached; assumption.
Qed.

Lemma dloop_spec (cnt : nat) :
  ∀ (d : nat) (v : list Z) (vs : list (list Z)),
    (cnt + d = S N)%nat →
    KInv a b d 0 v →
    PrevTraces a b N d v (rev vs) →
    (d + 2 * lcs a b ≤ N)%nat →
    length vs = d →
    Forall (NoEnd a b) vs →
    ∃ (vs' : list (list Z)) (v' : list Z) (s : Z),
      dloop cnt a b (Z.of_nat N) (Z.of_nat d) v vs = Ret (vs' ++ [v'])
      ∧ (length vs' + 2 * lcs a b = N)%nat
      ∧ Forall (NoEnd a b) vs'
      ∧ v' !! (N + 2 * (length a - lcs a b) - length vs')%nat = Some s
      ∧ abs s = len a
      ∧ Trace a b N (length vs') (length a - lcs a b) (v' :: rev vs').
Proof.
  induction cnt as [|cnt IH]; intros d v vs Hcnt Hinv Hprev HdD Hvs Hne.
  - lia.
  - cbn [dloop]. rewrite Nat2Z.id.
    replace (- Z.of_nat d) with (2 * Z.of_nat 0 - Z.of_nat d) by lia.
    assert (H0 : (d + 2 * lcs a b = N)%nat → (0 + lcs a b ≤ length a)%nat).
    { intros _. pose proof (lcs_le_l a b). lia. }
    destruct (kloop_spec d (rev vs) (S d) 0 v ltac:(lia) Hinv Hprev
                ltac:(intros j Hj; lia) HdD H0)
      as (v' & found & Hkl & Hres).
    rewrite Hkl. cbn [bind]. destruct found.
    + destruct Hres as (i' & s & Hi' & Hl & Hg & He & Htr).
      destruct (end_bound d i' s Hi' ltac:(lia) Hg He) as [HD Hex].
      destruct (Hex ltac:(lia)) as [Hi Hx].
      exists vs, v', s. split; [reflexivity|].
      split; [lia|]. split; [exact Hne|].
      replace (length a - lcs a b)%nat with i' by lia. rewrite Hvs.
      auto.
    + destruct Hres as (Hinv' & HD & Htr).
      replace (Z.of_nat d + 1) with (Z.of_nat (S d)) by lia.
      apply IH.
      * lia.
      * apply KInv_next, Hinv'.
      * rewrite rev_unit. exists v', (rev vs). split; [reflexivity|].
        intros j Hj. split; [apply Htr, Hj|reflexivity].
      * lia.
      * rewrite length_app. simpl. lia.
      * apply Forall_app. split; [exact Hne|].
        constructor; [|constructor]. apply Hinv'.
Qed.
End Search.

(** ** The search as a whole *)

Lemma search_full (a b : list string) :
  a ≠ [] → b ≠ [] →
  ∃ (vs : list (list Z)) (v : list Z) (s : Z),
    search a b = Ret (vs ++ [v])
    ∧ (length vs + 2 * lcs a b = length a + length b)%nat
    ∧ Forall (NoEnd a b) vs
    ∧ v !! (2 * length a)%nat = Some s
    ∧ abs s = len a
    ∧ Trace a b (length a + length b) (length vs) (length a - lcs a b)
            (v :: rev vs).
Proof.
  intros Ha Hb. pose proof (N_ge_2 a b Ha Hb) as HN.
  pose proof (lcs_le_l a b) as Hl. pose proof (lcs_le_r a b) as Hr.
  unfold search.
  replace (len b + len a) with (Z.of_nat (length a + length b))
    by (unfold len; lia).
  replace (Z.to_nat (2 * Z.of_nat (length a + length b)))
    with (2 * (length a + length b))%nat by lia.
  replace (Z.of_nat (length a + length b) + 1)
    with (Z.of_nat (S (length a + length b))) by lia.
  rewrite store_nat by (rewrite length_replicate; lia).
  rewrite insert_replicate. cbn [bind]. rewrite Nat2Z.id.
  destruct (dloop_spec a b Ha Hb (S (length a + length b)) 0
              (replicate (2 * (length a + length b)) 0) [])
    as (vs & v & s & Hd & Hlen & Hne & Hv & Hs & Htr).
  - lia.
  - split; [apply length_replicate|]. split; [intros j Hj; lia|].
    split; [intros j Hj; lia|].
    split; [intros _; apply lookup_replicate_2; lia|].
    intros idx s Hs [He _]. apply lookup_replicate in Hs as [-> _].
    unfold len, abs in He. simpl in He. destruct a; [congruence|].
    simpl in He. lia.
  - reflexivity.
  - lia.
  - reflexivity.
  - constructor.
  - exists vs, v, s. change (Z.of_nat 0) with 0 in Hd.
    split; [exact Hd|]. split; [exact Hlen|]. split; [exact Hne|].
    split; [|split; [exact Hs|exact Htr]].
    replace (2 * length a)%nat
      with (length a + length b + 2 * (length a - lcs a b) - length vs)%nat
      by lia.
    exact Hv.
Qed.

Lemma search_end (a b : list string) :
  a ≠ [] → b ≠ [] →
  ∃ (vs : list (list Z)) (v : list Z) (s : Z),
    search a b = Ret (vs ++ [v])
    ∧ Z.of_nat (length vs) = len a + len b - 2 * Z.of_nat (lcs a b)
    ∧ Forall (NoEnd a b) vs
    ∧ v !! (2 * length a)%nat = Some s
    ∧ abs s = len a.
Proof.
  intros Ha Hb.
  destruct (search_full a b Ha Hb) as (vs & v & s & H1 & H2 & H3 & H4 & H5 & _).
  exists vs, v, s. split; [exact H1|]. split; [unfold len; lia|]. auto.
Qed.

(** The search of [Diff] on two non-empty sequences neither panics nor
    runs out of candidates: it returns a history [vs ++ [v]] of one more
    frontier than the length [n + m - 2 lcs(a, b)] of a shortest edit
    script; no frontier before the last holds a point that passes the end
    test; and in the last one the diagonal [n - m] (at the index
    [offset + n - m = 2 n]) holds exactly the end point [x = n]. *)
Theorem search_ends_at_ses_length (a b : list string) :
  a ≠ [] → b ≠ [] →
  ∃ (vs : list (list Z)) (v : list Z) (s : Z),
    search a b = Ret (vs ++ [v])
    ∧ Z.of_nat (length vs) = len a + len b - 2 * Z.of_nat (lcs a b)
    ∧ Forall (NoEnd a b) vs
    ∧ v !! (2 * length a)%nat = Some s
    ∧ abs s = len a.
Proof. apply search_end. Qed.

Lemma search_ends_at_ses_length_witness :
  ∃ (vs : list (list Z)) (v : list Z) (s : Z),
    search ["x"%string] ["y"%string] = Ret (vs ++ [v])
    ∧ Z.of_nat (length vs)
      = len ["x"%string] + len ["y"%string]
        - 2 * Z.of_nat (lcs ["x"%string] ["y"%string])
    ∧ Forall (NoEnd ["x"%string] ["y"%string]) vs
    ∧ v !! (2 * length ["x"%string])%nat = Some s
    ∧ abs s = len ["x"%string].
Proof.
  apply (search_ends_at_ses_length ["x"%string] ["y"%string]); discriminate.
Defined.

(** ** [offsetOfString] *)

Lemma offsetOfString_loop_spec (ss : list string) (cnt : nat) :
  ∀ i : nat,
    (i ≤ length ss)%nat →
    offsetOfString_loop cnt (Z.of_nat i) ss (unitOffset i ss)
    = if decide (i + cnt ≤ length ss)%nat
      then Ret (unitOffset (i + cnt) ss)
      else Panics index_out_of_range.
Proof.
  induction cnt as [|cnt IH]; intros i Hi; cbn [offsetOfString_loop].
  - rewrite Nat.add_0_r. destruct (decide _); [reflexivity|lia].
  - rewrite index_nat. destruct (ss !! i) as [s|] eqn:Hs; cbn [bind].
    + pose proof (lookup_lt_Some _ _ _ Hs) as Hlt.
      rewrite <- (unitOffset_S _ _ _ Hs).
      replace (Z.of_nat i + 1) with (Z.of_nat (S i)) by lia.
      rewrite IH by lia.
      replace (S i + cnt)%nat with (i + S cnt)%nat by lia.
      destruct (decide (i + S cnt ≤ length ss)%nat); reflexivity.
    + apply lookup_ge_None in Hs.
      destruct (decide _); [lia|reflexivity].
Qed.

Lemma offsetOfString_eq (idx : Z) (ss : list string) :
  offsetOfString idx ss
  = if idx <=? len ss then Ret (unitOffset (Z.to_nat idx) ss)
    else Panics index_out_of_range.
Proof.
  unfold offsetOfString.
  pose proof (offsetOfString_loop_spec ss (Z.to_nat idx) 0 ltac:(lia)) as H.
  rewrite unitOffset_0 in H. change (Z.of_nat 0) with 0 in H. rewrite H.
  simpl. unfold len.
  destruct (decide _), (Z.leb_spec idx (Z.of_nat (length ss)));
    try reflexivity; lia.
Qed.

(** [offsetOfString(index, ss)] is the byte offset of [ss[index]] in
    [join(ss)], which is the size of [join(ss)] for [index = len(ss)] and
    [0] for a negative [index]; past [len(ss)] it panics, reading
    [ss[len(ss)]]. *)
Theorem offsetOfString_spec (idx : Z) (ss : list string) :
  offsetOfString idx ss
  = if idx <=? len ss then Ret (unitOffset (Z.to_nat idx) ss)
    else Panics index_out_of_range.
Proof. apply offsetOfString_eq. Qed.

(** ** Adding an edit *)

Lemma length_insertEdit (e : edit) (l : list edit) :
  length (insertEdit e l) = S (length l).
Proof.
  induction l as [|e' l IH]; simpl; [reflexivity|].
  destruct (_ <? _); simpl; [rewrite IH|]; reflexivity.
Qed.

Lemma Forall_insertEdit (P : edit → Prop) (e : edit) (l : list edit) :
  P e → Forall P l → Forall P (insertEdit e l).
Proof.
  intros He Hl. induction Hl as [|e' l He' Hl IH]; simpl.
  - constructor; [exact He|constructor].
  - destruct (_ <? _); constructor; auto.
Qed.

Lemma ascending_nil : ascending [].
Proof. intros i j e1 e2 _ H. rewrite lookup_nil in H. discriminate. Qed.

Lemma ascending_cons (e : edit) (l : list edit) :
  ascending (e :: l)
  ↔ Forall (fun e' => eOffset e ≤ eOffset e') l ∧ ascending l.
Proof.
  split.
  - intros H. split.
    + apply Forall_lookup. intros i e' He'.
      apply (H 0%nat (S i) e e'); [lia|reflexivity|exact He'].
    + intros i j e1 e2 Hij H1 H2.
      apply (H (S i) (S j) e1 e2); [lia|exact H1|exact H2].
  - intros [Hf Ha] i j e1 e2 Hij H1 H2.
    destruct j as [|j]; [lia|]. simpl in H2.
    destruct i as [|i].
    + simpl in H1. injection H1 as <-.
      rewrite Forall_lookup in Hf. exact (Hf j e2 H2).
    + simpl in H1. apply (Ha i j e1 e2); [lia|exact H1|exact H2].
Qed.

Lemma ascending_insertEdit (e : edit) (l : list edit) :
  ascending l → ascending (insertEdit e l).
Proof.
  induction l as [|e' l IH]; intros Hl; simpl.
  - apply ascending_cons. split; [constructor|apply ascending_nil].
  - apply ascending_cons in Hl as [Hf Hl].
    destruct (Z.ltb_spec (eOffset e') (eOffset e)) as [Hlt|Hge].
    + apply ascending_cons. split; [|apply IH, Hl].
      apply Forall_insertEdit; [lia|exact Hf].
    + apply ascending_cons. split.
      * constructor; [exact Hge|].
        eapply Forall_impl; [exact Hf|]. intros e'' H'. simpl in H'. lia.
      * apply ascending_cons. split; assumption.
Qed.

(** ** The backtrace *)

Lemma index_inv {A : Type} (l : list A) (i : Z) (x : A) :
  index l i = Ret x → 0 ≤ i ∧ l !! Z.to_nat i = Some x.
Proof.
  unfold index. destruct (Z.ltb_spec i 0) as [Hi|Hi]; [discriminate|].
  destruct (l !! Z.to_nat i); [|discriminate].
  intros Heq. injection Heq as ->. split; [lia|reflexivity].
Qed.

Lemma index_panics {A : Type} (l : list A) (i : Z) (msg : string) :
  index l i = Panics msg → msg = index_out_of_range.
Proof.
  unfold index. destruct (_ <? _); [congruence|].
  destruct (l !! Z.to_nat i); congruence.
Qed.

Lemma offsetOfString_inv (idx : Z) (ss : list string) (o : Z) :
  offsetOfString idx ss = Ret o →
  (Z.to_nat idx ≤ length ss)%nat ∧ o = unitOffset (Z.to_nat idx) ss.
Proof.
  rewrite offsetOfString_eq. unfold len.
  destruct (Z.leb_spec idx (Z.of_nat (length ss))) as [Hi|Hi]; [|discriminate].
  intros Heq. injection Heq as <-. split; [lia|reflexivity].
Qed.

Lemma offsetOfString_panics (idx : Z) (ss : list string) (msg : string) :
  offsetOfString idx ss = Panics msg → msg = index_out_of_range.
Proof. rewrite offsetOfString_eq. destruct (_ <=? _); congruence. Qed.

Section Backtrace.
Variable f : string.
Variables a b : list string.
Variable offset : Z.

Lemma backtrace_step (v v' : list Z) (rest : list (list Z)) (k : Z)
    (res : editSet) :
  backtrace (v :: v' :: rest) f a b offset k res
  = (v_k <- index v (offset + k) ;;
     let x := abs v_k in
     let y := x - k in
     let k' := if 0 <? v_k then k + 1 else k - 1 in
     next_v_k <- index v' (offset + k') ;;
     let next_x := abs next_v_k in
     let next_y := next_x - k' in
     if 0 <? v_k then
       let charsToCopy := y - next_y - 1 in
       let insertOffset := x - charsToCopy in
       o <- offsetOfString insertOffset a ;;
       let copyOffset := y - charsToCopy - 1 in
       replaceWith <- slice1 b copyOffset ;;
       backtrace (v' :: rest) f a b offset k'
         (Add res f (mkOL o 0) (Join replaceWith))
     else
       let charsToCopy := x - next_x - 1 in
       let deleteOffset := x - charsToCopy - 1 in
       o <- offsetOfString deleteOffset a ;;
       s <- index a deleteOffset ;;
       backtrace (v' :: rest) f a b offset k'
         (Add res f (mkOL o (strlen s)) EmptyString)).
Proof. reflexivity. Qed.

Lemma backtrace_spec (rvs : list (list Z)) :
  ∀ (k : Z) (res es : editSet),
    backtrace rvs f a b offset k res = Ret es →
    length (editsOf es f) = (length (editsOf res f) + (length rvs - 1))%nat
    ∧ (Forall (unitEdit a b) (editsOf res f) →
       Forall (unitEdit a b) (editsOf es f))
    ∧ (ascending (editsOf res f) → ascending (editsOf es f)).
Proof.
  induction rvs as [|v rest IH]; intros k res es H.
  - simpl in H. injection H as <-. simpl. rewrite Nat.add_0_r. auto.
  - destruct rest as [|v' rest'].
    + simpl in H. injection H as <-. simpl. rewrite Nat.add_0_r. auto.
    + rewrite backtrace_step in H. cbv zeta in H.
      destruct (index v (offset + k)) as [v_k|] eqn:Hvk;
        cbn [bind] in H; [|discriminate].
      destruct (index v' _) as [next_v_k|] eqn:Hnext;
        cbn [bind] in H; [|discriminate].
      destruct (0 <? v_k).
      * destruct (offsetOfString _ a) as [o|] eqn:Ho;
          cbn [bind] in H; [|discriminate].
        apply offsetOfString_inv in Ho as [Hio Ho].
        unfold slice1 in H.
        destruct (index b _) as [u|] eqn:Hu; cbn [bind] in H;
          [|discriminate].
        apply index_inv in Hu as [_ Hu].
        apply IH in H as (Hlen & Hall & Hasc).
        rewrite editsOf_Add in Hlen, Hall, Hasc.
        rewrite length_insertEdit in Hlen.
        split; [simpl length in *; lia|]. split.
        -- intros HF. apply Hall. apply Forall_insertEdit; [|exact HF].
           left. cbn. split; [reflexivity|]. rewrite append_nil_r.
           split; [eapply list_elem_of_lookup_2, Hu|].
           eexists. split; [exact Hio|exact Ho].
        -- intros HA. apply Hasc, ascending_insertEdit, HA.
      * destruct (offsetOfString _ a) as [o|] eqn:Ho;
          cbn [bind] in H; [|discriminate].
        apply offsetOfString_inv in Ho as [Hio Ho].
        destruct (index a _) as [s|] eqn:Hs; cbn [bind] in H;
          [|discriminate].
        apply index_inv in Hs as [_ Hs].
        apply IH in H as (Hlen & Hall & Hasc).
        rewrite editsOf_Add in Hlen, Hall, Hasc.
        rewrite length_insertEdit in Hlen.
        split; [simpl length in *; lia|]. split.
        -- intros HF. apply Hall. apply Forall_insertEdit; [|exact HF].
           right. cbn. split; [reflexivity|].
           eexists _, s. split; [exact Hs|]. split; [exact Ho|reflexivity].
        -- intros HA. apply Hasc, ascending_insertEdit, HA.
Qed.

Lemma backtrace_panics (rvs : list (list Z)) :
  ∀ (k : Z) (res : editSet) (msg : string),
    backtrace rvs f a b offset k res = Panics msg →
    msg = index_out_of_range.
Proof.
  induction rvs as [|v rest IH]; intros k res msg H.
  - discriminate.
  - destruct rest as [|v' rest']; [discriminate|].
    rewrite backtrace_step in H. cbv zeta in H.
    destruct (index v (offset + k)) as [v_k|] eqn:Hvk; cbn [bind] in H;
      [|injection H as <-; eapply index_panics, Hvk].
    destruct (index v' _) as [next_v_k|] eqn:Hnext; cbn [bind] in H;
      [|injection H as <-; eapply index_panics, Hnext].
    destruct (0 <? v_k).
    + destruct (offsetOfString _ a) as [o|] eqn:Ho; cbn [bind] in H;
        [|injection H as <-; eapply offsetOfString_panics, Ho].
      unfold slice1 in H.
      destruct (index b _) as [u|] eqn:Hu; cbn [bind] in H;
        [|injection H as <-; eapply index_panics, Hu].
      eapply IH, H.
    + destruct (offsetOfString _ a) as [o|] eqn:Ho; cbn [bind] in H;
        [|injection H as <-; eapply offsetOfString_panics, Ho].
      destruct (index a _) as [s|] eqn:Hs; cbn [bind] in H;
        [|injection H as <-; eapply index_panics, Hs].
      eapply IH, H.
Qed.
End Backtrace.

(** ** [Diff] on non-empty sequences *)

Lemma Diff_nonempty (f : string) (a b : list string) :
  a ≠ [] → b ≠ [] →
  Diff f a b = (vs <- search a b ;; constructEditSet f a b vs).
Proof.
  intros Ha Hb. unfold Diff, len.
  destruct a; [congruence|]. destruct b; [congruence|]. reflexivity.
Qed.

(** Whenever [Diff] returns on two non-empty sequences, the number of
    edits for [filename] is the length [n + m - 2 lcs(a, b)] of a shortest
    edit script, [lcs] being the reference definition. *)
Theorem Diff_edit_count (f : string) (a b : list string) (es : editSet) :
  a ≠ [] → b ≠ [] →
  Diff f a b = Ret es →
  Z.of_nat (length (editsOf es f))
  = len a + len b - 2 * Z.of_nat (lcs a b).
Proof.
  intros Ha Hb H. rewrite Diff_nonempty in H by assumption.
  destruct (search_end a b Ha Hb)
    as (vs & v & s & Hs & Hlen & _).
  rewrite Hs in H. cbn [bind] in H. unfold constructEditSet in H.
  apply backtrace_spec in H as (Hc & _).
  rewrite length_rev, length_app in Hc. simpl in Hc.
  unfold NewEditSet in Hc. rewrite editsOf_empty in Hc. simpl in Hc. lia.
Qed.

Lemma Diff_edit_count_witness :
  Z.of_nat (length (editsOf
     {[ "f"%string := [mkEdit (mkOL 0 1) EmptyString; mkEdit (mkOL 1 0) "y"] ]}
     "f"))
  = len ["x"%string] + len ["y"%string]
    - 2 * Z.of_nat (lcs ["x"%string] ["y"%string]).
Proof.
  apply (Diff_edit_count "f" ["x"%string] ["y"%string]);
    [discriminate|discriminate|vm_compute; reflexivity].
Defined.

(** Whenever [Diff] returns on two non-empty sequences, every edit for
    [filename] is the insertion of one whole unit of [b] at a unit boundary
    of [a] (the end of [join(a)] included), or the deletion of one unit of
    [a], from its start and of its size; and the edits are in ascending
    offset order. *)
Theorem Diff_unit_edits (f : string) (a b : list string) (es : editSet) :
  a ≠ [] → b ≠ [] →
  Diff f a b = Ret es →
  Forall (unitEdit a b) (editsOf es f) ∧ ascending (editsOf es f).
Proof.
  intros Ha Hb H. rewrite Diff_nonempty in H by assumption.
  destruct (search a b) as [vs|]; cbn [bind] in H; [|discriminate].
  unfold constructEditSet in H.
  apply backtrace_spec in H as (_ & Hall & Hasc).
  unfold NewEditSet in *. rewrite editsOf_empty in Hall, Hasc.
  split; [apply Hall; constructor|apply Hasc, ascending_nil].
Qed.

Lemma Diff_unit_edits_witness :
  Forall (unitEdit ["x"%string] ["y"%string])
    (editsOf {[ "f"%string :=
       [mkEdit (mkOL 0 1) EmptyString; mkEdit (mkOL 1 0) "y"] ]} "f")
  ∧ ascending (editsOf {[ "f"%string :=
       [mkEdit (mkOL 0 1) EmptyString; mkEdit (mkOL 1 0) "y"] ]} "f").
Proof.
  apply (Diff_unit_edits "f" ["x"%string] ["y"%string]);
    [discriminate|discriminate|vm_compute; reflexivity].
Defined.

(** [Diff] never reaches its final [panic]: on every input it either
    returns an edit set or panics on an index out of range, which only
    [constructEditSet] does; the search itself always returns. *)
Theorem Diff_returns_or_index_panic (f : string) (a b : list string) :
  (∃ es : editSet, Diff f a b = Ret es)
  ∨ (Diff f a b = Panics index_out_of_range
     ∧ ∃ vs, search a b = Ret vs
            ∧ constructEditSet f a b vs = Panics index_out_of_range).
Proof.
  destruct a as [|x a']; [left; destruct b; eexists; reflexivity|].
  destruct b as [|y b']; [left; eexists; reflexivity|].
  rewrite Diff_nonempty by discriminate.
  destruct (search_end (x :: a') (y :: b'))
    as (vs & v & s & Hs & _); [discriminate|discriminate|].
  rewrite Hs. cbn [bind].
  destruct (constructEditSet f (x :: a') (y :: b') (vs ++ [v]))
    as [es|msg] eqn:Hc.
  - left. exists es. reflexivity.
  - right. unfold constructEditSet in Hc.
    pose proof (backtrace_panics _ _ _ _ _ _ _ _ Hc) as ->.
    split; [reflexivity|]. exists (vs ++ [v]). split; [reflexivity|exact Hc].
Qed.

Lemma lcs_refl (a : list string) : lcs a a = length a.
Proof.
  induction a as [|x a IH]; [reflexivity|].
  rewrite lcs_cons, String.eqb_refl, IH. reflexivity.
Qed.

(** [Diff] of a sequence with itself is the empty edit set. *)
Theorem Diff_same (f : string) (a : list string) : Diff f a a = Ret ∅.
Proof.
  destruct a as [|x a']; [reflexivity|].
  rewrite Diff_nonempty by discriminate.
  destruct (search_end (x :: a') (x :: a'))
    as (vs & v & s & Hs & Hlen & _); [discriminate|discriminate|].
  rewrite lcs_refl in Hlen. unfold len in Hlen.
  assert (vs = []) by (destruct vs; [reflexivity|simpl in Hlen; lia]).
  subst vs. rewrite Hs. reflexivity.
Qed.

Lemma backtrace_other_keys (f : string) (a b : list string) (offset : Z)
    (rvs : list (list Z)) :
  ∀ (k : Z) (res es : editSet) (g : string),
    backtrace rvs f a b offset k res = Ret es → g ≠ f → es !! g = res !! g.
Proof.
  induction rvs as [|v rest IH]; intros k res es g H Hg.
  - simpl in H. injection H as <-. reflexivity.
  - destruct rest as [|v' rest'].
    + simpl in H. injection H as <-. reflexivity.
    + rewrite backtrace_step in H. cbv zeta in H.
      destruct (index v (offset + k)) as [v_k|]; cbn [bind] in H;
        [|discriminate].
      destruct (index v' _) as [next_v_k|]; cbn [bind] in H; [|discriminate].
      destruct (0 <? v_k).
      * destruct (offsetOfString _ a) as [o|]; cbn [bind] in H;
          [|discriminate].
        destruct (slice1 b _) as [rw|]; cbn [bind] in H; [|discriminate].
        rewrite (IH _ _ _ g H Hg). unfold Add.
        apply lookup_insert_ne. congruence.
      * destruct (offsetOfString _ a) as [o|]; cbn [bind] in H;
          [|discriminate].
        destruct (index a _) as [s|]; cbn [bind] in H; [|discriminate].
        rewrite (IH _ _ _ g H Hg). unfold Add.
        apply lookup_insert_ne. congruence.
Qed.

(** The edit set that [Diff] returns holds edits under the given file
    name only. *)
Theorem Diff_only_filename (f g : string) (a b : list string) (es : editSet) :
  Diff f a b = Ret es → g ≠ f → es !! g = None.
Proof.
  intros H Hg. unfold Diff in H.
  destruct ((len a =? 0) && (len b =? 0)).
  { injection H as <-. apply lookup_empty. }
  destruct (len a =? 0).
  { injection H as <-. unfold Add, NewEditSet.
    rewrite lookup_insert_ne by congruence. apply lookup_empty. }
  destruct (len b =? 0).
  { injection H as <-. unfold Add, NewEditSet.
    rewrite lookup_insert_ne by congruence. apply lookup_empty. }
  destruct (search a b) as [vs|]; cbn [bind] in H; [|discriminate].
  unfold constructEditSet in H.
  rewrite (backtrace_other_keys _ _ _ _ _ _ _ _ g H Hg).
  apply lookup_empty.
Qed.

Lemma Diff_only_filename_witness :
  ({[ "f"%string := [mkEdit (mkOL 0 0) "y"] ]} : editSet) !! "g"%string = None.
Proof.
  apply (Diff_only_filename "f" "g" [] ["y"%string]);
    [vm_compute; reflexivity|discriminate].
Defined.

(** ** Splitting a text into its lines *)

Lemma SplitAfter_cons (c : ascii) (s : string) :
  SplitAfter (String c s)
  = if Ascii.eqb c newline then String c EmptyString :: SplitAfter s
    else match SplitAfter s with
         | [] => [String c EmptyString]
         | p :: ps => String c p :: ps
         end.
Proof. reflexivity. Qed.

Lemma SplitAfter_noNewline (s : string) :
  noNewline s = true → SplitAfter s = [s].
Proof.
  induction s as [|c s IH]; [reflexivity|].
  cbn [noNewline]. rewrite andb_true_iff, negb_true_iff. intros [Hc Hs].
  rewrite SplitAfter_cons, Hc, (IH Hs). reflexivity.
Qed.

Lemma SplitAfter_fullLine (l rest : string) :
  fullLine l = true →
  SplitAfter (String.append l rest) = l :: SplitAfter rest.
Proof.
  induction l as [|c l IH]; [discriminate|].
  cbn [fullLine]. rewrite append_cons, SplitAfter_cons.
  destruct (Ascii.eqb c newline).
  - intros H. apply String.eqb_eq in H. subst l. reflexivity.
  - intros H. rewrite (IH H). reflexivity.
Qed.

Lemma SplitAfter_lines (ls : list string) (tail : string) :
  Forall (fun l => fullLine l = true) ls → noNewline tail = true →
  SplitAfter (String.append (Join ls) tail) = ls ++ [tail].
Proof.
  intros Hls Ht. induction Hls as [|l ls Hl Hls IH].
  - apply SplitAfter_noNewline, Ht.
  - cbn [Join]. rewrite append_assoc, (SplitAfter_fullLine _ _ Hl), IH.
    reflexivity.
Qed.

(** ** Runs of untouched lines *)

Lemma offsetPastEnd_readLine (rd : lineRdr) (p : string) (eof : bool) :
  offsetPastEnd (readLine rd p eof) = offsetPastEnd rd + strlen p
  ∧ lineOffset (readLine rd p eof) = offsetPastEnd rd.
Proof. unfold offsetPastEnd, readLine. cbn. auto. Qed.

Lemma offsetPastEnd_readLines (seg : list string) :
  ∀ rd, offsetPastEnd (readLines rd seg)
        = offsetPastEnd rd + strlen (Join seg).
Proof.
  unfold readLines. induction seg as [|p seg IH]; intros rd.
  - cbn. unfold strlen. simpl. lia.
  - cbn [foldl Join]. rewrite IH, strlen_append.
    destruct (offsetPastEnd_readLine rd p false) as [-> _]. lia.
Qed.

Lemma unaffected (rd : lineRdr) (it : editIter) :
  nothingBefore (offsetPastEnd rd) it →
  currentLineIsAffectedBy rd (iterEdit it) = false.
Proof.
  unfold nothingBefore, currentLineIsAffectedBy.
  destruct (iterEdit it) as [e|]; [|reflexivity].
  intros H. destruct (Z.ltb_spec (eOffset e) (offsetPastEnd rd)); [lia|].
  reflexivity.
Qed.

(** Outside a hunk, lines before the next edit leave the state as it
    is. *)
Lemma cpRun_idle (seg : list string) :
  ∀ (R : Patch) (rd : lineRdr) (it : editIter) (t : Z),
    nothingBefore (offsetPastEnd rd + strlen (Join seg)) it →
    cpRun seg (mkCp R rd it HUNK_NOT_STARTED None t)
    = Ret (mkCp R (readLines rd seg) it HUNK_NOT_STARTED None t).
Proof.
  induction seg as [|p seg IH]; intros R rd it t Hnb; [reflexivity|].
  cbn [cpRun]. unfold cpBody, setReader. cbn [curState cpReader cpIter
    cpResult cpHunk trailingCtxLines].
  cbn [Join] in Hnb. rewrite strlen_append in Hnb.
  pose proof (strlen_nonneg (Join seg)) as Hs.
  destruct (offsetPastEnd_readLine rd p false) as [Hpe _].
  rewrite unaffected.
  - cbn [bind]. apply IH. rewrite Hpe.
    unfold nothingBefore in *. destruct (iterEdit it); [lia|exact I].
  - rewrite Hpe. unfold nothingBefore in *.
    destruct (iterEdit it); [lia|exact I].
Qed.

(** In a hunk whose last edit is attached, [t] lines of trailing context
    counted: the lines before the next edit are added to the hunk, which
    is closed with the line that brings the count to [2 * num_ctx_lines]. *)
Lemma cpRun_trailing (seg : list string) :
  ∀ (R : Patch) (rd : lineRdr) (it : editIter) (h : hunk) (t : Z),
    nothingBefore (offsetPastEnd rd + strlen (Join seg)) it →
    t < 2 * num_ctx_lines →
    cpRun seg (mkCp R rd it EDIT_ADDED_TO_HUNK (Some h) t)
    = Ret (if t + len seg <? 2 * num_ctx_lines
           then mkCp R (readLines rd seg) it EDIT_ADDED_TO_HUNK
                     (Some (foldl addLine h seg)) (t + len seg)
           else mkCp (Patch_add R (foldl addLine h
                        (take (Z.to_nat (2 * num_ctx_lines - t)) seg)))
                     (readLines rd seg) it HUNK_NOT_STARTED None
                     (2 * num_ctx_lines)).
Proof.
  unfold num_ctx_lines.
  induction seg as [|p seg IH]; intros R rd it h t Hnb Ht.
  - cbn [cpRun]. unfold len. simpl length.
    change (Z.of_nat 0) with 0. rewrite Z.add_0_r.
    destruct (Z.ltb_spec t (2 * 3)); [|lia]. reflexivity.
  - cbn [cpRun]. unfold cpBody, setReader. cbn [curState cpReader cpIter
      cpResult cpHunk trailingCtxLines line readLine].
    cbn [Join] in Hnb. rewrite strlen_append in Hnb.
    pose proof (strlen_nonneg (Join seg)) as Hs.
    destruct (offsetPastEnd_readLine rd p false) as [Hpe _].
    assert (Hnb' : nothingBefore
              (offsetPastEnd (readLine rd p false) + strlen (Join seg)) it).
    { rewrite Hpe. unfold nothingBefore in *.
      destruct (iterEdit it); [lia|exact I]. }
    rewrite unaffected.
    2:{ rewrite Hpe. unfold nothingBefore in *.
        destruct (iterEdit it); [lia|exact I]. }
    unfold num_ctx_lines. unfold len. simpl length.
    destruct (Z.ltb_spec (t + 1) (2 * 3)) as [H1|H1].
    + cbn [bind]. rewrite IH by (auto; lia).
      unfold len.
      replace (t + 1 + Z.of_nat (length seg))
        with (t + Z.of_nat (S (length seg))) by lia.
      destruct (Z.ltb_spec (t + Z.of_nat (S (length seg))) (2 * 3)).
      * reflexivity.
      * replace (Z.to_nat (2 * 3 - t)) with (S (Z.to_nat (2 * 3 - (t + 1))))
          by lia.
        reflexivity.
    + cbn [bind]. rewrite cpRun_idle by exact Hnb'.
      destruct (Z.ltb_spec (t + Z.of_nat (S (length seg))) (2 * 3)); [lia|].
      replace (Z.to_nat (2 * 3 - t)) with 1%nat by lia.
      replace (t + 1) with (2 * 3) by lia.
      reflexivity.
Qed.

(** ** A line with one edit inside *)

Lemma addAllEdits_loop_stop (cnt : nat) (h : hunk) (rd : lineRdr)
    (it : editIter) (last : option edit) :
  currentLineIsAffectedBy rd (iterEdit it) = false →
  addAllEdits_loop cnt h rd it last = (h, it, last).
Proof.
  intros H. destruct cnt as [|cnt]; [reflexivity|]. cbn [addAllEdits_loop].
  destruct (iterEdit it) as [e|]; [|reflexivity]. rewrite H. reflexivity.
Qed.

Lemma addAllEdits_one (h : hunk) (rd : lineRdr) (it : editIter) (e : edit) :
  iterEdit it = Some e →
  insideLine (lineOffset rd) (line rd) e →
  nothingBefore (offsetPastEnd rd) (moveToNextEdit it) →
  addAllEditsOnCurLine h rd it = (addEdit h e, moveToNextEdit it, Some e).
Proof.
  intros He (Ho & Hl & Hp) Hnb. unfold addAllEditsOnCurLine.
  pose proof He as Hlt. unfold iterEdit in Hlt. apply lookup_lt_Some in Hlt.
  destruct (length (iterEdits it) - nextIndex it)%nat as [|cnt] eqn:E; [lia|].
  cbn [addAllEdits_loop]. rewrite He.
  unfold currentLineIsAffectedBy, nextLineIsAffectedBy, offsetPastEnd in *.
  unfold OffsetPastEnd in *.
  destruct (Z.ltb_spec (eOffset e) (lineOffset rd + strlen (line rd))); [|lia].
  destruct (Z.leb_spec (lineOffset rd) (eOffset e + eLength e)); [|lia].
  destruct (Z.leb_spec (lineOffset rd + strlen (line rd))
                       (eOffset e + eLength e)); [lia|].
  cbn [andb]. apply addAllEdits_loop_stop. apply unaffected. exact Hnb.
Qed.

Lemma attachEdits_one (R : Patch) (rd : lineRdr) (it : editIter)
    (s : hunkState) (h0 : option hunk) (t0 : Z) (h : hunk) (e : edit) :
  iterEdit it = Some e →
  insideLine (lineOffset rd) (line rd) e →
  nothingBefore (offsetPastEnd rd) (moveToNextEdit it) →
  attachEdits (mkCp R rd it s h0 t0) h
  = mkCp R rd (moveToNextEdit it) EDIT_ADDED_TO_HUNK (Some (addEdit h e))
         (if editAddsToStart rd (Some e) then 1 else 0).
Proof.
  intros He Hin Hnb. unfold attachEdits. cbn [cpReader cpIter cpResult].
  rewrite (addAllEdits_one h rd it e He Hin Hnb).
  destruct Hin as (Ho & Hl & Hp).
  unfold nextLineIsAffectedBy, offsetPastEnd in *.
  destruct (Z.leb_spec (lineOffset rd + strlen (line rd)) (OffsetPastEnd e));
    [lia|].
  reflexivity.
Qed.

Lemma affected_inside (rd : lineRdr) (e : edit) :
  insideLine (lineOffset rd) (line rd) e →
  currentLineIsAffectedBy rd (Some e) = true.
Proof.
  intros (Ho & Hl & Hp).
  unfold currentLineIsAffectedBy, offsetPastEnd, OffsetPastEnd in *.
  destruct (Z.ltb_spec (eOffset e) (lineOffset rd + strlen (line rd))); [|lia].
  destruct (Z.leb_spec (lineOffset rd) (eOffset e + eLength e)); [|lia].
  reflexivity.
Qed.

Lemma addEdit_fields (h : hunk) (e : edit) :
  edits (addEdit h e) = edits h ++ [RelativeToOffset e (startOffset h)]
  ∧ startOffset (addEdit h e) = startOffset h.
Proof. split; reflexivity. Qed.

Lemma addLine_fields (h : hunk) (p : string) :
  edits (addLine h p) = edits h ∧ startOffset (addLine h p) = startOffset h.
Proof. split; reflexivity. Qed.

Lemma foldl_addLine_fields (seg : list string) :
  ∀ h, edits (foldl addLine h seg) = edits h
       ∧ startOffset (foldl addLine h seg) = startOffset h.
Proof.
  induction seg as [|p seg IH]; intros h; [auto|].
  cbn [foldl]. destruct (IH (addLine h p)) as [-> ->]. auto.
Qed.

(** With no edit left, the open hunk is closed once, by the loop or by
    the flush that follows it, with its edits as they are. *)
Lemma finish_open (post : list string) (tail : string) (R : Patch)
    (rd : lineRdr) (it : editIter) (h : hunk) (t : Z) :
  iterEdit it = None → t < 2 * num_ctx_lines →
  ∃ h' : hunk,
    (st' <- cpLoop (post ++ [tail])
                   (mkCp R rd it EDIT_ADDED_TO_HUNK (Some h) t) ;;
     cpFlush st')
    = Ret (Patch_add R h')
    ∧ edits h' = edits h ∧ startOffset h' = startOffset h.
Proof.
  intros Hit Ht. rewrite cpLoop_run by discriminate.
  rewrite cpRun_trailing; [|unfold nothingBefore; rewrite Hit; exact I|exact Ht].
  cbn [bind]. rewrite cpLoop_last.
  destruct (_ <? _); cbn [bind]; unfold cpFlush, setReader;
    cbn [curState cpHunk cpResult cpReader].
  - eexists. split; [reflexivity|].
    destruct (String.eqb _ _); cbn [addLine edits startOffset];
      apply foldl_addLine_fields.
  - eexists. split; [reflexivity|]. apply foldl_addLine_fields.
Qed.

Lemma editsOf_nonempty (e : editSet) (key : string) (x : edit)
    (l : list edit) :
  editsOf e key = x :: l → bool_decide (size e = 0%nat) = false.
Proof.
  intros H. apply bool_decide_eq_false. intros Hs.
  apply map_size_empty_iff in Hs. subst e.
  rewrite editsOf_empty in H. discriminate.
Qed.

Lemma startHunk_edits (rd : lineRdr) : edits (startHunk rd) = [].
Proof. apply (rebased_startHunk rd). Qed.

Lemma cpBody_start (R : Patch) (rd0 rd : lineRdr) (it : editIter) (t : Z) :
  currentLineIsAffectedBy rd (iterEdit it) = true →
  cpBody (setReader (mkCp R rd0 it HUNK_NOT_STARTED None t) rd)
  = Ret (attachEdits (mkCp R rd it HUNK_NOT_STARTED None t) (startHunk rd)).
Proof. intros H. unfold cpBody, setReader. cbn. rewrite H. reflexivity. Qed.

Lemma cpBody_merge (R : Patch) (rd0 rd : lineRdr) (it : editIter) (h : hunk)
    (t : Z) :
  currentLineIsAffectedBy rd (iterEdit it) = true →
  cpBody (setReader (mkCp R rd0 it EDIT_ADDED_TO_HUNK (Some h) t) rd)
  = Ret (attachEdits (mkCp R rd it EDIT_ADDED_TO_HUNK (Some h) t)
                     (addLine h (line rd))).
Proof. intros H. unfold cpBody, setReader. cbn. rewrite H. reflexivity. Qed.

(** ** Two edits and the lines between them *)

(** Two edits, each inside a line of its own, with the lines [gap] between
    the two lines.  With [t = 1] when the first edit inserts at the very
    start of its line and [t = 0] otherwise: when [t + len(gap)] is less
    than [2 * num_ctx_lines] the patch has one hunk, which holds both
    edits; otherwise it has two hunks, one edit in each. *)
Theorem two_edits_hunks (e : editSet) (key : string)
    (pre gap post : list string) (l1 l2 tail : string) (e1 e2 : edit) :
  Forall (fun l => fullLine l = true) (pre ++ l1 :: gap ++ l2 :: post) →
  noNewline tail = true →
  editsOf e key = [e1; e2] →
  insideLine (strlen (Join pre)) l1 e1 →
  insideLine (strlen (Join pre) + strlen l1 + strlen (Join gap)) l2 e2 →
  ∃ p : Patch,
    createPatch e key
      (String.append (Join (pre ++ l1 :: gap ++ l2 :: post)) tail) = Ret p
    ∧ if (if (eOffset e1 =? strlen (Join pre)) && (eLength e1 =? 0)
          then 1 else 0) + len gap <? 2 * num_ctx_lines
      then ∃ h, hunks p = [h]
                ∧ edits h = [RelativeToOffset e1 (startOffset h);
                             RelativeToOffset e2 (startOffset h)]
      else ∃ h1 h2, hunks p = [h1; h2]
                    ∧ edits h1 = [RelativeToOffset e1 (startOffset h1)]
                    ∧ edits h2 = [RelativeToOffset e2 (startOffset h2)].
Proof.
  intros Hfull Htail HE Hin1 Hin2.
  unfold createPatch. rewrite (editsOf_nonempty _ _ _ _ HE).
  rewrite (SplitAfter_lines _ _ Hfull Htail).
  unfold newEditIter. rewrite HE.
  replace ((pre ++ l1 :: gap ++ l2 :: post) ++ [tail])
    with (pre ++ ([l1] ++ (gap ++ ([l2] ++ (post ++ [tail])))))
    by (rewrite <- !app_assoc; simpl; rewrite <- !app_assoc; reflexivity).
  set (it0 := mkEditIter [e1; e2] 0).
  set (R0 := mkPatch key []).
  (* the lines before the first edit *)
  rewrite cpLoop_run by discriminate.
  assert (H0 : offsetPastEnd newLineRdr = 0) by reflexivity.
  rewrite cpRun_idle.
  2:{ rewrite H0. unfold nothingBefore. cbn. destruct Hin1 as [? _]. lia. }
  cbn [bind].
  set (rdp := readLines newLineRdr pre).
  assert (Hrdp : offsetPastEnd rdp = strlen (Join pre)).
  { subst rdp. rewrite offsetPastEnd_readLines, H0. lia. }
  (* the line of the first edit *)
  rewrite cpLoop_run by (destruct gap; discriminate).
  cbn [cpRun cpReader].
  set (rd1 := readLine rdp l1 false).
  destruct (offsetPastEnd_readLine rdp l1 false) as [Hpe1 Hlo1].
  fold rd1 in Hpe1, Hlo1. rewrite Hrdp in Hpe1, Hlo1.
  assert (Hin1' : insideLine (lineOffset rd1) (line rd1) e1)
    by (rewrite Hlo1; exact Hin1).
  assert (Hie1 : iterEdit it0 = Some e1) by reflexivity.
  rewrite cpBody_start by (rewrite Hie1; apply affected_inside, Hin1').
  rewrite (attachEdits_one _ _ _ _ _ _ _ e1 Hie1 Hin1').
  2:{ unfold nothingBefore. cbn. rewrite Hpe1.
      destruct Hin2 as [? _]. pose proof (strlen_nonneg (Join gap)). lia. }
  cbn [bind].
  set (it1 := moveToNextEdit it0).
  set (hA := addEdit (startHunk rd1) e1).
  assert (HhA : edits hA = [RelativeToOffset e1 (startOffset hA)]).
  { subst hA. destruct (addEdit_fields (startHunk rd1) e1) as [-> ->].
    rewrite startHunk_edits. reflexivity. }
  unfold editAddsToStart. rewrite Hlo1.
  set (t := if (eOffset e1 =? strlen (Join pre)) && (eLength e1 =? 0)
            then 1 else 0).
  assert (Ht : 0 ≤ t ≤ 1) by (subst t; destruct (_ && _); lia).
  (* the lines between the edits *)
  rewrite cpLoop_run by discriminate.
  rewrite cpRun_trailing.
  2:{ unfold nothingBefore. cbn. rewrite Hpe1. destruct Hin2 as [? _]. lia. }
  2:{ unfold num_ctx_lines. lia. }
  cbn [bind].
  set (rdg := readLines rd1 gap).
  assert (Hrdg : offsetPastEnd rdg
                 = strlen (Join pre) + strlen l1 + strlen (Join gap)).
  { subst rdg. rewrite offsetPastEnd_readLines, Hpe1. reflexivity. }
  assert (Hie2 : iterEdit it1 = Some e2) by reflexivity.
  assert (Hie3 : iterEdit (moveToNextEdit it1) = None) by reflexivity.
  destruct (t + len gap <? 2 * num_ctx_lines).
  - (* one hunk *)
    rewrite cpLoop_run by (destruct post; discriminate).
    cbn [cpRun cpReader].
    set (rd2 := readLine rdg l2 false).
    destruct (offsetPastEnd_readLine rdg l2 false) as [Hpe2 Hlo2].
    fold rd2 in Hpe2, Hlo2. rewrite Hrdg in Hpe2, Hlo2.
    assert (Hin2' : insideLine (lineOffset rd2) (line rd2) e2)
      by (rewrite Hlo2; exact Hin2).
    rewrite cpBody_merge by (rewrite Hie2; apply affected_inside, Hin2').
    rewrite (attachEdits_one _ _ _ _ _ _ _ e2 Hie2 Hin2').
    2:{ unfold nothingBefore. rewrite Hie3. exact I. }
    cbn [bind].
    match goal with
    | |- context [cpLoop (post ++ [tail])
                         (mkCp ?R ?rd ?it _ (Some ?h) ?t')] =>
        destruct (finish_open post tail R rd it h t' Hie3)
          as (h' & Hfin & Hed & Hso)
    end.
    { unfold num_ctx_lines. destruct (editAddsToStart _ _); lia. }
    rewrite Hfin. eexists. split; [reflexivity|].
    exists h'. split; [reflexivity|].
    rewrite Hed, Hso.
    rewrite (proj1 (addEdit_fields _ _)), (proj2 (addEdit_fields _ _)).
    rewrite (proj1 (addLine_fields _ _)), (proj2 (addLine_fields _ _)).
    destruct (foldl_addLine_fields gap hA) as [-> ->]. rewrite HhA.
    reflexivity.
  - (* two hunks *)
    rewrite cpLoop_run by (destruct post; discriminate).
    cbn [cpRun cpReader].
    set (rd2 := readLine rdg l2 false).
    destruct (offsetPastEnd_readLine rdg l2 false) as [Hpe2 Hlo2].
    fold rd2 in Hpe2, Hlo2. rewrite Hrdg in Hpe2, Hlo2.
    assert (Hin2' : insideLine (lineOffset rd2) (line rd2) e2)
      by (rewrite Hlo2; exact Hin2).
    rewrite cpBody_start by (rewrite Hie2; apply affected_inside, Hin2').
    rewrite (attachEdits_one _ _ _ _ _ _ _ e2 Hie2 Hin2').
    2:{ unfold nothingBefore. rewrite Hie3. exact I. }
    cbn [bind].
    match goal with
    | |- context [cpLoop (post ++ [tail])
                         (mkCp ?R ?rd ?it _ (Some ?h) ?t')] =>
        destruct (finish_open post tail R rd it h t' Hie3)
          as (h' & Hfin & Hed & Hso)
    end.
    { unfold num_ctx_lines. destruct (editAddsToStart _ _); lia. }
    rewrite Hfin. eexists. split; [reflexivity|].
    eexists _, h'. split; [reflexivity|].
    split.
    + destruct (foldl_addLine_fields
                  (take (Z.to_nat (2 * num_ctx_lines - t)) gap) hA)
        as [-> ->]. exact HhA.
    + rewrite Hed, Hso.
      rewrite (proj1 (addEdit_fields _ _)), (proj2 (addEdit_fields _ _)).
      rewrite startHunk_edits. reflexivity.
Qed.

Lemma two_edits_hunks_witness :
  ∃ p : Patch,
    createPatch sample_edits "f"
      (String.append
         (Join ([] ++ sample_first :: sample_gap ++ sample_last :: []))
         EmptyString) = Ret p
    ∧ if (if (eOffset sample_insert =? strlen (Join []))
             && (eLength sample_insert =? 0)
          then 1 else 0) + len sample_gap <? 2 * num_ctx_lines
      then ∃ h, hunks p = [h]
                ∧ edits h = [RelativeToOffset sample_insert (startOffset h);
                             RelativeToOffset sample_replace (startOffset h)]
      else ∃ h1 h2, hunks p = [h1; h2]
                    ∧ edits h1 = [RelativeToOffset sample_insert
                                                   (startOffset h1)]
                    ∧ edits h2 = [RelativeToOffset sample_replace
                                                   (startOffset h2)].
Proof.
  apply (two_edits_hunks sample_edits "f" [] sample_gap [] sample_first
           sample_last EmptyString sample_insert sample_replace).
  - repeat constructor.
  - reflexivity.
  - vm_compute. reflexivity.
  - unfold insideLine, OffsetPastEnd. vm_compute.
    repeat split; congruence.
  - unfold insideLine, OffsetPastEnd. vm_compute.
    repeat split; congruence.
Defined.

(** ** Substrings *)

Lemma substring_0_0 (s : string) : substring 0 0 s = EmptyString.
Proof. destruct s; reflexivity. Qed.

Lemma substring_n_0 (s : string) : ∀ n, substring n 0 s = EmptyString.
Proof.
  induction s as [|c s IH]; intros [|n]; try reflexivity. simpl. apply IH.
Qed.

Lemma substring_all (s : string) : substring 0 (String.length s) s = s.
Proof. induction s as [|c s IH]; simpl; [reflexivity|]. rewrite IH. reflexivity. Qed.

Lemma substring_split (s : string) :
  ∀ p l1 l2 : nat,
    (p + l1 + l2 ≤ String.length s)%nat →
    substring p (l1 + l2) s
    = String.append (substring p l1 s) (substring (p + l1) l2 s).
Proof.
  induction s as [|c s IH]; intros p l1 l2 H.
  - simpl in H. assert (p = 0 ∧ l1 = 0 ∧ l2 = 0)%nat as (-> & -> & ->) by lia.
    reflexivity.
  - destruct p as [|p].
    + destruct l1 as [|l1].
      * simpl. reflexivity.
      * simpl in H. simpl. rewrite append_cons. f_equal.
        apply (IH 0%nat l1 l2). simpl. lia.
    + simpl in H. simpl. apply IH. lia.
Qed.

Lemma substring_skip (s1 s2 : string) (p l : nat) :
  substring (String.length s1 + p) l (String.append s1 s2) = substring p l s2.
Proof.
  induction s1 as [|c s1 IH]; [reflexivity|].
  rewrite append_cons. simpl. exact IH.
Qed.

Lemma substring_prefix (s1 s2 : string) :
  substring 0 (String.length s1) (String.append s1 s2) = s1.
Proof.
  induction s1 as [|c s1 IH]; [apply substring_0_0|].
  rewrite append_cons. simpl. rewrite IH. reflexivity.
Qed.

Lemma length_append (s1 s2 : string) :
  String.length (String.append s1 s2)
  = (String.length s1 + String.length s2)%nat.
Proof.
  pose proof (strlen_append s1 s2) as H. unfold strlen in H. lia.
Qed.

(** ** Units of a text *)

Section Units.
Variable a : list string.

Lemma Join_take_drop (x : nat) :
  Join a = String.append (Join (take x a)) (Join (drop x a)).
Proof. rewrite <- Join_app, take_drop. reflexivity. Qed.

Lemma unitOffset_nat (x : nat) :
  Z.to_nat (unitOffset x a) = String.length (Join (take x a)).
Proof. unfold unitOffset, strlen. lia. Qed.

Lemma unitOffset_all (x : nat) :
  (length a ≤ x)%nat → unitOffset x a = strlen (Join a).
Proof. intros H. unfold unitOffset. rewrite take_ge by lia. reflexivity. Qed.

Lemma unitOffset_le (x : nat) : unitOffset x a ≤ strlen (Join a).
Proof.
  rewrite <- (unitOffset_all (length a)) by lia.
  destruct (le_lt_dec x (length a)).
  - apply unitOffset_mono. lia.
  - rewrite (unitOffset_all x) by lia.
    rewrite (unitOffset_all (length a)) by lia. lia.
Qed.

Lemma unitOffset_add (x l : nat) :
  unitOffset (x + l) a
  = unitOffset x a + strlen (Join (take l (drop x a))).
Proof.
  unfold unitOffset. rewrite <- take_take_drop, Join_app, strlen_append.
  reflexivity.
Qed.

(** The text between two unit boundaries. *)
Lemma substring_units (x l : nat) :
  substring (Z.to_nat (unitOffset x a))
            (Z.to_nat (unitOffset (x + l) a - unitOffset x a)) (Join a)
  = Join (take l (drop x a)).
Proof.
  rewrite unitOffset_add, unitOffset_nat.
  replace (Z.to_nat (unitOffset x a + strlen (Join (take l (drop x a)))
                     - unitOffset x a))
    with (String.length (Join (take l (drop x a))))
    by (unfold strlen; lia).
  rewrite (Join_take_drop x).
  rewrite <- (Nat.add_0_r (String.length (Join (take x a)))).
  rewrite substring_skip.
  rewrite <- (take_drop l (drop x a)) at 2.
  rewrite Join_app. apply substring_prefix.
Qed.

(** The text from a unit boundary to the end. *)
Lemma substring_units_end (x : nat) :
  substring (Z.to_nat (unitOffset x a))
            (String.length (Join a) - Z.to_nat (unitOffset x a)) (Join a)
  = Join (drop x a).
Proof.
  rewrite unitOffset_nat.
  generalize (Join_take_drop x).
  generalize (Join (take x a)) (Join (drop x a)) (Join a).
  intros s1 s2 s ->. rewrite length_append.
  replace (String.length s1 + String.length s2 - String.length s1)%nat
    with (String.length s2) by lia.
  rewrite <- (Nat.add_0_r (String.length s1)) at 1.
  rewrite substring_skip. apply substring_all.
Qed.
End Units.

(** ** Applying edits placed at unit boundaries *)

Lemma insertEdit_first (e : edit) (l : list edit) :
  Forall (λ e', eOffset e ≤ eOffset e') l → insertEdit e l = e :: l.
Proof.
  intros H. destruct H as [|e' l He' Hl]; [reflexivity|].
  cbn [insertEdit]. destruct (Z.ltb_spec (eOffset e') (eOffset e)); [lia|].
  reflexivity.
Qed.

Lemma applyEdits_nil_units (a : list string) (x : nat) :
  applyEdits [] (unitOffset x a) (Join a) = Some (Join (drop x a)).
Proof. cbn [applyEdits]. rewrite substring_units_end. reflexivity. Qed.

(** Starting [l] units earlier copies these units first. *)
Lemma applyEdits_skip (a : list string) (E : list edit) (x l : nat)
    (r : string) :
  Forall (λ e, unitOffset (x + l) a ≤ eOffset e) E →
  applyEdits E (unitOffset (x + l) a) (Join a) = Some r →
  applyEdits E (unitOffset x a) (Join a)
  = Some (String.append (Join (take l (drop x a))) r).
Proof.
  intros HF H. pose proof (unitOffset_mono a x (x + l) ltac:(lia)) as Hm.
  assert (0 ≤ unitOffset x a) as H0
    by (rewrite <- (unitOffset_0 a); apply unitOffset_mono; lia).
  destruct HF as [|e E He HE].
  - rewrite applyEdits_nil_units in H. injection H as <-.
    rewrite applyEdits_nil_units. f_equal.
    rewrite <- Join_app. rewrite <- drop_drop, take_drop. reflexivity.
  - cbn [applyEdits] in *.
    destruct (Z.ltb_spec (eOffset e) (unitOffset (x + l) a)) as [Hlt|_];
      [lia|].
    destruct (Z.ltb_spec (eOffset e) (unitOffset x a)) as [Hlt|_]; [lia|].
    destruct (Z.ltb_spec (eLength e) 0) as [|Hlen]; [discriminate|].
    destruct (Z.ltb_spec (strlen (Join a)) (OffsetPastEnd e)) as [|Hend];
      [discriminate|].
    cbn [orb] in *.
    destruct (applyEdits E (OffsetPastEnd e) (Join a)) as [rest|];
      [|discriminate].
    injection H as <-. f_equal.
    rewrite <- (append_assoc (Join (take l (drop x a)))). f_equal.
    rewrite <- (substring_units a x l).
    replace (Z.to_nat (unitOffset (x + l) a))
      with (Z.to_nat (unitOffset x a)
            + Z.to_nat (unitOffset (x + l) a - unitOffset x a))%nat by lia.
    rewrite <- substring_split.
    + f_equal. lia.
    + unfold OffsetPastEnd, strlen in Hend. lia.
Qed.

(** ** One step of the backtrace *)

Section BacktraceStep.
Variable f : string.
Variables a b : list string.
Variable offset : Z.

(** An entry [x > 0] is read as an insertion of [b[x0 - (k+1)]] before
    unit [x0] of [a], where [x0] is the entry of diagonal [k + 1] one
    round earlier. *)
Lemma backtrace_ins_step (v vprev : list Z) (rest : list (list Z)) (k : Z)
    (res : editSet) (x x0 : nat) (s0 : Z) (u : string) :
  index v (offset + k) = Ret (Z.of_nat x) →
  (1 ≤ x)%nat →
  index vprev (offset + (k + 1)) = Ret s0 →
  abs s0 = Z.of_nat x0 →
  (x0 ≤ length a)%nat →
  0 ≤ Z.of_nat x0 - (k + 1) →
  b !! Z.to_nat (Z.of_nat x0 - (k + 1)) = Some u →
  backtrace (v :: vprev :: rest) f a b offset k res
  = backtrace (vprev :: rest) f a b offset (k + 1)
      (Add res f (mkOL (unitOffset x0 a) 0) u).
Proof.
  intros Hv Hx Hp Hs0 Hx0 Hy Hu.
  rewrite backtrace_step. rewrite Hv. cbn [bind]. cbv zeta.
  destruct (Z.ltb_spec 0 (Z.of_nat x)) as [_|]; [|lia].
  rewrite Hp. cbn [bind]. rewrite Hs0, abs_of_nat.
  replace (Z.of_nat x - (Z.of_nat x - k - (Z.of_nat x0 - (k + 1)) - 1))
    with (Z.of_nat x0) by lia.
  rewrite offsetOfString_eq. unfold len.
  destruct (Z.leb_spec (Z.of_nat x0) (Z.of_nat (length a))); [|lia].
  cbn [bind]. rewrite Nat2Z.id.
  replace (Z.of_nat x - k - (Z.of_nat x - k - (Z.of_nat x0 - (k + 1)) - 1)
           - 1)
    with (Z.of_nat x0 - (k + 1)) by lia.
  unfold slice1, index.
  destruct (Z.ltb_spec (Z.of_nat x0 - (k + 1)) 0); [lia|].
  rewrite Hu. cbn [bind]. rewrite Join_singleton. reflexivity.
Qed.

(** An entry [-x] is read as the deletion of unit [x'] of [a], where
    [x'] is the entry of diagonal [k - 1] one round earlier. *)
Lemma backtrace_del_step (v vprev : list Z) (rest : list (list Z)) (k : Z)
    (res : editSet) (x x' : nat) (s0 : Z) (u : string) :
  index v (offset + k) = Ret (- Z.of_nat x) →
  index vprev (offset + (k - 1)) = Ret s0 →
  abs s0 = Z.of_nat x' →
  a !! x' = Some u →
  backtrace (v :: vprev :: rest) f a b offset k res
  = backtrace (vprev :: rest) f a b offset (k - 1)
      (Add res f (mkOL (unitOffset x' a) (strlen u)) EmptyString).
Proof.
  intros Hv Hp Hs0 Hu.
  rewrite backtrace_step. rewrite Hv. cbn [bind]. cbv zeta.
  destruct (Z.ltb_spec 0 (- Z.of_nat x)) as [|_]; [lia|].
  rewrite Hp. cbn [bind]. rewrite Hs0, abs_opp_of_nat.
  replace (Z.of_nat x - (Z.of_nat x - Z.of_nat x' - 1) - 1)
    with (Z.of_nat x') by lia.
  pose proof (lookup_lt_Some _ _ _ Hu) as Hlt.
  rewrite offsetOfString_eq. unfold len.
  destruct (Z.leb_spec (Z.of_nat x') (Z.of_nat (length a))); [|lia].
  cbn [bind]. rewrite Nat2Z.id.
  rewrite (index_Some _ _ _ Hu). cbn [bind]. reflexivity.
Qed.
End BacktraceStep.

(** ** The backtrace along a traced history *)

Lemma Ran_units (a : list string) (x0 : nat) (us : list string) :
  take (x0 + length us) a = take x0 a ++ us →
  take (length us) (drop x0 a) = us.
Proof.
  intros H. rewrite take_drop_commute, H, drop_app.
  rewrite drop_ge by (rewrite length_take; lia).
  apply (f_equal length) in H. rewrite length_app, !length_take in H.
  destruct (le_lt_dec x0 (length a)).
  - replace (x0 - length (take x0 a))%nat with 0%nat
      by (rewrite length_take; lia).
    reflexivity.
  - destruct us; [rewrite drop_nil; reflexivity|]. simpl in H. lia.
Qed.

Lemma Join_drop_split (b : list string) (y l : nat) :
  Join (drop y b)
  = String.append (Join (take l (drop y b))) (Join (drop (y + l) b)).
Proof. rewrite <- Join_app, <- drop_drop, take_drop. reflexivity. Qed.

Section TraceBack.
Variable f : string.
Variables a b : list string.
Variable N : nat.
Hypothesis Hhd : ∃ u, a !! 0%nat = Some u ∧ b !! 0%nat = Some u.

(** When [a] and [b] start with the same unit, no traced entry is [0]:
    the sign of an entry tells how it was reached. *)
Lemma Trace_facts (d i : nat) (rvs : list (list Z)) :
  Trace a b N d i rvs →
  ∃ (v : list Z) (rest : list (list Z)) (x : nat),
    rvs = v :: rest ∧ length v = (2 * N)%nat ∧ (i ≤ d)%nat
    ∧ abs (entry v N d i) = Z.of_nat x ∧ (1 ≤ x)%nat ∧ (i ≤ x)%nat.
Proof.
  induction 1 as
    [v x Hlen Hent Hran
    |d i v vprev rest x0 x Hlen Htr IH Hid Hx0 Hix0 Hran Hent
    |d i v vprev rest x0 x Hlen Htr IH Hid Hx0 Hix0 Hran Hent].
  - exists v, [], x. rewrite Hent, abs_of_nat.
    repeat (split; [first [reflexivity|assumption|lia]|]).
    split; [|lia].
    destruct Hran as (us & -> & _ & _ & Hstop).
    destruct us as [|u0 us]; [|simpl; lia].
    destruct Hhd as (u & Hu1 & Hu2). exfalso. exact (Hstop u Hu1 Hu2).
  - destruct IH as (v' & rest' & x' & Heq & _ & _ & Habs & Hx' & _).
    injection Heq as <- <-.
    destruct Hran as (us & -> & _).
    exists v, (vprev :: rest), (x0 + length us)%nat.
    rewrite Hent, abs_of_nat.
    repeat (split; [first [reflexivity|assumption|lia]|]). lia.
  - destruct IH as (v' & rest' & x' & Heq & _ & _ & Habs & Hx' & _).
    injection Heq as <- <-.
    destruct Hran as (us & -> & _).
    exists v, (vprev :: rest), (x0 + length us)%nat.
    rewrite Hent, abs_opp_of_nat.
    repeat (split; [first [reflexivity|assumption|lia]|]). lia.
Qed.

Lemma first_edit (E : list edit) (x0 x : nat) (e : edit) :
  (x0 ≤ x)%nat →
  eOffset e = unitOffset x0 a →
  Forall (λ e', unitOffset x a ≤ eOffset e') E →
  Forall (λ e', eOffset e ≤ eOffset e') E.
Proof.
  intros Hx He HF. pose proof (unitOffset_mono a x0 x Hx).
  eapply Forall_impl; [exact HF|]. cbv beta. intros e' He'. lia.
Qed.

Lemma Trace_backtrace (d i : nat) (rvs : list (list Z)) :
  Trace a b N d i rvs →
  ∀ (v : list Z) (rest : list (list Z)) (x : nat) (res : editSet),
    rvs = v :: rest →
    (d < N)%nat →
    abs (entry v N d i) = Z.of_nat x →
    (x ≤ length a)%nat →
    (x + (d - i) - i ≤ length b)%nat →
    Forall (λ e, unitOffset x a ≤ eOffset e) (editsOf res f) →
    applyEdits (editsOf res f) (unitOffset x a) (Join a)
    = Some (Join (drop (x + (d - i) - i) b)) →
    ∃ es : editSet,
      backtrace rvs f a b (Z.of_nat N) (2 * Z.of_nat i - Z.of_nat d) res
      = Ret es
      ∧ ApplyToString es f (Join a) = Some (Join b).
Proof.
  induction 1 as
    [v x1 Hlen Hent Hran
    |d i v vprev rest x0 x1 Hlen Htr IH Hid Hx0 Hix0 Hran Hent
    |d i v vprev rest x0 x1 Hlen Htr IH Hid Hx0 Hix0 Hran Hent];
    intros v0 rest0 x res Heq HdN Habs Hxa Hyb HF Happ;
    injection Heq as <- <-.
  - exists res. split; [reflexivity|].
    unfold ApplyToString. rewrite <- (unitOffset_0 a).
    rewrite (applyEdits_skip a _ 0 x _ HF Happ). f_equal.
    rewrite Hent, abs_of_nat in Habs. apply Nat2Z.inj in Habs. subst x1.
    destruct Hran as (us & Hx & Ha & Hb & _).
    simpl in Hx, Ha, Hb. rewrite drop_0.
    replace (x + (0 - 0) - 0)%nat with x by lia.
    subst x.
    assert (take (length us) a = take (length us) b) as Hab
      by (rewrite Ha, Hb; reflexivity).
    rewrite Hab, <- Join_app, take_drop. reflexivity.
  - rewrite Hent, abs_of_nat in Habs. apply Nat2Z.inj in Habs. subst x1.
    destruct (Trace_facts _ _ _ Htr)
      as (v' & rest' & x' & Heq & Hlenp & _ & Habs' & Hx'1 & _).
    injection Heq as <- <-.
    assert (x' = x0) as -> by lia.
    destruct Hran as (us & Hx & Ha & Hb & _).
    assert (is_Some (b !! (x0 + (d - i) - i)%nat)) as [u Hu]
      by (apply lookup_lt_is_Some; lia).
    rewrite (backtrace_ins_step f a b _ v vprev rest _ res x x0
               (entry vprev N d i) u).
    + replace (2 * Z.of_nat i - Z.of_nat (S d) + 1)
        with (2 * Z.of_nat i - Z.of_nat d) by lia.
      apply (IH vprev rest x0 _ eq_refl); try lia.
      * rewrite editsOf_Add, insertEdit_first
          by (apply (first_edit _ x0 x); [lia|reflexivity|exact HF]).
        constructor; [cbn; lia|].
        apply (first_edit _ x0 x (mkEdit (mkOL (unitOffset x0 a) 0) u));
          [lia|reflexivity|exact HF].
      * rewrite editsOf_Add, insertEdit_first
          by (apply (first_edit _ x0 x); [lia|reflexivity|exact HF]).
        cbn [applyEdits]. unfold OffsetPastEnd. cbn [eOffset eLength ol
          Offset Length replacement].
        pose proof (unitOffset_le a x0) as Hle.
        destruct (Z.ltb_spec (unitOffset x0 a) (unitOffset x0 a)); [lia|].
        destruct (Z.ltb_spec (strlen (Join a)) (unitOffset x0 a + 0));
          [lia|].
        cbn [orb Z.ltb Z.compare]. rewrite Z.add_0_r.
        subst x. rewrite (applyEdits_skip a _ x0 (length us) _ HF Happ).
        f_equal. rewrite Z.sub_diag. cbn [Z.to_nat].
        rewrite substring_n_0, append_nil_l.
        rewrite (Ran_units a x0 us Ha).
        rewrite (Join_drop_split b (x0 + (d - i) - i) 1).
        rewrite (Join_drop_split b (x0 + (d - i) - i + 1) (length us)).
        replace (x0 + (d - i) - i + 1)%nat with (x0 + (S d - i) - i)%nat
          by lia.
        rewrite (Ran_units b _ us Hb).
        rewrite (take_S_r (drop (x0 + (d - i) - i) b) 0 u)
          by (rewrite lookup_drop, Nat.add_0_r; exact Hu).
        rewrite take_0. cbn [app]. rewrite Join_singleton.
        repeat f_equal. lia.
    + replace (Z.of_nat N + (2 * Z.of_nat i - Z.of_nat (S d)))
        with (Z.of_nat (N + 2 * i - S d)) by lia.
      apply index_Some. rewrite <- Hent. unfold entry.
      apply list_lookup_lookup_total_lt. lia.
    + lia.
    + replace (Z.of_nat N + (2 * Z.of_nat i - Z.of_nat (S d) + 1))
        with (Z.of_nat (N + 2 * i - d)) by lia.
      apply index_Some. unfold entry.
      apply list_lookup_lookup_total_lt. lia.
    + symmetry. exact Hx0.
    + lia.
    + lia.
    + replace (Z.to_nat (Z.of_nat x0 - (2 * Z.of_nat i - Z.of_nat (S d) + 1)))
        with (x0 + (d - i) - i)%nat by lia.
      exact Hu.
  - rewrite Hent, abs_opp_of_nat in Habs. apply Nat2Z.inj in Habs.
    subst x1.
    destruct (Trace_facts _ _ _ Htr)
      as (v' & rest' & x' & Heq & Hlenp & _ & Habs' & Hx'1 & Hix').
    injection Heq as <- <-.
    assert (x0 = S x') as -> by lia.
    destruct Hran as (us & Hx & Ha & Hb & _).
    assert (is_Some (a !! x')) as [u Hu]
      by (apply lookup_lt_is_Some; lia).
    rewrite (backtrace_del_step f a b _ v vprev rest _ res x x'
               (entry vprev N d i) u).
    + replace (2 * Z.of_nat (S i) - Z.of_nat (S d) - 1)
        with (2 * Z.of_nat i - Z.of_nat d) by lia.
      apply (IH vprev rest x' _ eq_refl); try lia.
      * rewrite editsOf_Add, insertEdit_first
          by (apply (first_edit _ x' x); [lia|reflexivity|exact HF]).
        constructor; [cbn; lia|].
        apply (first_edit _ x' x
                 (mkEdit (mkOL (unitOffset x' a) (strlen u)) EmptyString));
          [lia|reflexivity|exact HF].
      * rewrite editsOf_Add, insertEdit_first
          by (apply (first_edit _ x' x); [lia|reflexivity|exact HF]).
        cbn [applyEdits]. unfold OffsetPastEnd. cbn [eOffset eLength ol
          Offset Length replacement].
        rewrite <- (unitOffset_S a x' u Hu).
        pose proof (unitOffset_le a (S x')) as Hle.
        pose proof (strlen_nonneg u) as Hu0.
        destruct (Z.ltb_spec (unitOffset x' a) (unitOffset x' a)); [lia|].
        destruct (Z.ltb_spec (strlen u) 0); [lia|].
        destruct (Z.ltb_spec (strlen (Join a)) (unitOffset (S x') a));
          [lia|].
        cbn [orb].
        subst x. rewrite (applyEdits_skip a _ (S x') (length us) _ HF Happ).
        f_equal. rewrite Z.sub_diag. cbn [Z.to_nat].
        rewrite substring_n_0, !append_nil_l.
        rewrite (Ran_units a (S x') us Ha).
        rewrite (Join_drop_split b (x' + (d - i) - i) (length us)).
        replace (x' + (d - i) - i)%nat with (S x' + (d - i) - S i)%nat
          by lia.
        rewrite (Ran_units b _ us Hb).
        repeat f_equal. lia.
    + replace (Z.of_nat N + (2 * Z.of_nat (S i) - Z.of_nat (S d)))
        with (Z.of_nat (N + 2 * S i - S d)) by lia.
      apply index_Some. rewrite <- Hent. unfold entry.
      apply list_lookup_lookup_total_lt. lia.
    + replace (Z.of_nat N + (2 * Z.of_nat (S i) - Z.of_nat (S d) - 1))
        with (Z.of_nat (N + 2 * i - d)) by lia.
      apply index_Some. unfold entry.
      apply list_lookup_lookup_total_lt. lia.
    + exact Habs'.
    + exact Hu.
Qed.
End TraceBack.

(** ** [Diff] on sequences that start with the same unit *)

(** When [a] and [b] start with the same unit, [Diff] returns, and the
    edits it returns turn [join(a)] into [join(b)]. *)
Theorem Diff_roundtrip_same_head (f u : string) (a' b' : list string) :
  ∃ es : editSet,
    Diff f (u :: a') (u :: b') = Ret es
    ∧ ApplyToString es f (Join (u :: a')) = Some (Join (u :: b')).
Proof.
  set (a := u :: a'). set (b := u :: b').
  rewrite Diff_nonempty by discriminate.
  destruct (search_full a b)
    as (vs & v & s & Hs & Hlen & _ & Hv & Habs & Htr);
    [discriminate|discriminate|].
  pose proof (lcs_le_l a b) as Hl. pose proof (lcs_le_r a b) as Hr.
  assert (1 ≤ lcs a b)%nat as Hlcs.
  { unfold a, b. rewrite lcs_cons, String.eqb_refl. lia. }
  rewrite Hs. cbn [bind]. unfold constructEditSet. cbv zeta.
  rewrite rev_unit. unfold len.
  replace (Z.of_nat (length b) + Z.of_nat (length a))
    with (Z.of_nat (length a + length b)) by lia.
  replace (Z.of_nat (length a) - Z.of_nat (length b))
    with (2 * Z.of_nat (length a - lcs a b) - Z.of_nat (length vs)) by lia.
  apply (Trace_backtrace f a b (length a + length b)
           ltac:(exists u; split; reflexivity)
           (length vs) (length a - lcs a b) _ Htr v (rev vs) (length a)
           NewEditSet eq_refl).
  - lia.
  - unfold entry.
    replace (length a + length b + 2 * (length a - lcs a b) - length vs)%nat
      with (2 * length a)%nat by lia.
    rewrite (list_lookup_total_correct _ _ _ Hv). exact Habs.
  - lia.
  - lia.
  - unfold NewEditSet. rewrite editsOf_empty. constructor.
  - unfold NewEditSet. rewrite editsOf_empty, applyEdits_nil_units.
    rewrite !drop_ge by lia. reflexivity.
Qed.

(** ** Edit scripts *)

Lemma oldUnits_app (sc1 sc2 : list scriptOp) :
  oldUnits (sc1 ++ sc2) = oldUnits sc1 ++ oldUnits sc2.
Proof.
  induction sc1 as [|[u|u|u] sc1 IH]; simpl; rewrite ?IH; reflexivity.
Qed.

Lemma newUnits_app (sc1 sc2 : list scriptOp) :
  newUnits (sc1 ++ sc2) = newUnits sc1 ++ newUnits sc2.
Proof.
  induction sc1 as [|[u|u|u] sc1 IH]; simpl; rewrite ?IH; reflexivity.
Qed.

Lemma keptUnits_app (sc1 sc2 : list scriptOp) :
  keptUnits (sc1 ++ sc2) = keptUnits sc1 ++ keptUnits sc2.
Proof.
  induction sc1 as [|[u|u|u] sc1 IH]; simpl; rewrite ?IH; reflexivity.
Qed.

Lemma oldUnits_keeps (us : list string) : oldUnits (map Keep us) = us.
Proof. induction us as [|u us IH]; simpl; rewrite ?IH; reflexivity. Qed.

Lemma newUnits_keeps (us : list string) : newUnits (map Keep us) = us.
Proof. induction us as [|u us IH]; simpl; rewrite ?IH; reflexivity. Qed.

Lemma scriptEdits_keeps (us : list string) (sc : list scriptOp) :
  ∀ o, scriptEdits o (map Keep us ++ sc)
       = scriptEdits (o + strlen (Join us)) sc.
Proof.
  induction us as [|u us IH]; intros o.
  - simpl. rewrite Z.add_0_r. reflexivity.
  - cbn [map app scriptEdits Join]. rewrite IH, strlen_append.
    f_equal. lia.
Qed.

Lemma scriptEdits_lower (sc : list scriptOp) :
  ∀ o, Forall (λ e, o ≤ eOffset e) (scriptEdits o sc).
Proof.
  induction sc as [|[u|u|u] sc IH]; intros o; cbn [scriptEdits].
  - constructor.
  - pose proof (strlen_nonneg u).
    eapply Forall_impl; [apply IH|]. cbv beta. intros e He. lia.
  - pose proof (strlen_nonneg u). constructor; [cbn; lia|].
    eapply Forall_impl; [apply IH|]. cbv beta. intros e He. lia.
  - constructor; [cbn; lia|]. apply IH.
Qed.

(** The kept units are a common subsequence of the old and the new
    units. *)
Lemma keptUnits_sublist (sc : list scriptOp) :
  keptUnits sc `sublist_of` oldUnits sc ∧ keptUnits sc `sublist_of` newUnits sc.
Proof.
  induction sc as [|[u|u|u] sc [IH1 IH2]]; simpl.
  - split; constructor.
  - split; apply sublist_skip; assumption.
  - split; [apply sublist_cons|]; assumption.
  - split; [|apply sublist_cons]; assumption.
Qed.

Lemma script_count (sc : list scriptOp) :
  (length (oldUnits sc) + length (newUnits sc)
   = 2 * length (keptUnits sc) + length (scriptEdits 0 sc))%nat.
Proof.
  generalize 0. induction sc as [|[u|u|u] sc IH]; intros o; simpl.
  - reflexivity.
  - specialize (IH (o + strlen u)). lia.
  - specialize (IH (o + strlen u)). lia.
  - specialize (IH o). lia.
Qed.

(** A run of common units in front of a script. *)
Lemma script_run (a b : list string) (x0 y0 : nat) (us : list string)
    (sc : list scriptOp) :
  take (x0 + length us) a = take x0 a ++ us →
  take (y0 + length us) b = take y0 b ++ us →
  oldUnits sc = drop (x0 + length us) a →
  newUnits sc = drop (y0 + length us) b →
  scriptEdits (unitOffset x0 a) (map Keep us ++ sc)
  = scriptEdits (unitOffset (x0 + length us) a) sc
  ∧ oldUnits (map Keep us ++ sc) = drop x0 a
  ∧ newUnits (map Keep us ++ sc) = drop y0 b.
Proof.
  intros Ha Hb Ho Hn.
  pose proof (Ran_units a x0 us Ha) as Ha'.
  pose proof (Ran_units b y0 us Hb) as Hb'.
  split; [|split].
  - rewrite scriptEdits_keeps, unitOffset_add, Ha'. reflexivity.
  - rewrite oldUnits_app, oldUnits_keeps, Ho.
    rewrite <- Ha' at 1. rewrite <- drop_drop. apply take_drop.
  - rewrite newUnits_app, newUnits_keeps, Hn.
    rewrite <- Hb' at 1. rewrite <- drop_drop. apply take_drop.
Qed.

Section TraceScript.
Variable f : string.
Variables a b : list string.
Variable N : nat.
Hypothesis Hhd : ∃ u, a !! 0%nat = Some u ∧ b !! 0%nat = Some u.

Lemma script_first (o : Z) (x0 x : nat) (sc : list scriptOp) (e : edit) :
  (x0 ≤ x)%nat →
  eOffset e = unitOffset x0 a →
  Forall (λ e', eOffset e ≤ eOffset e') (scriptEdits (unitOffset x a) sc).
Proof.
  intros Hx He. pose proof (unitOffset_mono a x0 x Hx).
  eapply Forall_impl; [apply scriptEdits_lower|]. cbv beta.
  intros e' He'. lia.
Qed.

(** Along a traced history the backtrace builds the edits of a script
    from [a] to [b]. *)
Lemma Trace_script (d i : nat) (rvs : list (list Z)) :
  Trace a b N d i rvs →
  ∀ (v : list Z) (rest : list (list Z)) (x : nat) (res : editSet)
    (sc : list scriptOp),
    rvs = v :: rest →
    (d < N)%nat →
    abs (entry v N d i) = Z.of_nat x →
    (x ≤ length a)%nat →
    (x + (d - i) - i ≤ length b)%nat →
    editsOf res f = scriptEdits (unitOffset x a) sc →
    oldUnits sc = drop x a →
    newUnits sc = drop (x + (d - i) - i) b →
    ∃ (es : editSet) (sc0 : list scriptOp),
      backtrace rvs f a b (Z.of_nat N) (2 * Z.of_nat i - Z.of_nat d) res
      = Ret es
      ∧ editsOf es f = scriptEdits 0 sc0
      ∧ oldUnits sc0 = a ∧ newUnits sc0 = b.
Proof.
  induction 1 as
    [v x1 Hlen Hent Hran
    |d i v vprev rest x0 x1 Hlen Htr IH Hid Hx0 Hix0 Hran Hent
    |d i v vprev rest x0 x1 Hlen Htr IH Hid Hx0 Hix0 Hran Hent];
    intros v0 rest0 x res sc Heq HdN Habs Hxa Hyb HE Hold Hnew;
    injection Heq as <- <-.
  - rewrite Hent, abs_of_nat in Habs. apply Nat2Z.inj in Habs. subst x1.
    destruct Hran as (us & Hx & Ha & Hb & _). subst x.
    replace (0 + length us + (0 - 0) - 0)%nat with (0 + length us)%nat
      in Hnew by lia.
    destruct (script_run a b 0 0 us sc Ha Hb Hold Hnew) as (H1 & H2 & H3).
    exists res, (map Keep us ++ sc). split; [reflexivity|].
    rewrite unitOffset_0 in H1. rewrite drop_0 in H2, H3.
    rewrite HE. auto.
  - rewrite Hent, abs_of_nat in Habs. apply Nat2Z.inj in Habs. subst x1.
    destruct (Trace_facts a b N Hhd _ _ _ Htr)
      as (v' & rest' & x' & Heq & Hlenp & _ & Habs' & Hx'1 & _).
    injection Heq as <- <-.
    assert (x' = x0) as -> by lia.
    destruct Hran as (us & Hx & Ha & Hb & _). subst x.
    assert (is_Some (b !! (x0 + (d - i) - i)%nat)) as [u Hu]
      by (apply lookup_lt_is_Some; lia).
    replace (x0 + length us + (S d - i) - i)%nat
      with (x0 + (S d - i) - i + length us)%nat in Hnew by lia.
    destruct (script_run a b x0 _ us sc Ha Hb Hold Hnew) as (H1 & H2 & H3).
    rewrite (backtrace_ins_step f a b _ v vprev rest _ res
               (x0 + length us) x0 (entry vprev N d i) u).
    + replace (2 * Z.of_nat i - Z.of_nat (S d) + 1)
        with (2 * Z.of_nat i - Z.of_nat d) by lia.
      apply (IH vprev rest x0 _ (Ins u :: map Keep us ++ sc) eq_refl);
        try lia.
      * rewrite editsOf_Add, HE, insertEdit_first
          by (apply (script_first 0 x0); [lia|reflexivity]).
        cbn [scriptEdits]. rewrite H1. reflexivity.
      * cbn [oldUnits]. exact H2.
      * cbn [newUnits]. rewrite H3.
        replace (x0 + (S d - i) - i)%nat with (S (x0 + (d - i) - i)) by lia.
        symmetry. apply drop_S, Hu.
    + replace (Z.of_nat N + (2 * Z.of_nat i - Z.of_nat (S d)))
        with (Z.of_nat (N + 2 * i - S d)) by lia.
      apply index_Some. rewrite <- Hent. unfold entry.
      apply list_lookup_lookup_total_lt. lia.
    + lia.
    + replace (Z.of_nat N + (2 * Z.of_nat i - Z.of_nat (S d) + 1))
        with (Z.of_nat (N + 2 * i - d)) by lia.
      apply index_Some. unfold entry.
      apply list_lookup_lookup_total_lt. lia.
    + symmetry. exact Hx0.
    + lia.
    + lia.
    + replace (Z.to_nat (Z.of_nat x0 - (2 * Z.of_nat i - Z.of_nat (S d) + 1)))
        with (x0 + (d - i) - i)%nat by lia.
      exact Hu.
  - rewrite Hent, abs_opp_of_nat in Habs. apply Nat2Z.inj in Habs.
    subst x1.
    destruct (Trace_facts a b N Hhd _ _ _ Htr)
      as (v' & rest' & x' & Heq & Hlenp & _ & Habs' & Hx'1 & Hix').
    injection Heq as <- <-.
    assert (x0 = S x') as -> by lia.
    destruct Hran as (us & Hx & Ha & Hb & _). subst x.
    assert (is_Some (a !! x')) as [u Hu]
      by (apply lookup_lt_is_Some; lia).
    replace (S x' + length us + (S d - S i) - S i)%nat
      with (S x' + (d - i) - S i + length us)%nat in Hnew by lia.
    destruct (script_run a b (S x') _ us sc Ha Hb Hold Hnew)
      as (H1 & H2 & H3).
    rewrite (backtrace_del_step f a b _ v vprev rest _ res
               (S x' + length us) x' (entry vprev N d i) u).
    + replace (2 * Z.of_nat (S i) - Z.of_nat (S d) - 1)
        with (2 * Z.of_nat i - Z.of_nat d) by lia.
      apply (IH vprev rest x' _ (Del u :: map Keep us ++ sc) eq_refl);
        try lia.
      * rewrite editsOf_Add, HE, insertEdit_first
          by (apply (script_first 0 x'); [lia|reflexivity]).
        cbn [scriptEdits]. rewrite <- (unitOffset_S a x' u Hu), H1.
        reflexivity.
      * cbn [oldUnits]. rewrite H2. symmetry. apply drop_S, Hu.
      * cbn [newUnits]. rewrite H3. f_equal; lia.
    + replace (Z.of_nat N + (2 * Z.of_nat (S i) - Z.of_nat (S d)))
        with (Z.of_nat (N + 2 * S i - S d)) by lia.
      apply index_Some. rewrite <- Hent. unfold entry.
      apply list_lookup_lookup_total_lt. lia.
    + replace (Z.of_nat N + (2 * Z.of_nat (S i) - Z.of_nat (S d) - 1))
        with (Z.of_nat (N + 2 * i - d)) by lia.
      apply index_Some. unfold entry.
      apply list_lookup_lookup_total_lt. lia.
    + exact Habs'.
    + exact Hu.
Qed.
End TraceScript.

(** ** The edits of [Diff] as an edit script *)

Lemma Diff_edit_script_aux (f u : string) (a' b' : list string) :
  ∃ (es : editSet) (sc : list scriptOp),
    Diff f (u :: a') (u :: b') = Ret es
    ∧ editsOf es f = scriptEdits 0 sc
    ∧ oldUnits sc = u :: a'
    ∧ newUnits sc = u :: b'
    ∧ length (keptUnits sc) = lcs (u :: a') (u :: b').
Proof.
  set (a := u :: a'). set (b := u :: b').
  rewrite Diff_nonempty by discriminate.
  destruct (search_full a b)
    as (vs & v & s & Hs & Hlen & _ & Hv & Habs & Htr);
    [discriminate|discriminate|].
  pose proof (lcs_le_l a b) as Hl. pose proof (lcs_le_r a b) as Hr.
  assert (1 ≤ lcs a b)%nat as Hlcs.
  { unfold a, b. rewrite lcs_cons, String.eqb_refl. lia. }
  rewrite Hs. cbn [bind]. unfold constructEditSet. cbv zeta.
  rewrite rev_unit. unfold len.
  replace (Z.of_nat (length b) + Z.of_nat (length a))
    with (Z.of_nat (length a + length b)) by lia.
  replace (Z.of_nat (length a) - Z.of_nat (length b))
    with (2 * Z.of_nat (length a - lcs a b) - Z.of_nat (length vs)) by lia.
  destruct (Trace_script f a b (length a + length b)
              ltac:(exists u; split; reflexivity)
              (length vs) (length a - lcs a b) _ Htr v (rev vs) (length a)
              NewEditSet [] eq_refl)
    as (es & sc & Hb & HE & Hold & Hnew).
  - lia.
  - unfold entry.
    replace (length a + length b + 2 * (length a - lcs a b) - length vs)%nat
      with (2 * length a)%nat by lia.
    rewrite (list_lookup_total_correct _ _ _ Hv). exact Habs.
  - lia.
  - lia.
  - unfold NewEditSet. rewrite editsOf_empty. reflexivity.
  - rewrite drop_ge by lia. reflexivity.
  - rewrite drop_ge by lia. reflexivity.
  - exists es, sc. split; [exact Hb|]. split; [exact HE|].
    split; [exact Hold|]. split; [exact Hnew|].
    destruct (backtrace_spec _ _ _ _ _ _ _ _ Hb) as (Hcount & _).
    unfold NewEditSet in Hcount. rewrite editsOf_empty in Hcount.
    cbn [length] in Hcount. rewrite length_rev in Hcount.
    pose proof (script_count sc) as Hsc.
    rewrite Hold, Hnew, <- HE in Hsc. fold a b in Hsc. lia.
Qed.

(** When [a] and [b] start with the same unit, [Diff] returns the edits of
    a shortest edit script from [a] to [b]: read in order, the script
    keeps or deletes the units of [a] one after the other and inserts
    units of [b] between them, producing [b]; an insertion is an edit of
    length 0 at the offset of the next unit of [a] read, a deletion
    covers the deleted unit; and the script keeps [LCS(a, b)] units. *)
Theorem Diff_edit_script (f u : string) (a' b' : list string) :
  ∃ (es : editSet) (sc : list scriptOp),
    Diff f (u :: a') (u :: b') = Ret es
    ∧ editsOf es f = scriptEdits 0 sc
    ∧ oldUnits sc = u :: a'
    ∧ newUnits sc = u :: b'
    ∧ length (keptUnits sc) = lcs (u :: a') (u :: b').
Proof. apply Diff_edit_script_aux. Qed.

(** ** The writer on the edits of a script *)

Lemma iterEdit_at (pre E : list edit) :
  iterEdit (mkEditIter (pre ++ E) (length pre)) = E !! 0%nat.
Proof.
  unfold iterEdit. cbn [iterEdits nextIndex].
  rewrite lookup_app_r by lia. rewrite Nat.sub_diag. reflexivity.
Qed.

Lemma moveToNextEdit_at (pre : list edit) (e : edit) (E : list edit) :
  moveToNextEdit (mkEditIter (pre ++ e :: E) (length pre))
  = mkEditIter ((pre ++ [e]) ++ E) (length (pre ++ [e])).
Proof.
  unfold moveToNextEdit. cbn [iterEdits nextIndex].
  rewrite <- app_assoc, length_app. cbn [app length].
  rewrite Nat.add_1_r. reflexivity.
Qed.

(** The inner loop stops at an edit that is not at the offset of the
    line. *)
Lemma writeEditsAt_stop (cnt : nat) (it : editIter) (offset : Z)
    (origLine : string) (deleted : bool) (out : string) :
  match iterEdit it with
  | Some e => eOffset e ≠ offset
  | None => True
  end →
  writeEditsAt cnt it offset origLine deleted out = (it, deleted, out).
Proof.
  intros H. destruct cnt as [|cnt]; [reflexivity|].
  cbn [writeEditsAt]. destruct (iterEdit it) as [e|]; [|reflexivity].
  destruct (Z.eqb_spec (eOffset e) offset); [contradiction|reflexivity].
Qed.

(** An insertion at the offset of the line is written before the line. *)
Lemma writeLines_ins (l : string) (ls : list string) (it : editIter)
    (e : edit) (o : Z) (out : string) :
  iterEdit it = Some e →
  eOffset e = o →
  eLength e = 0 →
  writeLines (l :: ls) it o out
  = writeLines (l :: ls) (moveToNextEdit it) o
      (String.append out (String.append "+" (replacement e))).
Proof.
  intros He Ho Hl.
  assert (nextIndex it < length (iterEdits it))%nat as Hlt
    by (eapply lookup_lt_Some, He).
  cbn [writeLines]. rewrite He.
  destruct (Z.ltb_spec o (eOffset e)) as [|_]; [lia|].
  destruct (length (iterEdits it) - nextIndex it)%nat as [|c] eqn:Hc; [lia|].
  cbn [writeEditsAt]. rewrite He.
  destruct (Z.eqb_spec (eOffset e) o) as [_|]; [|contradiction].
  rewrite Hl. cbn [Z.ltb Z.compare].
  set (out' := String.append out (String.append "+" (replacement e))).
  set (it' := moveToNextEdit it).
  assert (length (iterEdits it') - nextIndex it' = c)%nat as Hc'
    by (unfold it', moveToNextEdit; cbn [iterEdits nextIndex]; lia).
  destruct (iterEdit it') as [e'|] eqn:He'.
  - destruct (Z.ltb_spec o (eOffset e')) as [Hlt'|Hge].
    + rewrite writeEditsAt_stop by (rewrite He'; lia). reflexivity.
    + rewrite Hc'. reflexivity.
  - rewrite writeEditsAt_stop by (rewrite He'; exact I). reflexivity.
Qed.

Lemma scriptEdits_nil_or (o : Z) (sc : list scriptOp) (e : edit)
    (E : list edit) :
  scriptEdits o sc = e :: E → sc ≠ [] ∧ o ≤ eOffset e.
Proof.
  intros H. split.
  - intros ->. discriminate.
  - pose proof (scriptEdits_lower sc o) as HF. rewrite H in HF.
    inversion HF; assumption.
Qed.

(** For a script that it can follow by offsets, the writer writes the
    body of the script. *)
Lemma writeLines_script (sc : list scriptOp) :
  ∀ (o : Z) (pre : list edit) (out : string),
    followable sc →
    writeLines (oldUnits sc)
               (mkEditIter (pre ++ scriptEdits o sc) (length pre)) o out
    = String.append out (render sc).
Proof.
  induction sc as [|[u|u|u] sc IH]; intros o pre out Hf.
  - cbn [oldUnits writeLines render]. rewrite append_nil_r. reflexivity.
  - destruct Hf as [Hu Hf].
    cbn [oldUnits scriptEdits render writeLines].
    rewrite iterEdit_at.
    assert (∀ A B : editIter * string, A = B →
            (let '(it', out') := A in
             writeLines (oldUnits sc) it' (o + strlen u) out')
            = (let '(it', out') := B in
               writeLines (oldUnits sc) it' (o + strlen u) out'))
      as Hcong by (intros A B ->; reflexivity).
    rewrite (Hcong _
      (mkEditIter (pre ++ scriptEdits (o + strlen u) sc) (length pre),
       String.append out (String.append " " u))).
    + rewrite IH by exact Hf. rewrite !append_assoc. reflexivity.
    + destruct (scriptEdits (o + strlen u) sc) as [|e E] eqn:HE;
        [reflexivity|].
      cbn [lookup list_lookup].
      destruct (scriptEdits_nil_or _ _ _ _ HE) as [Hne Hle].
      specialize (Hu Hne).
      destruct (Z.ltb_spec o (eOffset e)); [reflexivity|lia].
  - destruct Hf as [Hu Hf].
    cbn [oldUnits scriptEdits render writeLines].
    rewrite iterEdit_at. cbn [lookup list_lookup].
    cbn [eOffset ol Offset].
    destruct (Z.ltb_spec o o) as [|_]; [lia|].
    cbn [iterEdits nextIndex]. rewrite length_app. cbn [length].
    replace (length pre + S (length (scriptEdits (o + strlen u) sc))
             - length pre)%nat
      with (S (length (scriptEdits (o + strlen u) sc))) by lia.
    cbn [writeEditsAt]. rewrite iterEdit_at. cbn [lookup list_lookup].
    cbn [eOffset eLength ol Offset Length replacement].
    rewrite Z.eqb_refl.
    destruct (Z.ltb_spec 0 (strlen u)) as [_|]; [|lia].
    rewrite moveToNextEdit_at.
    rewrite writeEditsAt_stop.
    + rewrite IH by exact Hf. rewrite !append_assoc. reflexivity.
    + rewrite iterEdit_at.
      destruct (scriptEdits (o + strlen u) sc) as [|e E] eqn:HE; [exact I|].
      cbn [lookup list_lookup].
      destruct (scriptEdits_nil_or _ _ _ _ HE) as [_ Hle]. lia.
  - destruct Hf as [Hne Hf].
    cbn [oldUnits scriptEdits render].
    destruct (oldUnits sc) as [|l ls] eqn:Hold; [contradiction|].
    rewrite (writeLines_ins l ls _ (mkEdit (mkOL o 0) u));
      [|rewrite iterEdit_at; reflexivity|reflexivity|reflexivity].
    rewrite moveToNextEdit_at.
    cbn [replacement].
    rewrite IH by exact Hf. rewrite !append_assoc. reflexivity.
Qed.

(** ** Scripts that keep the last unit *)

Lemma sublist_snoc_notin (K l : list string) (t : string) :
  K `sublist_of` l ++ [t] → t ∉ K → K `sublist_of` l.
Proof.
  intros H Ht. apply sublist_app_r in H as (K1 & K2 & -> & H1 & H2).
  destruct K2 as [|u K2].
  - rewrite app_nil_r. exact H1.
  - exfalso. apply Ht.
    assert (u = t) as ->.
    { assert (u ∈ [t]) as Hin
        by (eapply elem_of_sublist; [left|exact H2]).
      apply list_elem_of_singleton in Hin. exact Hin. }
    apply elem_of_app. right. left.
Qed.

Lemma kept_not_last (K a' b' : list string) (t : string) :
  K `sublist_of` a' → K `sublist_of` b' →
  (length K < lcs (a' ++ [t]) (b' ++ [t]))%nat.
Proof.
  intros Ha Hb.
  assert (length (K ++ [t]) ≤ lcs (a' ++ [t]) (b' ++ [t]))%nat as H.
  { apply lcs_upper; apply sublist_app; try assumption; reflexivity. }
  rewrite length_app in H. simpl in H. lia.
Qed.

(** A script that keeps as many units as [LCS] says keeps a last unit
    that the two sequences share and hold nowhere else. *)
Lemma script_last_kept (sc : list scriptOp) (a' b' : list string)
    (t : string) :
  oldUnits sc = a' ++ [t] →
  newUnits sc = b' ++ [t] →
  t ∉ a' → t ∉ b' →
  length (keptUnits sc) = lcs (a' ++ [t]) (b' ++ [t]) →
  ∃ sc', sc = sc' ++ [Keep t] ∧ oldUnits sc' = a' ∧ newUnits sc' = b'.
Proof.
  intros Hold Hnew Hta Htb Hk.
  destruct sc as [|o sc0] using rev_ind;
    [destruct a'; discriminate|clear IHsc0].
  rewrite oldUnits_app in Hold. rewrite newUnits_app in Hnew.
  rewrite keptUnits_app in Hk.
  destruct (keptUnits_sublist sc0) as [K1 K2].
  destruct o as [u|u|u]; cbn [oldUnits newUnits keptUnits] in *.
  - apply app_inj_tail in Hold as [Hold ->].
    apply app_inj_tail in Hnew as [Hnew _].
    exists sc0. auto.
  - exfalso. apply app_inj_tail in Hold as [Hold ->].
    rewrite app_nil_r in Hnew, Hk. rewrite Hold in K1. rewrite Hnew in K2.
    assert (t ∉ keptUnits sc0) as Hnot.
    { intros Hin. apply Hta. eapply elem_of_sublist; [exact Hin|exact K1]. }
    pose proof (kept_not_last _ a' b' t K1
                  (sublist_snoc_notin _ _ _ K2 Hnot)).
    lia.
  - exfalso. apply app_inj_tail in Hnew as [Hnew ->].
    rewrite app_nil_r in Hold, Hk. rewrite Hold in K1. rewrite Hnew in K2.
    assert (t ∉ keptUnits sc0) as Hnot.
    { intros Hin. apply Htb. eapply elem_of_sublist; [exact Hin|exact K2]. }
    pose proof (kept_not_last _ a' b' t
                  (sublist_snoc_notin _ _ _ K1 Hnot) K2).
    lia.
Qed.

Lemma followable_snoc (sc : list scriptOp) (t : string) :
  Forall (λ u, 0 < strlen u) (oldUnits sc) → followable (sc ++ [Keep t]).
Proof.
  induction sc as [|[u|u|u] sc IH]; cbn [oldUnits app followable];
    intros HF.
  - split; [intros H; contradiction|exact I].
  - inversion HF; subst. split; [intros _; assumption|apply IH; assumption].
  - inversion HF; subst. split; [assumption|apply IH; assumption].
  - split; [|apply IH; assumption].
    rewrite oldUnits_app. cbn [oldUnits]. intros H.
    apply app_eq_nil in H as [_ H]. discriminate.
Qed.

(** ** The pieces of a text *)

Lemma SplitAfter_shape (s : string) :
  ∃ (ls : list string) (t : string),
    SplitAfter s = ls ++ [t]
    ∧ Forall (λ l, fullLine l = true) ls ∧ noNewline t = true.
Proof.
  induction s as [|c s (ls & t & Hs & Hls & Ht)].
  - exists [], EmptyString. repeat split. constructor.
  - rewrite SplitAfter_cons, Hs.
    destruct (Ascii.eqb c newline) eqn:Hc.
    + exists (String c EmptyString :: ls), t. split; [reflexivity|].
      split; [|exact Ht]. constructor; [|exact Hls].
      cbn [fullLine]. rewrite Hc. reflexivity.
    + destruct ls as [|l0 ls].
      * exists [], (String c t). split; [reflexivity|].
        split; [constructor|]. cbn [noNewline]. rewrite Hc, Ht. reflexivity.
      * exists (String c l0 :: ls), t. split; [reflexivity|].
        inversion Hls; subst.
        split; [|exact Ht]. constructor; [|assumption].
        cbn [fullLine]. rewrite Hc. assumption.
Qed.

Lemma fullLine_newline (l : string) :
  fullLine l = true → noNewline l = false ∧ 0 < strlen l.
Proof.
  induction l as [|c l IH]; [discriminate|].
  cbn [fullLine noNewline]. intros H. split.
  - destruct (Ascii.eqb c newline); [reflexivity|].
    cbn [negb andb]. apply IH, H.
  - unfold strlen. cbn [String.length]. lia.
Qed.

Lemma pieces_shape (s : string) (ls : list string) (t : string) :
  SplitAfter s = ls ++ [t] →
  Forall (λ u, 0 < strlen u) ls ∧ t ∉ ls.
Proof.
  intros H. destruct (SplitAfter_shape s) as (ls' & t' & Hs & Hls & Ht).
  rewrite H in Hs. apply app_inj_tail in Hs as [<- <-].
  split.
  - eapply Forall_impl; [exact Hls|]. cbv beta. intros l Hl.
    apply fullLine_newline, Hl.
  - intros Hin. rewrite Forall_forall in Hls.
    destruct (fullLine_newline t (Hls t Hin)) as [Hn _]. congruence.
Qed.

(** ** Writing a hunk *)

(** A hunk whose edits leave its first line and what follows its last
    newline as they are is written, without a panic, as the unified diff
    of a shortest line script: after the header with the two line
    counts, each kept line with a space in front, each deleted line with
    [-], each inserted line with [+]; the kept and deleted lines are, in
    order, the lines of the hunk, the kept and inserted lines those of
    the new text; the adjustment returned is the difference of the line
    counts. *)
Theorem writeUnifiedDiffHunk_script (h : hunk) (outputLineOffset : Z)
    (newText u t : string) (la lb : list string) :
  ApplyToString {[ EmptyString := edits h ]} EmptyString (hunkText h)
  = Some newText →
  SplitAfter (hunkText h) = u :: la ++ [t] →
  SplitAfter newText = u :: lb ++ [t] →
  ∃ sc : list scriptOp,
    writeUnifiedDiffHunk h outputLineOffset
    = Ret (Some (len (u :: lb ++ [t]) - len (u :: la ++ [t]),
                 String.append
                   (hunkHeader (startLine h) (len (u :: la ++ [t]))
                      (startLine h + outputLineOffset)
                      (len (u :: lb ++ [t])))
                   (render sc)))
    ∧ oldUnits sc = u :: la ++ [t]
    ∧ newUnits sc = u :: lb ++ [t]
    ∧ length (keptUnits sc) = lcs (u :: la ++ [t]) (u :: lb ++ [t]).
Proof.
  intros Happ Hold Hnew.
  destruct (Diff_edit_script_aux EmptyString u (la ++ [t]) (lb ++ [t]))
    as (es & sc & HD & HE & Ho & Hn & Hk).
  exists sc. split; [|auto].
  unfold writeUnifiedDiffHunk. cbv zeta. rewrite Happ, Hold, Hnew, HD.
  cbn [bind]. do 3 f_equal. unfold newEditIter. rewrite HE.
  destruct (pieces_shape _ (u :: la) t Hold) as [Hpos Hta].
  destruct (pieces_shape _ (u :: lb) t Hnew) as [_ Htb].
  destruct (script_last_kept sc (u :: la) (u :: lb) t Ho Hn Hta Htb Hk)
    as (sc' & -> & Ho' & _).
  assert (followable (sc' ++ [Keep t])) as HF
    by (apply followable_snoc; rewrite Ho'; exact Hpos).
  pose proof (λ out, writeLines_script _ 0 [] out HF) as HW.
  rewrite Ho in HW. apply HW.
Qed.

Lemma writeUnifiedDiffHunk_script_witness :
  ∃ sc : list scriptOp,
    writeUnifiedDiffHunk sample_hunk 0
    = Ret (Some (len [foo; qux; baz; EmptyString]
                 - len [foo; bar; baz; EmptyString],
                 String.append
                   (hunkHeader 1 (len [foo; bar; baz; EmptyString]) (1 + 0)
                      (len [foo; qux; baz; EmptyString]))
                   (render sc)))
    ∧ oldUnits sc = [foo; bar; baz; EmptyString]
    ∧ newUnits sc = [foo; qux; baz; EmptyString]
    ∧ length (keptUnits sc)
      = lcs [foo; bar; baz; EmptyString] [foo; qux; baz; EmptyString].
Proof.
  apply (writeUnifiedDiffHunk_script sample_hunk 0 (Join [foo; qux; baz])
           foo EmptyString [bar; baz] [qux; baz]);
    vm_compute; reflexivity.
Defined.
